(** * The BFT consensus manager of [consensus/bft/bft_manager.go]

    A shallow embedding of the three-layer voting state machine
    (ConsensusManager over HeightManager over RoundManager) together with
    the validator contract, and the properties of it that the
    specification states.

    Conventions.
    - [uint64] values (heights, rounds, block numbers) are [N]; the places
      where the source subtracts or adds them go through [sub64]/[add64],
      which wrap modulo 2^64.
    - Go's [int] is a 64-bit two's complement integer, modelled in [Z].
    - A Go [panic] (explicit, or a run-time fault such as a nil dereference
      or an index out of range) is the [Panic] outcome of [result].
    - Pointers to RoundManagers and HeightManagers are handles: the round
      number inside the [rounds] map of a HeightManager, the height inside
      the [heights] map of the ConsensusManager.
    - Mutexes are not modelled: every function below is one critical
      region of the source, run to completion. *)

From Stdlib Require Import ZArith NArith QArith Lia String.
From stdpp Require Import base option list gmap strings.

Local Open Scope N_scope.

(** ** Machine integers *)

Definition two64 : Z := (2 ^ 64)%Z.

(** [a - b] on [uint64]. *)
Definition sub64 (a b : N) : N := Z.to_N ((Z.of_N a - Z.of_N b) mod two64).

(** [a + b] on [uint64]. *)
Definition add64 (a b : N) : N := Z.to_N ((Z.of_N a + Z.of_N b) mod two64).

(** [float64(x)] for a [uint64] [x]: the nearest double, ties to even.  The
    result is an integer again (a non-negative integer rounds to an
    integer), so the double is represented by its exact value in [Z].
    Below 2^53 the conversion is exact; above, the low [e] bits are
    rounded away. *)
Definition float64_of_uint64 (x : Z) : Z :=
  if (x <? 2 ^ 53)%Z then x
  else
    let e := (Z.log2 x - 52)%Z in
    let q := Z.shiftr x e in
    let r := Z.land x (Z.ones e) in
    let half := (2 ^ (e - 1))%Z in
    let q' := if (r <? half)%Z then q
              else if (half <? r)%Z then (q + 1)%Z
              else if Z.even q then q else (q + 1)%Z in
    Z.shiftl q' e.

(** [int(f)] for a double [f] holding a non-negative integer, where [int]
    is 64 bits wide (amd64, arm64 and the other 64-bit targets; on a
    32-bit target [int] ends at 2^31, which is not modelled).  Go leaves
    the result implementation-dependent when [f] does not fit an [int]:
    [int_overflow] is what the platform yields there (amd64: -2^63, the
    "integer indefinite" of CVTTSD2SQ; arm64 saturates to 2^63-1). *)
Definition int_of_float64 (int_overflow : Z) (f : Z) : Z :=
  if (f <? 2 ^ 63)%Z then f else int_overflow.

Definition amd64_int_overflow : Z := (- 2 ^ 63)%Z.
Definition arm64_int_overflow : Z := (2 ^ 63 - 1)%Z.

(** ** Outcomes: a value, or a panic that halts the process *)

Inductive result (A : Type) : Type :=
| Ok (a : A)
| Panic (msg : string).
Arguments Ok {A} a.
Arguments Panic {A} msg.

#[global] Instance result_ret : MRet result := fun A a => Ok a.
#[global] Instance result_bind : MBind result := fun A B f m =>
  match m with
  | Ok a => f a
  | Panic msg => Panic msg
  end.

(** ** Identifiers *)

(** A 32-byte digest, as the number it encodes; [common.Hash{}] and
    [common.StringToHash("")] are both the all-zero hash. *)
Definition Hash : Type := N.
Definition nilHash : Hash := 0.

Definition Address : Type := N.

(** ** Blocks, as far as the manager looks into them *)

Record Block := mkBlock {
  NumberU64 : N;
  BlockHash : Hash;
  ParentHash : Hash;
}.

(** ** Votes

    [btypes.NewVote(height, round, blockhash, voteType)] builds the four
    fields; [VoteType] is 1 for a block vote and 2 for a nil vote.
    [Sign] fills in the signature, of which only the signer it recovers to
    ([From()]) matters here. *)

Record Vote := mkVote {
  vHeight : N;
  vRound : N;
  vBlockhash : Hash;
  vVoteType : N;
  vSigner : option Address;
}.

Record PrecommitVote := mkPrecommitVote {
  pvHeight : N;
  pvRound : N;
  pvBlockhash : Hash;
  pvVoteType : N;
  pvSigner : option Address;
}.

Definition NewVote (h r : N) (bh : Hash) (t : N) : Vote :=
  mkVote h r bh t None.

Definition NewPrecommitVote (h r : N) (bh : Hash) (t : N) : PrecommitVote :=
  mkPrecommitVote h r bh t None.

Definition SignVote (key : Address) (v : Vote) : Vote :=
  mkVote (vHeight v) (vRound v) (vBlockhash v) (vVoteType v) (Some key).

Definition SignPrecommitVote (key : Address) (v : PrecommitVote) : PrecommitVote :=
  mkPrecommitVote (pvHeight v) (pvRound v) (pvBlockhash v) (pvVoteType v) (Some key).

#[global] Instance Vote_eq_dec : EqDecision Vote.
Proof. solve_decision. Defined.
#[global] Instance PrecommitVote_eq_dec : EqDecision PrecommitVote.
Proof. solve_decision. Defined.

(** ** Locksets

    The package [btypes] (LockSet, PrecommitLockSet and their methods) is
    not among the sources.  The manager only calls the methods below, so
    they are taken as an interface; every definition and theorem about the
    manager holds for any implementation of it.  The methods are taken to
    return (none of them panics), and [Add] to return the lockset it
    leaves behind together with whether it reported an error. *)

Class LocksetOps (V L : Type) := {
  (** [NewLockSet(eligibleVotesNum, votes)] *)
  NewLockSet : N → list V → L;
  (** the [EligibleVotesNum] field *)
  EligibleVotesNum : L → N;
  (** the [Votes] / [PrecommitVotes] field *)
  Votes : L → list V;
  IsValid : L → bool;
  HasQuorum : L → bool * Hash;
  NoQuorum : L → bool;
  LsHeight : L → N;
  LsRound : L → N;
  Contain : L → V → bool;
  (** [Add(vote, forceReplace)]: the lockset afterwards, and [true] when an
      error was returned *)
  Add : L → V → bool → L * bool;
}.

(** ** The validator contract *)

Record ConsensusContract := mkContract {
  coinbase : Address;
  validators : list Address;
}.

Definition containsAddress (s : list Address) (e : Address) : bool :=
  existsb (N.eqb e) s.

Section Contract.
(** What [int(f)] yields on this platform when [f] is out of range. *)
Variable int_overflow : Z.

(** [chosen]: [sum := h - r] in [uint64], then
    [int(math.Abs(float64(sum))) % length].  [%] truncates towards zero
    ([Z.rem]) and faults on a zero divisor. *)
Definition chosen (h r : N) (length : Z) : result Z :=
  let sum := sub64 h r in
  let i := int_of_float64 int_overflow (Z.abs (float64_of_uint64 (Z.of_N sum))) in
  if (length =? 0)%Z then Panic "integer divide by zero"
  else Ok (Z.rem i length).

(** [cc.validators[chosen(...)]]: indexing faults out of range. *)
Definition proposer (cc : ConsensusContract) (height round : N) : result Address :=
  i ← chosen height round (Z.of_nat (length (validators cc)));
  if (i <? 0)%Z then Panic "index out of range"
  else match validators cc !! Z.to_nat i with
       | Some addr => Ok addr
       | None => Panic "index out of range"
       end.

Definition isValidators (cc : ConsensusContract) (v : Address) : bool :=
  containsAddress (validators cc) v.

Definition numEligibleVotes (cc : ConsensusContract) (height : N) : N :=
  if height =? 0 then 0 else N.of_nat (length (validators cc)).
End Contract.

(** ** The managers *)

(** The [found] channel, as far as a non-blocking send sees it: how many
    sends can go through right now (a waiting receiver, or free buffer
    slots), and what was handed over so far. *)
Record FoundChan := mkFoundChan {
  chanRoom : nat;
  chanSent : list Block;
}.

Section Model.
Context {L PL : Type} `{!LocksetOps Vote L} `{!LocksetOps PrecommitVote PL}.

(** *** Proposals *)

Record BlockProposal := mkBlockProposal {
  bpHeight : N;
  bpRound : N;
  bpBlock : Block;
  SigningLockset : PL;
  RoundLockset : option L;
  bpSigner : option Address;
}.

Record VotingInstruction := mkVotingInstruction {
  viHeight : N;
  viRound : N;
  viRoundLockset : L;
  viSigner : option Address;
}.

(** The [btypes.Proposal] interface with its two implementations. *)
Inductive Proposal :=
| IsBlockProposal (bp : BlockProposal)
| IsVotingInstruction (vi : VotingInstruction).

Definition GetHeight (p : Proposal) : N :=
  match p with
  | IsBlockProposal bp => bpHeight bp
  | IsVotingInstruction vi => viHeight vi
  end.

Definition GetRound (p : Proposal) : N :=
  match p with
  | IsBlockProposal bp => bpRound bp
  | IsVotingInstruction vi => viRound vi
  end.

(** [From()]: the recovered signer, [None] for the error return. *)
Definition From (p : Proposal) : option Address :=
  match p with
  | IsBlockProposal bp => bpSigner bp
  | IsVotingInstruction vi => viSigner vi
  end.

(** Modelled from the spec: [VotingInstruction.LockSet()] of package
    [btypes] is not among the sources.  A VotingInstruction carries one
    lockset, its round lockset. *)
Definition viLockSet (vi : VotingInstruction) : L := viRoundLockset vi.

(** Modelled from the spec: [VotingInstruction.Blockhash()] of package
    [btypes] is not among the sources.  A VotingInstruction names the hash
    its round lockset has a quorum on. *)
Definition viBlockhash (vi : VotingInstruction) : Hash :=
  (HasQuorum (viRoundLockset vi)).2.

(** Modelled from the spec: [BlockProposal.Blockhash()] of package
    [btypes] is not among the sources.  A BlockProposal names the hash of
    its block. *)
Definition bpBlockhash (bp : BlockProposal) : Hash := BlockHash (bpBlock bp).

Definition Blockhash (p : Proposal) : Hash :=
  match p with
  | IsBlockProposal bp => bpBlockhash bp
  | IsVotingInstruction vi => viBlockhash vi
  end.

(** What [LockSet()] of a BlockProposal without a round lockset returns
    is decided in [btypes]; it is left open here. *)
Variable bareLockSet : BlockProposal → L.

(** Modelled from the spec: [BlockProposal.LockSet()] of package [btypes]
    is not among the sources.  A BlockProposal yields the round lockset
    attached to it. *)
Definition bpLockSet (bp : BlockProposal) : L :=
  match RoundLockset bp with
  | Some ls => ls
  | None => bareLockSet bp
  end.

Definition LockSet (p : Proposal) : L :=
  match p with
  | IsBlockProposal bp => bpLockSet bp
  | IsVotingInstruction vi => viLockSet vi
  end.

(** *** RoundManager *)

(** The two deadlines are [float64] seconds in the source; they are kept
    as exact rationals.  [0] means "not armed". *)
Record RoundManager := mkRoundManager {
  rmRound : N;
  rmHeight : N;
  lockset : L;
  precommitLockset : PL;
  proposal : option Proposal;
  voteLock : option Vote;
  precommitVoteLock : option PrecommitVote;
  timeoutTime : Q;
  timeoutPrecommit : Q;
}.

Definition set_lockset (ls : L) (rm : RoundManager) : RoundManager :=
  mkRoundManager (rmRound rm) (rmHeight rm) ls (precommitLockset rm)
    (proposal rm) (voteLock rm) (precommitVoteLock rm)
    (timeoutTime rm) (timeoutPrecommit rm).

Definition set_precommitLockset (pls : PL) (rm : RoundManager) : RoundManager :=
  mkRoundManager (rmRound rm) (rmHeight rm) (lockset rm) pls
    (proposal rm) (voteLock rm) (precommitVoteLock rm)
    (timeoutTime rm) (timeoutPrecommit rm).

Definition set_proposal (p : option Proposal) (rm : RoundManager) : RoundManager :=
  mkRoundManager (rmRound rm) (rmHeight rm) (lockset rm) (precommitLockset rm)
    p (voteLock rm) (precommitVoteLock rm)
    (timeoutTime rm) (timeoutPrecommit rm).

Definition set_voteLock (v : option Vote) (rm : RoundManager) : RoundManager :=
  mkRoundManager (rmRound rm) (rmHeight rm) (lockset rm) (precommitLockset rm)
    (proposal rm) v (precommitVoteLock rm)
    (timeoutTime rm) (timeoutPrecommit rm).

Definition set_precommitVoteLock (v : option PrecommitVote) (rm : RoundManager) : RoundManager :=
  mkRoundManager (rmRound rm) (rmHeight rm) (lockset rm) (precommitLockset rm)
    (proposal rm) (voteLock rm) v
    (timeoutTime rm) (timeoutPrecommit rm).

Definition set_timeoutPrecommit (t : Q) (rm : RoundManager) : RoundManager :=
  mkRoundManager (rmRound rm) (rmHeight rm) (lockset rm) (precommitLockset rm)
    (proposal rm) (voteLock rm) (precommitVoteLock rm)
    (timeoutTime rm) t.

(** [cm.mkLockSet(height)] and [cm.mkPLockSet(height)] *)
Definition mkLockSet (cc : ConsensusContract) (height : N) : L :=
  NewLockSet (numEligibleVotes cc height) [].

Definition mkPLockSet (cc : ConsensusContract) (height : N) : PL :=
  NewLockSet (numEligibleVotes cc height) [].

Definition NewRoundManager (cc : ConsensusContract) (height round : N) : RoundManager :=
  mkRoundManager round height (mkLockSet cc height) (mkPLockSet cc height)
    None None None 0%Q 0%Q.

(** [rm.timeoutTime != 0 && float64(rm.cm.Now()) >= rm.timeoutTime] *)
Definition timeoutReached (now : Z) (rm : RoundManager) : bool :=
  negb (Qeq_bool (timeoutTime rm) 0) && Qle_bool (timeoutTime rm) (inject_Z now).

(** [setTimeoutPrecommit]: arms the precommit deadline once, at
    [now + 2 * 1.5^round].  The source computes the sum in [float64]
    with [math.Pow]; the exact rational kept here is that value for the
    low rounds and differs from it in the last bits from round 24 on.
    No statement below reads the deadline. *)
Definition setTimeoutPrecommit (now : Z) (rm : RoundManager) : RoundManager :=
  if negb (Qeq_bool (timeoutPrecommit rm) 0) then rm
  else
    let delay := (2 * Qpower (3 # 2) (Z.of_N (rmRound rm)))%Q in
    set_timeoutPrecommit (Qred (inject_Z now + delay)) rm.

(** [rm.addVote(vote, force_replace, process)]; [process] is unused in
    the source. *)
Definition rm_addVote (vote : Vote) (force_replace : bool) (rm : RoundManager)
  : bool * RoundManager :=
  if negb (Contain (lockset rm) vote) then
    let '(ls, err) := Add (lockset rm) vote force_replace in
    if err then (false, set_lockset ls rm)
    else (true, set_lockset ls rm)
  else (false, rm).

(** [rm.addProposal(p)] *)
Definition rm_addProposal (p : Proposal) (rm : RoundManager) : bool * RoundManager :=
  match proposal rm with
  | None => (true, set_proposal (Some p) rm)
  | Some stored =>
      if Blockhash stored =? Blockhash p then (true, rm)
      else (false, rm)
  end.

(** A run of [rm.addProposal] calls on one RoundManager: what each call
    returned, and the RoundManager afterwards. *)
Fixpoint addProposals (ps : list Proposal) (rm : RoundManager)
  : list bool * RoundManager :=
  match ps with
  | [] => ([], rm)
  | p :: ps' =>
      let '(ok, rm1) := rm_addProposal p rm in
      let '(oks, rm2) := addProposals ps' rm1 in
      (ok :: oks, rm2)
  end.

(** *** HeightManager *)

Record HeightManager := mkHeightManager {
  hmHeight : N;
  rounds : gmap N RoundManager;
  activeRound : N;
}.

Definition set_rounds (rs : gmap N RoundManager) (hm : HeightManager) : HeightManager :=
  mkHeightManager (hmHeight hm) rs (activeRound hm).

Definition NewHeightManager (height : N) : HeightManager :=
  mkHeightManager height ∅ 0.

(** The functions of a HeightManager reach the validator contract
    through [hm.cm.contract]; it is passed along as [cc]. *)
Section WithContract.
Variable cc : ConsensusContract.

(** [hm.getRoundManager(r)]: the entry for [r], created when missing. *)
Definition getRoundManager (r : N) (hm : HeightManager) : RoundManager * HeightManager :=
  match rounds hm !! r with
  | Some rm => (rm, hm)
  | None =>
      let rm := NewRoundManager cc (hmHeight hm) r in
      (rm, set_rounds (<[r := rm]> (rounds hm)) hm)
  end.

(** The four "highest ..." accessors are one loop,
    [for i := len(hm.rounds) - 1; i >= 0; i-- {
       if test(hm.getRoundManager(uint64(i))) {
         return get(hm.getRoundManager(uint64(i))) } }
     return nil],
    with [len(hm.rounds)] read once, before the first iteration.  The
    argument [n] is [i + 1]. *)
Fixpoint scanDown {A : Type} (test : RoundManager → bool)
    (get : RoundManager → option A) (n : nat) (hm : HeightManager)
  : option A * HeightManager :=
  match n with
  | O => (None, hm)
  | S i =>
      let '(rm, hm1) := getRoundManager (N.of_nat i) hm in
      if test rm then
        let '(rm', hm2) := getRoundManager (N.of_nat i) hm1 in
        (get rm', hm2)
      else scanDown test get i hm1
  end.

Definition hasVoteLock (rm : RoundManager) : bool :=
  match voteLock rm with Some _ => true | None => false end.

Definition LastVoteLock (hm : HeightManager) : option Vote * HeightManager :=
  scanDown hasVoteLock voteLock (size (rounds hm)) hm.

(** The test reads [voteLock], the result [precommitVoteLock], as in
    the source. *)
Definition LastPrecommitVoteLock (hm : HeightManager)
  : option PrecommitVote * HeightManager :=
  scanDown hasVoteLock precommitVoteLock (size (rounds hm)) hm.

Definition lastValidLockset (hm : HeightManager) : option L * HeightManager :=
  scanDown (λ rm, IsValid (lockset rm)) (λ rm, Some (lockset rm))
    (size (rounds hm)) hm.

Definition lastValidPrecommitLockset (hm : HeightManager) : option PL * HeightManager :=
  scanDown (λ rm, IsValid (precommitLockset rm)) (λ rm, Some (precommitLockset rm))
    (size (rounds hm)) hm.

(** [lastQuorumPrecommitLockSet]: the loop
    [for i := 0; i < len(hm.rounds); i++], whose bound is read again
    at every iteration while [getRoundManager] may add entries.  The
    loop is run on [fuel]: [None] means the fuel ran out before the
    loop ended. *)
Fixpoint lastQuorumPrecommitLockSet_from (fuel : nat) (i : N) (found : option PL)
    (hm : HeightManager) : option (result (option PL * HeightManager)) :=
  match fuel with
  | O => None
  | S fuel' =>
      if N.of_nat (size (rounds hm)) <=? i then Some (Ok (found, hm))
      else
        let '(rm, hm1) := getRoundManager i hm in
        let ls := precommitLockset rm in
        if IsValid ls then
          let '(res, hash) := HasQuorum ls in
          if res then
            match found with
            | Some f =>
                if negb ((HasQuorum f).2 =? hash)
                then Some (Panic "multiple valid locksets on different proposals")
                else lastQuorumPrecommitLockSet_from fuel' (i + 1) (Some ls) hm1
            | None => lastQuorumPrecommitLockSet_from fuel' (i + 1) (Some ls) hm1
            end
          else lastQuorumPrecommitLockSet_from fuel' (i + 1) found hm1
        else lastQuorumPrecommitLockSet_from fuel' (i + 1) found hm1
  end.

Definition lastQuorumPrecommitLockSet (fuel : nat) (hm : HeightManager)
  : option (result (option PL * HeightManager)) :=
  lastQuorumPrecommitLockSet_from fuel 0 None hm.

(** [hm.addProposal(p)] *)
Definition hm_addProposal (p : Proposal) (hm : HeightManager) : bool * HeightManager :=
  let '(rm, hm1) := getRoundManager (GetRound p) hm in
  let '(ok, rm') := rm_addProposal p rm in
  (ok, set_rounds (<[GetRound p := rm']> (rounds hm1)) hm1).

(** [rm.vote()], for the RoundManager of round [r] of [hm].  [now] is
    [cm.Now()] and [key] the address [cm.privkey] signs for.  The
    condition [quorum && bp.LockSet().Round() > lastPrecommitVoteLock.Round]
    reads a field through [lastPrecommitVoteLock] once [quorum] holds,
    which faults when that pointer is nil. *)
Definition vote (now : Z) (key : Address) (r : N) (hm : HeightManager)
  : result (option Vote * HeightManager) :=
  match rounds hm !! r with
  | None => Panic "nil RoundManager"
  | Some rm =>
      match voteLock rm with
      | Some _ => Ok (None, hm)
      | None =>
          let '(lastPrecommitVoteLock, hm1) := LastPrecommitVoteLock hm in
          let finish (v : option Vote) : result (option Vote * HeightManager) :=
            match v with
            | None => Ok (None, hm1)
            | Some v0 =>
                let v1 := SignVote key v0 in
                let rm1 := set_voteLock (Some v1) rm in
                let rm2 := (rm_addVote v1 false rm1).2 in
                let rm3 := setTimeoutPrecommit now rm2 in
                Ok (Some v1, set_rounds (<[r := rm3]> (rounds hm1)) hm1)
            end in
          let byProposal : result (option Vote * HeightManager) :=
            match proposal rm with
            | Some (IsVotingInstruction bp) =>
                let quorum := (HasQuorum (viLockSet bp)).1 in
                higher ←
                  (if quorum then
                     match lastPrecommitVoteLock with
                     | None => Panic "nil pointer dereference"
                     | Some l =>
                         Ok (pvRound l <? LsRound (viLockSet bp))
                     end
                   else Ok false);
                if (higher : bool) then
                  finish (Some (NewVote (rmHeight rm) (rmRound rm) (viBlockhash bp) 1))
                else
                  match lastPrecommitVoteLock with
                  | None => finish (Some (NewVote (rmHeight rm) (rmRound rm) nilHash 2))
                  | Some _ => finish None
                  end
            | Some (IsBlockProposal bp) =>
                finish (Some (NewVote (rmHeight rm) (rmRound rm) (bpBlockhash bp) 1))
            | None =>
                if timeoutReached now rm then
                  finish (Some (NewVote (rmHeight rm) (rmRound rm) nilHash 2))
                else Ok (None, hm1)
            end in
          match lastPrecommitVoteLock with
          | Some l =>
              if pvVoteType l =? 1 then
                finish (Some (NewVote (rmHeight rm) (rmRound rm) (pvBlockhash l) 1))
              else byProposal
          | None => byProposal
          end
      end
  end.
End WithContract.

(** *** ConsensusManager *)

(** The key-value store [hdcDb]: the value under
    ["last_committing_lockset"] and the values under
    ["precommitLockset:<hash>"], by hash.  A stored value is the lockset
    that was encoded into it. *)
Record Database := mkDatabase {
  dbLastCommittingLockset : option PL;
  dbPrecommitLockset : gmap Hash PL;
}.

(** The synchronizer and the peers are not among the sources; the
    manager only passes proposals on to [onProposal], which is taken to
    return and to touch nothing but the synchronizer. *)
Context {Synchronizer Peer : Type}.
Variable onProposal : Proposal → Peer → Synchronizer → Synchronizer.

(** The fields of ConsensusManager that the functions below read or
    write.  [head] is [cm.chain.CurrentBlock()], [privkey] the address
    the private key signs for. *)
Record ConsensusManager := mkConsensusManager {
  contract : ConsensusContract;
  privkey : Address;
  head : Block;
  readyValidators : gset Address;
  heights : gmap N HeightManager;
  blockCandidates : gmap Hash BlockProposal;
  hdcDb : Database;
  synchronizer : Synchronizer;
  found : option FoundChan;
  Enable : bool;
}.

Definition set_readyValidators (s : gset Address) (cm : ConsensusManager) :=
  mkConsensusManager (contract cm) (privkey cm) (head cm) s (heights cm)
    (blockCandidates cm) (hdcDb cm) (synchronizer cm) (found cm) (Enable cm).

Definition set_heights (hs : gmap N HeightManager) (cm : ConsensusManager) :=
  mkConsensusManager (contract cm) (privkey cm) (head cm) (readyValidators cm) hs
    (blockCandidates cm) (hdcDb cm) (synchronizer cm) (found cm) (Enable cm).

Definition set_blockCandidates (bc : gmap Hash BlockProposal) (cm : ConsensusManager) :=
  mkConsensusManager (contract cm) (privkey cm) (head cm) (readyValidators cm) (heights cm)
    bc (hdcDb cm) (synchronizer cm) (found cm) (Enable cm).

Definition set_hdcDb (db : Database) (cm : ConsensusManager) :=
  mkConsensusManager (contract cm) (privkey cm) (head cm) (readyValidators cm) (heights cm)
    (blockCandidates cm) db (synchronizer cm) (found cm) (Enable cm).

Definition set_synchronizer (s : Synchronizer) (cm : ConsensusManager) :=
  mkConsensusManager (contract cm) (privkey cm) (head cm) (readyValidators cm) (heights cm)
    (blockCandidates cm) (hdcDb cm) s (found cm) (Enable cm).

Definition set_found (f : option FoundChan) (cm : ConsensusManager) :=
  mkConsensusManager (contract cm) (privkey cm) (head cm) (readyValidators cm) (heights cm)
    (blockCandidates cm) (hdcDb cm) (synchronizer cm) f (Enable cm).

Definition set_Enable (b : bool) (cm : ConsensusManager) :=
  mkConsensusManager (contract cm) (privkey cm) (head cm) (readyValidators cm) (heights cm)
    (blockCandidates cm) (hdcDb cm) (synchronizer cm) (found cm) b.

Definition Head (cm : ConsensusManager) : Block := head cm.

Definition Height (cm : ConsensusManager) : N := add64 (NumberU64 (head cm)) 1.

Definition getHeightManager (h : N) (cm : ConsensusManager)
  : HeightManager * ConsensusManager :=
  match heights cm !! h with
  | Some hm => (hm, cm)
  | None =>
      let hm := NewHeightManager h in
      (hm, set_heights (<[h := hm]> (heights cm)) cm)
  end.

Definition disable (cm : ConsensusManager) : ConsensusManager := set_Enable false cm.

(** [storePrecommitLockset]: the write under ["precommitLockset:<hash>"];
    the encoding and the write are taken to succeed. *)
Definition storePrecommitLockset (blockhash : Hash) (pls : PL) (cm : ConsensusManager)
  : ConsensusManager :=
  set_hdcDb (mkDatabase (dbLastCommittingLockset (hdcDb cm))
               (<[blockhash := pls]> (dbPrecommitLockset (hdcDb cm)))) cm.

(** [commitPrecommitLockset(hash, pls)]; [pls] may be nil.  The send on
    [found] sits in a [select] with a [default] branch, so it never
    blocks. *)
Definition commitPrecommitLockset (hash : Hash) (pls : option PL) (cm : ConsensusManager)
  : ConsensusManager :=
  match blockCandidates cm !! hash with
  | Some proposal =>
      if negb (ParentHash (bpBlock proposal) =? BlockHash (Head cm)) then cm
      else
        match pls with
        | Some pls =>
            let hash := (HasQuorum pls).2 in
            if bpBlockhash proposal =? hash then
              match found cm with
              | Some ch =>
                  match chanRoom ch with
                  | S room =>
                      let cm1 := set_found (Some (mkFoundChan room
                                    (chanSent ch ++ [bpBlock proposal]))) cm in
                      disable (storePrecommitLockset hash pls cm1)
                  | O => cm
                  end
              | None => cm
              end
            else cm
        | None => cm
        end
  | None =>
      match pls with
      | Some pls =>
          let '(result, hash) := HasQuorum pls in
          if result then storePrecommitLockset hash pls cm else cm
      | None => cm
      end
  end.

(** [cleanup()]: two [for ... range] loops that delete while they
    iterate; each entry present at the start is visited once. *)
Definition cleanup (cm : ConsensusManager) : ConsensusManager :=
  let cm1 :=
    set_blockCandidates
      (map_fold (λ hash p (m : gmap Hash BlockProposal),
                   if bpHeight p <=? NumberU64 (Head cm) then delete hash m else m)
         (blockCandidates cm) (blockCandidates cm)) cm in
  set_heights
    (map_fold (λ i hm (m : gmap N HeightManager),
                 if hmHeight hm <? NumberU64 (Head cm1) then delete i m else m)
       (heights cm1) (heights cm1)) cm1.

(** [for _, x := range l { ... }] over a body that may panic. *)
Fixpoint forEach {A S : Type} (body : A → S → result S) (l : list A) (s : S) : result S :=
  match l with
  | [] => Ok s
  | x :: l' => s' ← body x s; forEach body l' s'
  end.

(** Writes a RoundManager back under its handle. *)
Definition putRoundManager (h r : N) (rm : RoundManager) (hm : HeightManager)
    (cm : ConsensusManager) : ConsensusManager :=
  set_heights (<[h := set_rounds (<[r := rm]> (rounds hm)) hm]> (heights cm)) cm.

(** [rm.addPrecommitVote(vote, force_replace, process)] for the
    RoundManager of round [r] at height [h]; it calls back into the
    ConsensusManager, so it runs on the whole state. *)
Definition rm_addPrecommitVote (h r : N) (vote : PrecommitVote) (force_replace : bool)
    (cm : ConsensusManager) : result (bool * ConsensusManager) :=
  match heights cm !! h with
  | None => Panic "nil HeightManager"
  | Some hm =>
      match rounds hm !! r with
      | None => Panic "nil RoundManager"
      | Some rm =>
          if negb (Contain (precommitLockset rm) vote) then
            let '(pls, err) := Add (precommitLockset rm) vote force_replace in
            let cm1 := putRoundManager h r (set_precommitLockset pls rm) hm cm in
            if err then Ok (false, cm1)
            else
              let '(result, hash) := HasQuorum pls in
              if result then Ok (true, commitPrecommitLockset hash (Some pls) cm1)
              else Ok (true, cm1)
          else Ok (false, cm)
      end
  end.

(** [hm.addPrecommitVote(v, process)] for the HeightManager at [h].  The
    error of [v.From()] is dropped in the source; the zero address
    stands for an unrecoverable signer. *)
Definition hm_addPrecommitVote (h : N) (v : PrecommitVote) (process : bool)
    (cm : ConsensusManager) : result (bool * ConsensusManager) :=
  match heights cm !! h with
  | None => Panic "nil HeightManager"
  | Some hm =>
      let addr := default 0 (pvSigner v) in
      if negb (isValidators (contract cm) addr) then Ok (false, cm)
      else
        let isOwnVote := addr =? coinbase (contract cm) in
        let r := pvRound v in
        let '(_, hm1) := getRoundManager (contract cm) r hm in
        rm_addPrecommitVote h r v isOwnVote
          (set_heights (<[h := hm1]> (heights cm)) cm)
  end.

Definition addBlockCandidates (bp : BlockProposal) (cm : ConsensusManager)
  : ConsensusManager :=
  set_blockCandidates (<[bpBlockhash bp := bp]> (blockCandidates cm)) cm.

(** [cm.addBlockProposal(bp)] *)
Definition addBlockProposal (bp : BlockProposal) (cm : ConsensusManager)
  : result (bool * ConsensusManager) :=
  let result := (HasQuorum (SigningLockset bp)).1 in
  let slH := LsHeight (SigningLockset bp) in
  if negb result || negb (slH =? sub64 (bpHeight bp) 1) then Ok (false, cm)
  else
    let '(_, cm1) := getHeightManager slH cm in
    cm2 ← forEach (λ v cm, '(_, cm') ← hm_addPrecommitVote slH v false cm; Ok cm')
             (Votes (SigningLockset bp)) cm1;
    Ok (true, addBlockCandidates bp cm2).

(** What [int(f)] yields on this platform when [f] is out of range. *)
Variable int_overflow : Z.

(** [cc.isProposer(p)] *)
Definition isProposer (cc : ConsensusContract) (p : Proposal) : result bool :=
  match From p with
  | None => Ok false
  | Some addr =>
      a ← proposer int_overflow cc (GetHeight p) (GetRound p);
      Ok (addr =? a)
  end.

(** [cm.AddProposal(p, peer)], for a non-nil [p]; [peer] may be nil.
    The election runs for every sender: for a validator in the condition
    [!isValidators(addr) || !isProposer(p)], for any other sender in the
    arguments of the [log.Debug] call before [return false], which are
    evaluated whatever the log level. *)
Definition AddProposal (p : Proposal) (peer : option Peer) (cm : ConsensusManager)
  : result (bool * ConsensusManager) :=
  if GetHeight p <? Height cm then Ok (false, cm)
  else
    match From p with
    | None => Ok (false, cm)
    | Some addr =>
        bad ← (if negb (isValidators (contract cm) addr)
               then b ← isProposer (contract cm) p; Ok true
               else b ← isProposer (contract cm) p; Ok (negb b));
        if (bad : bool) then Ok (false, cm)
        else
          let cm := set_readyValidators ({[addr]} ∪ readyValidators cm) cm in
          let ls := LockSet p in
          if negb (IsValid ls) && negb (EligibleVotesNum ls =? 0) then Ok (false, cm)
          else if negb (GetRound p =? 0) && negb (LsHeight ls =? GetHeight p)
          then Ok (false, cm)
          else if negb (GetRound p =? 0) && negb (sub64 (GetRound p) (LsRound ls) =? 1)
          then Ok (false, cm)
          else
            let dispatch (cm : ConsensusManager) : result (bool * ConsensusManager) :=
              let '(hm, cm) := getHeightManager (GetHeight p) cm in
              let '(isValid, hm) := hm_addProposal (contract cm) p hm in
              Ok (isValid, set_heights (<[GetHeight p := hm]> (heights cm)) cm) in
            match p with
            | IsBlockProposal proposal =>
                let cm :=
                  match peer with
                  | Some pe => set_synchronizer (onProposal p pe (synchronizer cm)) cm
                  | None => cm
                  end in
                if negb (NumberU64 (bpBlock proposal) =? bpHeight proposal)
                then Ok (false, cm)
                else if negb (bpRound proposal =? 0) && negb (NoQuorum ls)
                then Ok (false, cm)
                else if negb (HasQuorum (SigningLockset proposal)).1
                then Ok (false, cm)
                else
                  '(_, cm) ← addBlockProposal proposal cm;
                  dispatch cm
            | IsVotingInstruction proposal =>
                if negb ((LsRound (viLockSet proposal) =? sub64 (viRound proposal) 1)
                         && (viHeight proposal =? LsHeight (viLockSet proposal)))
                then Ok (false, cm)
                else if viRound proposal =? 0 then Ok (false, cm)
                else if negb (HasQuorum (viLockSet proposal)).1 then Ok (false, cm)
                else dispatch cm
            end
    end.

(** [rm.votePrecommit()], for the RoundManager of round [r] at height
    [h]; [now] is [cm.Now()]. *)
Definition votePrecommit (now : Z) (h r : N) (cm : ConsensusManager)
  : result (option PrecommitVote * ConsensusManager) :=
  match heights cm !! h with
  | None => Panic "nil HeightManager"
  | Some hm =>
      match rounds hm !! r with
      | None => Panic "nil RoundManager"
      | Some rm =>
          match precommitVoteLock rm with
          | Some _ => Ok (None, cm)
          | None =>
              let vote : option PrecommitVote :=
                if IsValid (lockset rm) then
                  let '(quorum, blockhash) := HasQuorum (lockset rm) in
                  if quorum then
                    Some (NewPrecommitVote (rmHeight rm) (rmRound rm) blockhash 1)
                  else if timeoutReached now rm then
                    Some (NewPrecommitVote (rmHeight rm) (rmRound rm) nilHash 2)
                  else None
                else None in
              match vote with
              | Some v0 =>
                  let v1 := SignPrecommitVote (privkey cm) v0 in
                  let rm1 := if pvVoteType v1 =? 1
                             then set_precommitVoteLock (Some v1) rm else rm in
                  let cm1 := putRoundManager h r rm1 hm cm in
                  '(_, cm2) ← rm_addPrecommitVote h r v1 false cm1;
                  Ok (Some v1, cm2)
              | None => Ok (None, cm)
              end
          end
      end
  end.

(** *** Vocabulary of the statements *)

Section Vocabulary.
Variable cc : ConsensusContract.

(** The RoundManager [getRoundManager] answers with for round [j]: the
    stored one, or a new empty one. *)
Definition roundAt (hm : HeightManager) (j : N) : RoundManager :=
  default (NewRoundManager cc (hmHeight hm) j) (rounds hm !! j).

(** The HeightManager [getRoundManager] leaves behind. *)
Definition touch (j : N) (hm : HeightManager) : HeightManager :=
  set_rounds (<[j := roundAt hm j]> (rounds hm)) hm.


(** What a downward scan from [n] leaves behind: the rounds from [lo]
    up to [n - 1] exist afterwards, created empty where they were
    missing, and nothing else changed. *)
Definition scanned (hm hm' : HeightManager) (lo n : nat) : Prop :=
  hmHeight hm' = hmHeight hm ∧ activeRound hm' = activeRound hm
  ∧ ∀ k, rounds hm' !! k
         = if decide (N.of_nat lo ≤ k < N.of_nat n)
           then Some (roundAt hm k) else rounds hm !! k.


(** Round [k] of [hm] holds a valid precommit lockset with a quorum on
    [h]. *)
Definition quorumAt (hm : HeightManager) (k : N) (h : Hash) : Prop :=
  ∃ rm, rounds hm !! k = Some rm
        ∧ IsValid (precommitLockset rm) = true
        ∧ HasQuorum (precommitLockset rm) = (true, h).

Definition reportsQuorum (ls : PL) (h : Hash) : Prop :=
  IsValid ls = true ∧ HasQuorum ls = (true, h).

(** The body of the loop of [lastQuorumPrecommitLockSet], run over the
    precommit locksets it meets, in order. *)
Fixpoint scanQuorum (found : option PL) (l : list PL) : result (option PL) :=
  match l with
  | [] => Ok found
  | ls :: l' =>
      if IsValid ls then
        let '(res, hash) := HasQuorum ls in
        if res then
          match found with
          | Some f =>
              if negb ((HasQuorum f).2 =? hash)
              then Panic "multiple valid locksets on different proposals"
              else scanQuorum (Some ls) l'
          | None => scanQuorum (Some ls) l'
          end
        else scanQuorum found l'
      else scanQuorum found l'
  end.

(** The precommit locksets of rounds [i], [i+1], ..., [i+d-1], an empty
    one where the round does not exist yet. *)
Fixpoint plsFrom (hm : HeightManager) (i : N) (d : nat) : list PL :=
  match d with
  | O => []
  | S d' => precommitLockset (roundAt hm i) :: plsFrom hm (i + 1) d'
  end.
End Vocabulary.

(** The invariant of the loop of [lastQuorumPrecommitLockSet] at index
    [i], with [d] rounds to go: every round below [i] exists, and the
    highest round is [i + d - 1]. *)
Definition loopReady (hm : HeightManager) (i : N) (d : nat) : Prop :=
  (∀ j, j < i → is_Some (rounds hm !! j))
  ∧ (∀ k, is_Some (rounds hm !! k) → k < i + N.of_nat d)
  ∧ (d ≠ 0%nat → is_Some (rounds hm !! (i + N.of_nat d - 1))).

(** A value fits [uint64]. *)
Definition u64 (x : N) : Prop := x < 2 ^ 64.

(** The proposals the receiver must turn down: a BlockProposal of a round
    above 0 whose round lockset (what [LockSet()] yields) does not show
    NoQuorum, or is not of the round before, or whose signing lockset
    has no quorum; a VotingInstruction whose lockset has no quorum, or is
    not of the round before, or whose round is 0. *)
Definition malformed (p : Proposal) : Prop :=
  match p with
  | IsBlockProposal bp =>
      bpRound bp ≠ 0
      ∧ (NoQuorum (bpLockSet bp) = false
         ∨ LsRound (bpLockSet bp) ≠ bpRound bp - 1
         ∨ (HasQuorum (SigningLockset bp)).1 = false)
  | IsVotingInstruction vi =>
      (HasQuorum (viLockSet vi)).1 = false
      ∨ LsRound (viLockSet vi) ≠ viRound vi - 1
      ∨ viRound vi = 0
  end.

(** The shape of an accepted proposal. *)
Definition wellShaped (p : Proposal) : Prop :=
  match p with
  | IsBlockProposal bp =>
      (HasQuorum (SigningLockset bp)).1 = true
      ∧ (bpRound bp ≠ 0 →
         NoQuorum (bpLockSet bp) = true
         ∧ LsRound (bpLockSet bp) = bpRound bp - 1)
  | IsVotingInstruction vi =>
      (HasQuorum (viLockSet vi)).1 = true
      ∧ viRound vi ≠ 0
      ∧ LsRound (viLockSet vi) = viRound vi - 1
  end.

(** *** Further functions of the managers *)

(** [hm.Round()] *)
Definition hm_Round (hm : HeightManager) : N := activeRound hm.

(** [hm.addVote(v, process)].  The error of [v.From()] is dropped in the
    source; the zero address stands for an unrecoverable signer. *)
Definition hm_addVote (cc : ConsensusContract) (v : Vote) (process : bool)
    (hm : HeightManager) : bool * HeightManager :=
  let addr := default 0 (vSigner v) in
  if negb (isValidators cc addr) then (false, hm)
  else
    let isOwnVote := addr =? coinbase cc in
    let r := vRound v in
    let '(rm, hm1) := getRoundManager cc r hm in
    let '(ok, rm') := rm_addVote v isOwnVote rm in
    (ok, set_rounds (<[r := rm']> (rounds hm1)) hm1).

(** [hm.lastQuorumLockset()]: the loop of [lastQuorumPrecommitLockSet] over
    the prevote locksets; where that one panics, this one only logs.
    [None] means the fuel ran out before the loop ended. *)
Fixpoint lastQuorumLockset_from (cc : ConsensusContract) (fuel : nat) (i : N)
    (found : option L) (hm : HeightManager) : option (option L * HeightManager) :=
  match fuel with
  | O => None
  | S fuel' =>
      if N.of_nat (size (rounds hm)) <=? i then Some (found, hm)
      else
        let '(rm, hm1) := getRoundManager cc i hm in
        let ls := lockset rm in
        if IsValid ls then
          let '(res, hash) := HasQuorum ls in
          if res then lastQuorumLockset_from cc fuel' (i + 1) (Some ls) hm1
          else lastQuorumLockset_from cc fuel' (i + 1) found hm1
        else lastQuorumLockset_from cc fuel' (i + 1) found hm1
  end.

Definition lastQuorumLockset (cc : ConsensusContract) (fuel : nat) (hm : HeightManager)
  : option (option L * HeightManager) :=
  lastQuorumLockset_from cc fuel 0 None hm.

(** [hm.LastVotedBlockProposal()]: the downward loop stops at the first
    round whose proposal is not a BlockProposal; on a BlockProposal it
    reads [v.Blockhash] through the round's [voteLock], which faults when
    that is nil.  The argument [n] is [i + 1]. *)
Fixpoint LastVotedBlockProposal_from (cc : ConsensusContract) (n : nat)
    (hm : HeightManager) : result (option BlockProposal * HeightManager) :=
  match n with
  | O => Ok (None, hm)
  | S i =>
      let '(rm, hm1) := getRoundManager cc (N.of_nat i) hm in
      match proposal rm with
      | Some (IsBlockProposal p) =>
          let '(rm', hm2) := getRoundManager cc (N.of_nat i) hm1 in
          match voteLock rm' with
          | None => Panic "nil pointer dereference"
          | Some v =>
              if bpBlockhash p =? vBlockhash v then Ok (Some p, hm2)
              else LastVotedBlockProposal_from cc i hm2
          end
      | _ => Ok (None, hm1)
      end
  end.

Definition LastVotedBlockProposal (cc : ConsensusContract) (hm : HeightManager)
  : result (option BlockProposal * HeightManager) :=
  LastVotedBlockProposal_from cc (size (rounds hm)) hm.

(** [hm.HasQuorum()], on the fuel of [lastQuorumPrecommitLockSet]. *)
Definition hm_HasQuorum (cc : ConsensusContract) (fuel : nat) (hm : HeightManager)
  : option (result ((bool * Hash) * HeightManager)) :=
  match lastQuorumPrecommitLockSet cc fuel hm with
  | None => None
  | Some (Panic msg) => Some (Panic msg)
  | Some (Ok (Some ls, hm')) => Some (Ok (HasQuorum ls, hm'))
  | Some (Ok (None, hm')) => Some (Ok ((false, nilHash), hm'))
  end.

(** [cm.lastCommittingLockset()]: the quorum precommit lockset of the
    HeightManager at [cm.Height() - 1]. *)
Definition lastCommittingLockset (fuel : nat) (cm : ConsensusManager)
  : option (result (option PL * ConsensusManager)) :=
  let h := sub64 (Height cm) 1 in
  let '(hm, cm1) := getHeightManager h cm in
  match lastQuorumPrecommitLockSet (contract cm1) fuel hm with
  | None => None
  | Some (Panic msg) => Some (Panic msg)
  | Some (Ok (ls, hm')) => Some (Ok (ls, set_heights (<[h := hm']> (heights cm1)) cm1))
  end.

(** [cm.loadPrecommitLockset(blockhash)]: nil when nothing is stored. *)
Definition loadPrecommitLockset (blockhash : Hash) (cm : ConsensusManager) : option PL :=
  dbPrecommitLockset (hdcDb cm) !! blockhash.

(** A [btypes.Ready], as far as the manager looks into it: its nonce, its
    lockset and the signer [From()] recovers, [None] for the error
    return. *)
Record Ready := mkReady {
  rdNonce : N;
  rdLockSet : L;
  rdSigner : option Address;
}.

(** [cm.AddReady(ready)] *)
Definition AddReady (ready : Ready) (cm : ConsensusManager) : ConsensusManager :=
  match rdSigner ready with
  | None => cm
  | Some addr =>
      if negb (isValidators (contract cm) addr) then cm
      else set_readyValidators ({[addr]} ∪ readyValidators cm) cm
  end.

(** [cm.AddVote(v, peer)]; [v] may be nil.  The signer is marked ready
    before anything is checked. *)
Definition AddVote (v : option Vote) (peer : option Peer) (cm : ConsensusManager)
  : bool * ConsensusManager :=
  match v with
  | None => (false, cm)
  | Some v =>
      let addr := default 0 (vSigner v) in
      let cm := set_readyValidators ({[addr]} ∪ readyValidators cm) cm in
      let '(h, cm) := getHeightManager (vHeight v) cm in
      let '(success, h) := hm_addVote (contract cm) v true h in
      (success, set_heights (<[vHeight v := h]> (heights cm)) cm)
  end.

(** [cm.AddPrecommitVote(v, peer)]; [v] may be nil. *)
Definition AddPrecommitVote (v : option PrecommitVote) (peer : option Peer)
    (cm : ConsensusManager) : result (bool * ConsensusManager) :=
  match v with
  | None => Ok (false, cm)
  | Some v =>
      let '(_, cm) := getHeightManager (pvHeight v) cm in
      hm_addPrecommitVote (pvHeight v) v true cm
  end.

(** *** Invariants of the maps *)

(** The RoundManager stored for round [r] is the one of round [r], at the
    height of its HeightManager. *)
Definition roundsKeyed (hm : HeightManager) : Prop :=
  ∀ r rm, rounds hm !! r = Some rm → rmRound rm = r ∧ rmHeight rm = hmHeight hm.

(** The HeightManager stored for height [h] is the one of height [h], with
    its rounds keyed; a block candidate is stored under its blockhash. *)
Definition wellKeyed (cm : ConsensusManager) : Prop :=
  (∀ h hm, heights cm !! h = Some hm → hmHeight hm = h ∧ roundsKeyed hm)
  ∧ (∀ k bp, blockCandidates cm !! k = Some bp → bpBlockhash bp = k).

(** Every round below [len(rounds)] exists: the rounds are 0, 1, ...,
    [len(rounds) - 1]. *)
Definition contiguous (hm : HeightManager) : Prop :=
  ∀ j, j < N.of_nat (size (rounds hm)) → is_Some (rounds hm !! j).

(** Round [k] of [hm] holds a valid prevote lockset with a quorum. *)
Definition prevoteQuorumAt (hm : HeightManager) (k : N) : Prop :=
  ∃ rm, rounds hm !! k = Some rm
        ∧ IsValid (lockset rm) = true ∧ (HasQuorum (lockset rm)).1 = true.

(** The body of the loop of [lastQuorumLockset], run over the prevote
    locksets it meets, in order. *)
Fixpoint scanLast (found : option L) (l : list L) : option L :=
  match l with
  | [] => found
  | ls :: l' =>
      if IsValid ls && (HasQuorum ls).1 then scanLast (Some ls) l'
      else scanLast found l'
  end.

(** The prevote locksets of rounds [i], [i+1], ..., [i+d-1], an empty one
    where the round does not exist yet. *)
Fixpoint lsFrom (cc : ConsensusContract) (hm : HeightManager) (i : N) (d : nat) : list L :=
  match d with
  | O => []
  | S d' => lockset (roundAt cc hm i) :: lsFrom cc hm (i + 1) d'
  end.

(** An accessor [acc] that looks for the highest round passing [test] and
    returns [get] of it does so without changing the HeightManager: nil
    when no stored round passes, else [get] of the highest stored round
    that does. *)
Definition highestPassing {A : Type} (acc : HeightManager → option A * HeightManager)
    (test : RoundManager → bool) (get : RoundManager → option A)
    (hm : HeightManager) : Prop :=
  (acc hm).2 = hm
  ∧ ((∀ j rm, rounds hm !! j = Some rm → test rm = false) → (acc hm).1 = None)
  ∧ (∀ i rm, rounds hm !! i = Some rm → test rm = true →
       (∀ j rm', i < j → rounds hm !! j = Some rm' → test rm' = false) →
       (acc hm).1 = get rm).

(** [hm'] is [hm] with rounds added or updated in place: same height, and
    the rounds still keyed. *)
Definition keepsKeyed (hm hm' : HeightManager) : Prop :=
  hmHeight hm' = hmHeight hm ∧ roundsKeyed hm'.

(** [cm'] is the same node as [cm]: the contract, the key, the head, the
    ready set, the block candidates and the synchronizer are untouched. *)
Definition sameNode (cm cm' : ConsensusManager) : Prop :=
  contract cm' = contract cm ∧ privkey cm' = privkey cm ∧ head cm' = head cm
  ∧ readyValidators cm' = readyValidators cm
  ∧ blockCandidates cm' = blockCandidates cm
  ∧ synchronizer cm' = synchronizer cm.

(** Nothing was sent on [found], and [Enable] is as before. *)
Definition nothingSent (cm cm' : ConsensusManager) : Prop :=
  found cm' = found cm ∧ Enable cm' = Enable cm.

(** [cm'] is [cm] after the block of the candidate [bp] went out on
    [found], with the precommit lockset [pls] stored under its hash and
    the manager disabled. *)
Definition blockSent (bp : BlockProposal) (pls : PL) (cm cm' : ConsensusManager) : Prop :=
  ∃ ch room,
    found cm = Some ch ∧ chanRoom ch = S room
    ∧ found cm' = Some (mkFoundChan room (chanSent ch ++ [bpBlock bp]))
    ∧ Enable cm' = false
    ∧ loadPrecommitLockset (bpBlockhash bp) cm' = Some pls.

(** The HeightManager [getHeightManager] answers with for height [h]. *)
Definition heightAt (cm : ConsensusManager) (h : N) : HeightManager :=
  default (NewHeightManager h) (heights cm !! h).

(** Every address in the ready set is a validator. *)
Definition readyAreValidators (cm : ConsensusManager) : Prop :=
  ∀ a, a ∈ readyValidators cm → isValidators (contract cm) a = true.
End Model.

(** ** A lockset implementation

    Package [btypes] is not among the sources.  This is the lockset of the
    specification (sections 3 and 4.2), the instance on which the theorems
    below are exercised; none of them depends on it. *)

(** How a lockset looks into its votes. *)
Record VoteView (V : Type) := mkVoteView {
  vwHeight : V → N;
  vwRound : V → N;
  vwBlockhash : V → Hash;
  vwType : V → N;
  vwSigner : V → option Address;
}.
Arguments vwHeight {V} _ _.
Arguments vwRound {V} _ _.
Arguments vwBlockhash {V} _ _.
Arguments vwType {V} _ _.
Arguments vwSigner {V} _ _.

(** Modelled from the spec: the struct [LockSet] / [PrecommitLockSet] of
    package [btypes] is missing.  A lockset carries the eligible-vote count
    and a list of votes. *)
Record VoteSet (V : Type) := mkVoteSet {
  vsEligible : N;
  vsVotes : list V;
}.
Arguments mkVoteSet {V} _ _.
Arguments vsEligible {V} _.
Arguments vsVotes {V} _.

Section VoteSets.
Context {V : Type} `{!EqDecision V} (vw : VoteView V).

(** Strictly more than two thirds of [eligible]. *)
Definition moreThanTwoThirds (k : nat) (eligible : N) : bool :=
  2 * eligible <? 3 * N.of_nat k.

(** Modelled from the spec: [IsValid()] of package [btypes] is missing.
    Valid means that the votes exceed two thirds of the eligible count. *)
Definition vsIsValid (ls : VoteSet V) : bool :=
  moreThanTwoThirds (length (vsVotes ls)) (vsEligible ls).

(** The votes of type [t] for hash [h]. *)
Definition countFor (h : Hash) (t : N) (ls : VoteSet V) : nat :=
  length (filter (λ v, vwBlockhash vw v = h ∧ vwType vw v = t) (vsVotes ls)).

(** Modelled from the spec: [HasQuorum()] of package [btypes] is missing.
    [(true, h)] when the non-nil hash [h] received more than two thirds of
    the eligible votes, else [(false, nil-hash)]. *)
Definition vsHasQuorum (ls : VoteSet V) : bool * Hash :=
  match find (λ v, bool_decide (vwType vw v = 1 ∧ vwBlockhash vw v ≠ nilHash)
                   && moreThanTwoThirds (countFor (vwBlockhash vw v) 1 ls) (vsEligible ls))
             (vsVotes ls) with
  | Some v => (true, vwBlockhash vw v)
  | None => (false, nilHash)
  end.

(** Modelled from the spec: [NoQuorum()] of package [btypes] is missing.
    True when the lockset is valid and the nil votes exceed two thirds. *)
Definition vsNoQuorum (ls : VoteSet V) : bool :=
  vsIsValid ls && moreThanTwoThirds (countFor nilHash 2 ls) (vsEligible ls).

(** Modelled from the spec: [Height()] of package [btypes] is missing.  A
    lockset is for one (height, round), that of its votes; 0 when it has
    none. *)
Definition vsHeight (ls : VoteSet V) : N :=
  match vsVotes ls with v :: _ => vwHeight vw v | [] => 0 end.

(** Modelled from the spec: [Round()] of package [btypes] is missing; see
    [vsHeight]. *)
Definition vsRound (ls : VoteSet V) : N :=
  match vsVotes ls with v :: _ => vwRound vw v | [] => 0 end.

(** Modelled from the spec: [Contain(vote)] of package [btypes] is
    missing. *)
Definition vsContain (ls : VoteSet V) (v : V) : bool :=
  bool_decide (v ∈ vsVotes ls).

Definition sameVoter (v w : V) : bool :=
  bool_decide (vwSigner vw v = vwSigner vw w).

(** Modelled from the spec: [Add(vote, forceReplace)] of package [btypes]
    is missing.  A vote without a recoverable signer is an error; the same
    vote again is a no-op; another vote of the same voter is an error
    unless [force_replace], which replaces the old one. *)
Definition vsAdd (ls : VoteSet V) (v : V) (force_replace : bool) : VoteSet V * bool :=
  match vwSigner vw v with
  | None => (ls, true)
  | Some _ =>
      if bool_decide (v ∈ vsVotes ls) then (ls, false)
      else if existsb (sameVoter v) (vsVotes ls) then
        if force_replace
        then (mkVoteSet (vsEligible ls)
                (filter (λ w, sameVoter v w = false) (vsVotes ls) ++ [v]), false)
        else (ls, true)
      else (mkVoteSet (vsEligible ls) (vsVotes ls ++ [v]), false)
  end.

Definition VoteSetOps : LocksetOps V (VoteSet V) := {|
  NewLockSet := mkVoteSet;
  EligibleVotesNum := vsEligible;
  Votes := vsVotes;
  IsValid := vsIsValid;
  HasQuorum := vsHasQuorum;
  NoQuorum := vsNoQuorum;
  LsHeight := vsHeight;
  LsRound := vsRound;
  Contain := vsContain;
  Add := vsAdd;
|}.
End VoteSets.

Definition voteView : VoteView Vote :=
  mkVoteView Vote vHeight vRound vBlockhash vVoteType vSigner.

Definition precommitVoteView : VoteView PrecommitVote :=
  mkVoteView PrecommitVote pvHeight pvRound pvBlockhash pvVoteType pvSigner.

#[global] Instance LockSetOps : LocksetOps Vote (VoteSet Vote) := VoteSetOps voteView.
#[global] Instance PrecommitLockSetOps : LocksetOps PrecommitVote (VoteSet PrecommitVote) :=
  VoteSetOps precommitVoteView.

(** ** Example states

    Four validators (three in [cc3]); this node is validator 10.  [hashX]
    and [hashY] are two block hashes. *)

Module Ex.
Definition RM : Type := @RoundManager (VoteSet Vote) (VoteSet PrecommitVote).
Definition HM : Type := @HeightManager (VoteSet Vote) (VoteSet PrecommitVote).

Definition cc4 : ConsensusContract := mkContract 10 [10; 11; 12; 13].
Definition cc3 : ConsensusContract := mkContract 10 [10; 11; 12].

Definition hashX : Hash := 77.
Definition hashY : Hash := 88.

(** Prevotes and precommits of validators 10, 11, 12 for [bh] at
    [(h, r)]: a quorum of three out of four. *)
Definition prevotesFor (h r : N) (bh : Hash) : VoteSet Vote :=
  mkVoteSet 4 (map (λ a, mkVote h r bh 1 (Some a)) [10; 11; 12]).

Definition precommitsFor (h r : N) (bh : Hash) : VoteSet PrecommitVote :=
  mkVoteSet 4 (map (λ a, mkPrecommitVote h r bh 1 (Some a)) [10; 11; 12]).

(** Three nil prevotes at [(h, r)]: valid, without a quorum. *)
Definition nilPrevotes (h r : N) : VoteSet Vote :=
  mkVoteSet 4 (map (λ a, mkVote h r nilHash 2 (Some a)) [10; 11; 12]).

Definition emptyRound (h r : N) : RM := NewRoundManager cc4 h r.

(** A round whose precommit lockset has a quorum on [bh]. *)
Definition committedRound (h r : N) (bh : Hash) : RM :=
  set_precommitLockset (precommitsFor h r bh) (emptyRound h r).

(** Height 1 with a precommit quorum on [hashX] in round 0 and on
    [hashY] in round 1. *)
Definition hmTwoQuorums : HM :=
  mkHeightManager 1 {[ 0 := committedRound 1 0 hashX; 1 := committedRound 1 1 hashY ]} 2.

(** Height 1 with a precommit quorum on [hashX] in rounds 0 and 3 only. *)
Definition hmOneQuorum : HM :=
  mkHeightManager 1 {[ 0 := committedRound 1 0 hashX; 3 := committedRound 1 3 hashX ]} 3.

(** Height 1 where only round 5 is populated, with a precommit quorum. *)
Definition hmOnlyRound5 : HM :=
  mkHeightManager 1 {[ 5 := committedRound 1 5 hashX ]} 5.

Definition hmNoQuorum : HM :=
  mkHeightManager 1 {[ 0 := emptyRound 1 0; 2 := emptyRound 1 2 ]} 0.

(** This node's own votes. *)
Definition ownVote (h r : N) (bh : Hash) (t : N) : Vote := mkVote h r bh t (Some 10).
Definition ownPrecommit (h r : N) (bh : Hash) (t : N) : PrecommitVote :=
  mkPrecommitVote h r bh t (Some 10).

(** Round 0: prevoted and precommitted [hashX], both locks set.
    Round 1: prevoted [hashX] again (locked), not yet precommitted. *)
Definition lockedRound0 : RM :=
  set_precommitVoteLock (Some (ownPrecommit 1 0 hashX 1))
    (set_voteLock (Some (ownVote 1 0 hashX 1)) (emptyRound 1 0)).

Definition votedRound1 : RM :=
  set_voteLock (Some (ownVote 1 1 hashX 1)) (emptyRound 1 1).

Definition hmLockedThenVoted : HM :=
  mkHeightManager 1 {[ 0 := lockedRound0; 1 := votedRound1 ]} 1.




(** Round 0 timed out on a nil prevote without a precommit lock; round 1
    received a VotingInstruction whose lockset has a quorum on [hashX]
    in round 0. *)
Definition nilVotedRound0 : RM :=
  set_voteLock (Some (ownVote 1 0 nilHash 2)) (emptyRound 1 0).

Definition instruction : @VotingInstruction (VoteSet Vote) :=
  mkVotingInstruction 1 1 (prevotesFor 1 0 hashX) (Some 11).

Definition instructedRound1 : RM :=
  set_proposal (Some (IsVotingInstruction instruction)) (emptyRound 1 1).

Definition hmInstructed : HM :=
  mkHeightManager 1 {[ 0 := nilVotedRound0; 1 := instructedRound1 ]} 1.

(** ConsensusManager states; the synchronizer and the peers carry no
    data. *)
Definition CM : Type :=
  @ConsensusManager (VoteSet Vote) (VoteSet PrecommitVote) unit.
Definition BP : Type := @BlockProposal (VoteSet Vote) (VoteSet PrecommitVote).
Definition noBareLockSet (bp : BP) : VoteSet Vote := mkVoteSet 0 [].
Definition noSync (p : @Proposal (VoteSet Vote) (VoteSet PrecommitVote))
  (pe : unit) (s : unit) : unit := s.

Definition genesis : Block := mkBlock 0 1000 0.
Definition block3 : Block := mkBlock 3 1003 1002.

Definition proposalOn (b : Block) (r : N) : BP :=
  mkBlockProposal (NumberU64 b) r b
    (precommitsFor (NumberU64 b - 1) 0 (ParentHash b)) None (Some 10).

(** The head is block 3; HeightManagers 2, 3 and 4 exist, and block
    candidates for heights 3 and 4. *)
Definition cmAtHead3 : CM :=
  mkConsensusManager cc4 10 block3 ∅
    {[ 2 := NewHeightManager 2; 3 := NewHeightManager 3; 4 := NewHeightManager 4 ]}
    {[ 1003 := proposalOn block3 0; 1004 := proposalOn (mkBlock 4 1004 1003) 0 ]}
    (mkDatabase None ∅) tt (Some (mkFoundChan 1 [])) true.

(** The head is block 3; the candidate 2004 for height 4 builds on
    1999, not on the head. *)
Definition cmWrongParent : CM :=
  mkConsensusManager cc4 10 block3 ∅ ∅
    {[ 2004 := proposalOn (mkBlock 4 2004 1999) 0 ]}
    (mkDatabase None ∅) tt (Some (mkFoundChan 1 [])) true.

(** Height 1, round 0: three prevotes for [hashX] are in, this node has
    not precommitted yet. *)
Definition prevotedRound0 : RM :=
  set_lockset (prevotesFor 1 0 hashX)
    (set_voteLock (Some (ownVote 1 0 hashX 1)) (emptyRound 1 0)).

Definition cmPrevoted : CM :=
  mkConsensusManager cc4 10 genesis ∅
    {[ 1 := mkHeightManager 1 {[ 0 := prevotedRound0 ]} 0 ]}
    ∅ (mkDatabase None ∅) tt None true.

(** At height 1 the proposer of round 1 is validator 10.  Its
    VotingInstruction carries the nil prevotes of round 0, which hold no
    quorum. *)
Definition badInstruction : @VotingInstruction (VoteSet Vote) :=
  mkVotingInstruction 1 1 (nilPrevotes 1 0) (Some 10).

Definition cmAtGenesis : CM :=
  mkConsensusManager cc4 10 genesis ∅ ∅ ∅ (mkDatabase None ∅) tt None true.

(** The same with three validators, and a VotingInstruction for round 2
    of height 1. *)
Definition cmThreeValidators : CM :=
  mkConsensusManager cc3 10 genesis ∅ ∅ ∅ (mkDatabase None ∅) tt None true.

Definition lateInstruction : @VotingInstruction (VoteSet Vote) :=
  mkVotingInstruction 1 2 (nilPrevotes 1 1) (Some 10).

(** Round 1 received a VotingInstruction whose lockset holds no quorum. *)
Definition hmBadlyInstructed : HM :=
  mkHeightManager 1
    {[ 0 := nilVotedRound0;
       1 := set_proposal (Some (IsVotingInstruction badInstruction)) (emptyRound 1 1) ]} 1.

(** Three proposals for one round: a block, the same block again, and
    another block. *)
Definition blockA : Block := mkBlock 1 hashX 1000.
Definition blockB : Block := mkBlock 1 hashY 1000.
Definition proposalA : @Proposal (VoteSet Vote) (VoteSet PrecommitVote) :=
  IsBlockProposal (proposalOn blockA 0).
Definition proposalB : @Proposal (VoteSet Vote) (VoteSet PrecommitVote) :=
  IsBlockProposal (proposalOn blockB 0).
End Ex.

(** ** More example states *)

Module ExMore.
Import Ex.

(** At height 1 validator 11 is the proposer of round 0.  Its
    BlockProposal for [blockA] carries a signing lockset of height 0;
    [strayProposal] is the same with a signing lockset of height 5. *)
Definition electedProposal : BP :=
  mkBlockProposal 1 0 blockA (precommitsFor 0 0 1000) None (Some 11).

Definition strayProposal : BP :=
  mkBlockProposal 1 0 blockA (precommitsFor 5 0 1000) None (Some 11).

(** Height 1: round 0 has received [proposalA] and nothing else. *)
Definition hmProposed : HM :=
  mkHeightManager 1 {[ 0 := set_proposal (Some proposalA) (emptyRound 1 0) ]} 0.

(** Height 1: the node is locked on [hashX] in round 0; round 1 has
    received [proposalB], a proposal for [hashY]. *)
Definition proposedRound1 : RM := set_proposal (Some proposalB) (emptyRound 1 1).

Definition hmLockedThenProposed : HM :=
  mkHeightManager 1 {[ 0 := lockedRound0; 1 := proposedRound1 ]} 1.

(** Height 1: a prevote quorum on [hashX] in round 0 and one on [hashY]
    in round 1. *)
Definition prevoteQuorumRound (r : N) (bh : Hash) : RM :=
  set_lockset (prevotesFor 1 r bh) (emptyRound 1 r).

Definition hmTwoPrevoteQuorums : HM :=
  mkHeightManager 1 {[ 0 := prevoteQuorumRound 0 hashX; 1 := prevoteQuorumRound 1 hashY ]} 1.

(** The head is the genesis block.  Round 0 of height 1 holds the
    precommits of validators 10 and 11 for [hashX]; [blockA], of hash
    [hashX] and built on the head, is a block candidate; [found] has
    room for one block.  Validator 10 is marked ready. *)
Definition twoPrecommits : VoteSet PrecommitVote :=
  mkVoteSet 4 (map (λ a, mkPrecommitVote 1 0 hashX 1 (Some a)) [10; 11]).

Definition awaitingRound0 : RM := set_precommitLockset twoPrecommits (emptyRound 1 0).

Definition cmAwaitingThird : CM :=
  mkConsensusManager cc4 10 genesis {[ 10 ]}
    {[ 1 := mkHeightManager 1 {[ 0 := awaitingRound0 ]} 0 ]}
    {[ hashX := proposalOn blockA 0 ]}
    (mkDatabase None ∅) tt (Some (mkFoundChan 1 [])) true.

(** The precommit of validator 12 for [hashX], the third of four. *)
Definition thirdPrecommit : PrecommitVote := mkPrecommitVote 1 0 hashX 1 (Some 12).

(** Height 1, round 0: three nil prevotes are in and the prevote timeout,
    set to time 50, has passed; this node has not precommitted. *)
Definition timedOutRound0 : RM :=
  mkRoundManager 0 1 (nilPrevotes 1 0) (mkPLockSet cc4 1) None
    (Some (ownVote 1 0 nilHash 2)) None 50 0.

Definition cmTimedOut : CM :=
  mkConsensusManager cc4 10 genesis ∅
    {[ 1 := mkHeightManager 1 {[ 0 := timedOutRound0 ]} 0 ]}
    ∅ (mkDatabase None ∅) tt None true.

(** A prevote signed by address 99, which is no validator. *)
Definition strangerVote : Vote := mkVote 1 0 hashX 1 (Some 99).

(** [lateInstruction] again, signed by address 99. *)
Definition strangerInstruction : @VotingInstruction (VoteSet Vote) :=
  mkVotingInstruction 1 2 (nilPrevotes 1 1) (Some 99).

(** The head is block 3.  Height 3, the head's own, holds the precommit
    quorum that committed it; height 2 holds the one before; height 4 is
    under way. *)
Definition cmCommittedAtHead3 : CM :=
  mkConsensusManager cc4 10 block3 ∅
    {[ 2 := mkHeightManager 2 {[ 0 := committedRound 2 0 1002 ]} 0;
       3 := mkHeightManager 3 {[ 0 := committedRound 3 0 1003 ]} 0;
       4 := NewHeightManager 4 ]}
    ∅ (mkDatabase None ∅) tt None true.
End ExMore.

(** * Properties *)

(** ** Machine integers *)

Lemma sub64_eq_1 (a b : N) : u64 a → u64 b → a ≠ 0 → (sub64 a b = 1 ↔ b = a - 1).
Proof.
  unfold u64, sub64, two64. intros Ha Hb Hne.
  destruct (decide (b ≤ a)) as [Hle|Hgt].
  - rewrite Z.mod_small by lia. lia.
  - assert ((Z.of_N a - Z.of_N b) mod 2 ^ 64 = Z.of_N a - Z.of_N b + 2 ^ 64)%Z as ->.
    { symmetry. apply Z.mod_unique_pos with (q := (-1)%Z); lia. }
    lia.
Qed.

Lemma sub64_1 (a : N) : u64 a → a ≠ 0 → sub64 a 1 = a - 1.
Proof.
  unfold u64, sub64, two64. intros Ha Hne.
  rewrite Z.mod_small by lia. lia.
Qed.

(** Where the difference is small and not negative, [chosen] is the
    round-robin index. *)
Lemma chosen_small_difference (ovf : Z) (h r : N) (n : Z) :
  u64 h → r ≤ h → h - r < 2 ^ 53 → (0 < n)%Z →
  chosen ovf h r n = Ok (Z.of_N (h - r) mod n)%Z.
Proof.
  unfold u64. intros Hh Hle Hsmall Hn. unfold chosen, sub64, two64.
  rewrite Z.mod_small by lia.
  replace (Z.to_N (Z.of_N h - Z.of_N r)) with (h - r) by lia.
  unfold float64_of_uint64.
  destruct (Z.ltb_spec (Z.of_N (h - r)) (2 ^ 53)) as [_|Hge]; [|lia].
  rewrite Z.abs_eq by lia. unfold int_of_float64.
  destruct (Z.ltb_spec (Z.of_N (h - r)) (2 ^ 63)) as [_|Hge]; [|lia].
  destruct (Z.eqb_spec n 0) as [->|_]; [lia|].
  by rewrite Z.rem_mod_nonneg by lia.
Qed.

(** C2. [proposer(h, r)] is not the validator at index [|h - r| mod n] for
    every [h] and [r].  [chosen] subtracts in [uint64] before it takes the
    absolute value, and goes through [float64]:
    - [h = 2^53 + 1], [r = 0], [n = 2]: the difference is rounded to
      [2^53], the index is 0 where [|h - r| mod n] is 1, whatever the
      platform;
    - [h = 1], [r = 2], [n = 4]: the difference wraps to [2^64 - 1], the
      index is 0 on amd64 and 3 on arm64 where [|h - r| mod n] is 1;
    - [h = 1], [r = 2], [n = 3] on amd64: the index is -2 and [proposer]
      faults. *)
Theorem chosen_not_absolute_difference :
  (∀ ovf, chosen ovf (2 ^ 53 + 1) 0 2 = Ok 0%Z)
  ∧ (Z.abs (2 ^ 53 + 1 - 0) mod 2 = 1)%Z
  ∧ chosen amd64_int_overflow 1 2 4 = Ok 0%Z
  ∧ chosen arm64_int_overflow 1 2 4 = Ok 3%Z
  ∧ (Z.abs (1 - 2) mod 4 = 1)%Z
  ∧ chosen amd64_int_overflow 1 2 3 = Ok (-2)%Z
  ∧ proposer amd64_int_overflow Ex.cc3 1 2 = Panic "index out of range".
Proof. repeat split. Qed.

(** ** Finite maps keyed by round or height *)

Section Sweep.
Context {K : Type} `{Countable K} {A : Type}.

(** A [for ... range m] loop that deletes the entries it dislikes leaves
    exactly the entries it likes. *)
Lemma map_fold_delete_lookup (drop : A → bool) (m0 m : gmap K A) (k : K) :
  map_fold (λ i x (acc : gmap K A), if drop x then delete i acc else acc) m0 m !! k
  = match m !! k with
    | Some x => if drop x then None else m0 !! k
    | None => m0 !! k
    end.
Proof.
  revert k.
  apply (map_fold_weak_ind
           (λ r m, ∀ k, r !! k = match m !! k with
                                 | Some x => if drop x then None else m0 !! k
                                 | None => m0 !! k
                                 end)).
  - intros k. by rewrite lookup_empty.
  - intros i x m' r Hi IH k.
    destruct (decide (i = k)) as [->|Hne].
    + rewrite lookup_insert_eq. specialize (IH k). rewrite Hi in IH.
      destruct (drop x); [by rewrite lookup_delete_eq | done].
    + rewrite lookup_insert_ne by done.
      destruct (drop x); [rewrite lookup_delete_ne by done|]; apply IH.
Qed.

Lemma map_fold_delete_self (drop : A → bool) (m : gmap K A) (k : K) (x : A) :
  map_fold (λ i x (acc : gmap K A), if drop x then delete i acc else acc) m m !! k = Some x
  ↔ m !! k = Some x ∧ drop x = false.
Proof.
  rewrite map_fold_delete_lookup.
  destruct (m !! k) as [y|] eqn:Hk.
  - destruct (drop y) eqn:Hd; split.
    + discriminate.
    + intros [Hy Hx]. congruence.
    + intros Hy. split; congruence.
    + tauto.
  - split; [discriminate | intros [Hx _]; discriminate].
Qed.
End Sweep.

Section Sizes.
Context {A : Type}.
Implicit Types m : gmap N A.

(** Keys below [n] leave room for at most [n] entries. *)
Lemma size_le_bound (n : nat) : ∀ m,
  (∀ k, is_Some (m !! k) → k < N.of_nat n) → (size m ≤ n)%nat.
Proof.
  induction n as [|n IH]; intros m Hm.
  - destruct (decide (size m = 0)%nat) as [->|Hne]; [done|].
    apply map_size_ne_0_lookup in Hne as [k Hk]. apply Hm in Hk. lia.
  - assert (size (delete (N.of_nat n) m) ≤ n)%nat as Hd.
    { apply IH. intros k Hk.
      destruct (decide (k = N.of_nat n)) as [->|Hne].
      - rewrite lookup_delete_eq in Hk. by destruct Hk.
      - rewrite lookup_delete_ne in Hk by done. apply Hm in Hk. lia. }
    rewrite map_size_delete in Hd. destruct (m !! N.of_nat n); simpl in Hd; lia.
Qed.

(** All keys below [n] and one more make more than [n] entries. *)
Lemma size_gt_prefix (n : nat) : ∀ m k,
  (∀ j, j < N.of_nat n → is_Some (m !! j)) →
  is_Some (m !! k) → N.of_nat n ≤ k → (n < size m)%nat.
Proof.
  induction n as [|n IH]; intros m k Hlow Hk Hle.
  - apply map_size_ne_0_lookup_2 in Hk. lia.
  - assert (n < size (delete (N.of_nat n) m))%nat as Hd.
    { apply (IH _ k).
      - intros j Hj. rewrite lookup_delete_ne by lia. apply Hlow. lia.
      - rewrite lookup_delete_ne by lia. done.
      - lia. }
    rewrite map_size_delete_Some in Hd by (apply Hlow; lia). lia.
Qed.

(** A map has a least strict upper bound of its keys. *)
Lemma keys_bound m :
  ∃ B : nat, (∀ k, is_Some (m !! k) → k < N.of_nat B)
             ∧ (B ≠ 0%nat → is_Some (m !! (N.of_nat B - 1))).
Proof.
  induction m as [|i x m Hi IH] using map_ind.
  - exists 0%nat. split; [|done]. intros k Hk. rewrite lookup_empty in Hk. by destruct Hk.
  - destruct IH as (B & Hlt & Htop).
    destruct (decide (i < N.of_nat B)) as [Hin|Hout].
    + exists B. split.
      * intros k Hk. destruct (decide (k = i)) as [->|Hne]; [done|].
        rewrite lookup_insert_ne in Hk by done. by apply Hlt.
      * intros HB. destruct (decide (N.of_nat B - 1 = i)) as [<-|Hne].
        -- rewrite lookup_insert_eq. done.
        -- rewrite lookup_insert_ne by done. by apply Htop.
    + exists (S (N.to_nat i)). split.
      * intros k Hk. destruct (decide (k = i)) as [->|Hne]; [lia|].
        rewrite lookup_insert_ne in Hk by done. apply Hlt in Hk. lia.
      * intros _. replace (N.of_nat (S (N.to_nat i)) - 1) with i by lia.
        by rewrite lookup_insert_eq.
Qed.
End Sizes.

(** ** RoundManager: the single-proposal rule *)

Section RoundProofs.
Context {L PL : Type} `{!LocksetOps Vote L} `{!LocksetOps PrecommitVote PL}.
Implicit Types (rm : @RoundManager L PL) (p q : @Proposal L PL).

Lemma rm_addProposal_stored rm p q :
  proposal rm = Some q →
  rm_addProposal p rm = (Blockhash q =? Blockhash p, rm).
Proof.
  intros Hq. unfold rm_addProposal. rewrite Hq.
  by destruct (Blockhash q =? Blockhash p).
Qed.

Lemma rm_addProposal_first rm p :
  proposal rm = None →
  rm_addProposal p rm = (true, set_proposal (Some p) rm).
Proof. intros Hq. unfold rm_addProposal. by rewrite Hq. Qed.

Lemma addProposals_stored ps : ∀ rm q,
  proposal rm = Some q →
  addProposals ps rm = (map (λ p, Blockhash q =? Blockhash p) ps, rm).
Proof.
  induction ps as [|p ps IH]; intros rm q Hq; simpl; [done|].
  rewrite (rm_addProposal_stored _ _ _ Hq). simpl.
  by rewrite (IH _ _ Hq).
Qed.

(** C6. On a RoundManager without a proposal, the first [addProposal]
    stores its proposal [p0] and returns true; every later call returns
    true exactly when its proposal has the blockhash of [p0], and after
    any run of later calls the RoundManager is what the first call left:
    the stored proposal is still [p0]. *)
Theorem addProposal_set_once rm p0 ps :
  proposal rm = None →
  addProposals (p0 :: ps) rm
  = (true :: map (λ p, Blockhash p0 =? Blockhash p) ps, set_proposal (Some p0) rm).
Proof.
  intros Hq. simpl. rewrite (rm_addProposal_first _ _ Hq). simpl.
  by rewrite (addProposals_stored ps (set_proposal (Some p0) rm) p0).
Qed.
End RoundProofs.

(** ** HeightManager: the scans over the rounds *)

Section Scan.
Context {L PL : Type} `{!LocksetOps Vote L} `{!LocksetOps PrecommitVote PL}.
Variable cc : ConsensusContract.
Implicit Types (hm : @HeightManager L PL) (rm : @RoundManager L PL).
Implicit Types (ls f : PL) (found : option PL) (l : list PL).

Lemma getRoundManager_touch r hm :
  getRoundManager cc r hm = (roundAt cc hm r, touch cc r hm).
Proof.
  unfold getRoundManager, touch, roundAt.
  destruct (rounds hm !! r) as [rm|] eqn:Hr; simpl; [|done].
  f_equal. destruct hm as [h rs a]. unfold set_rounds. simpl in *.
  by rewrite insert_id.
Qed.

Lemma hmHeight_touch j hm : hmHeight (touch cc j hm) = hmHeight hm.
Proof. done. Qed.

Lemma rounds_touch j hm k :
  rounds (touch cc j hm) !! k
  = if decide (j = k) then Some (roundAt cc hm j) else rounds hm !! k.
Proof. unfold touch. simpl. apply lookup_insert. Qed.

Lemma roundAt_touch j hm k : roundAt cc (touch cc j hm) k = roundAt cc hm k.
Proof.
  unfold roundAt at 1. rewrite rounds_touch, hmHeight_touch.
  case_decide as Hjk; [by subst|done].
Qed.

Lemma touch_touch j hm : touch cc j (touch cc j hm) = touch cc j hm.
Proof.
  unfold touch at 1. rewrite roundAt_touch. unfold touch, set_rounds. simpl.
  by rewrite insert_insert_eq.
Qed.

Lemma roundAt_Some hm j rm : rounds hm !! j = Some rm → roundAt cc hm j = rm.
Proof. intros Hj. unfold roundAt. by rewrite Hj. Qed.

Lemma roundAt_None hm j :
  rounds hm !! j = None → roundAt cc hm j = NewRoundManager cc (hmHeight hm) j.
Proof. intros Hj. unfold roundAt. by rewrite Hj. Qed.




(** *** The downward scans *)

Section Down.
Context {A : Type} (test : @RoundManager L PL → bool)
        (get : @RoundManager L PL → option A).

Lemma scanDown_S i hm :
  scanDown cc test get (S i) hm
  = if test (roundAt cc hm (N.of_nat i))
    then (get (roundAt cc hm (N.of_nat i)), touch cc (N.of_nat i) hm)
    else scanDown cc test get i (touch cc (N.of_nat i) hm).
Proof.
  simpl. rewrite getRoundManager_touch.
  destruct (test _); [|done].
  by rewrite getRoundManager_touch, roundAt_touch, touch_touch.
Qed.

Lemma scanned_step hm hm' lo i :
  (lo ≤ i)%nat →
  scanned cc (touch cc (N.of_nat i) hm) hm' lo i →
  scanned cc hm hm' lo (S i).
Proof.
  intros Hlo (Hh & Ha & Hk). split; [done|]. split; [done|].
  intros k. rewrite Hk, roundAt_touch, rounds_touch.
  destruct (decide (N.of_nat i = k)) as [<-|Hne].
  - rewrite decide_False by lia. rewrite decide_True by lia. done.
  - destruct (decide (N.of_nat lo ≤ k < N.of_nat i)).
    + rewrite decide_True by lia. done.
    + rewrite decide_False by lia. done.
Qed.

(** A scan from [n] either stops at the highest round below [n] that
    passes [test], or finds none and has walked down to round 0. *)
Lemma scanDown_cases n : ∀ hm,
  (∃ i : nat, (i < n)%nat
     ∧ test (roundAt cc hm (N.of_nat i)) = true
     ∧ (∀ j : nat, (i < j < n)%nat → test (roundAt cc hm (N.of_nat j)) = false)
     ∧ (scanDown cc test get n hm).1 = get (roundAt cc hm (N.of_nat i))
     ∧ scanned cc hm (scanDown cc test get n hm).2 i n)
  ∨ ((∀ j : nat, (j < n)%nat → test (roundAt cc hm (N.of_nat j)) = false)
     ∧ (scanDown cc test get n hm).1 = None
     ∧ scanned cc hm (scanDown cc test get n hm).2 0 n).
Proof.
  induction n as [|i IH]; intros hm.
  - right. split; [lia|]. split; [done|]. split; [done|]. split; [done|].
    intros k. case_decide; [lia|done].
  - rewrite scanDown_S. destruct (test (roundAt cc hm (N.of_nat i))) eqn:Ht.
    + left. exists i. split; [lia|]. split; [done|].
      split; [intros j Hj; lia|]. split; [done|].
      split; [done|]. split; [done|]. intros k. simpl.
      rewrite lookup_insert.
      destruct (decide (N.of_nat i = k)) as [<-|Hne].
      * rewrite decide_True by lia. done.
      * rewrite decide_False by lia. done.
    + destruct (IH (touch cc (N.of_nat i) hm))
        as [(i0 & Hlt & Hi0 & Habove & Hres & Hsc)|(Hall & Hres & Hsc)].
      * left. exists i0. rewrite roundAt_touch in Hi0, Hres.
        split; [lia|]. split; [done|]. split.
        { intros j Hj. destruct (decide (j = i)) as [->|]; [done|].
          rewrite <- (roundAt_touch (N.of_nat i)). apply Habove. lia. }
        split; [done|]. apply scanned_step; [lia|done].
      * right. split.
        { intros j Hj. destruct (decide (j = i)) as [->|]; [done|].
          rewrite <- (roundAt_touch (N.of_nat i)). apply Hall. lia. }
        split; [done|]. apply scanned_step; [lia|done].
Qed.


(** What a scan over all [len(rounds)] indices returns, where a newly
    created round does not pass [test]: nil when no stored round below
    [len(rounds)] passes, else [get] of the highest one that does. *)
Lemma scanDown_result hm :
  (∀ j, test (NewRoundManager cc (hmHeight hm) j) = false) →
  let len := N.of_nat (size (rounds hm)) in
  let run := scanDown cc test get (size (rounds hm)) hm in
  ((∀ j rm, j < len → rounds hm !! j = Some rm → test rm = false) →
   run.1 = None ∧ ∀ j, j < len → is_Some (rounds run.2 !! j))
  ∧ (∀ i rm, i < len → rounds hm !! i = Some rm → test rm = true →
       (∀ j rm', i < j < len → rounds hm !! j = Some rm' → test rm' = false) →
       run.1 = get rm).
Proof.
  intros Hfresh. simpl. set (n := size (rounds hm)).
  assert (∀ j, (∀ rm, rounds hm !! j = Some rm → test rm = false) →
               test (roundAt cc hm j) = false) as Hat.
  { intros j Hj. destruct (rounds hm !! j) as [rm|] eqn:Hl.
    - rewrite (roundAt_Some _ _ _ Hl). by apply Hj.
    - rewrite (roundAt_None _ _ Hl). apply Hfresh. }
  split.
  - intros Hnone.
    destruct (scanDown_cases n hm) as [(i & Hi & Ht & _)|(_ & Hres & _ & _ & Hl)].
    + rewrite Hat in Ht; [done|]. intros rm. apply Hnone. lia.
    + split; [done|]. intros j Hj. rewrite Hl, decide_True by lia. done.
  - intros i rm Hi Hrm Ht Habove.
    rewrite <- (roundAt_Some _ _ _ Hrm).
    destruct (scanDown_cases n hm) as [(i0 & Hi0 & Ht0 & Hab0 & Hres & _)|(Hall & _)].
    + destruct (decide (N.of_nat i0 = i)) as [<-|Hne]; [done|]. exfalso.
      destruct (decide (N.of_nat i0 < i)) as [Hlt|Hge].
      * specialize (Hab0 (N.to_nat i)). rewrite N2Nat.id in Hab0.
        rewrite (roundAt_Some _ _ _ Hrm), Ht in Hab0.
        assert (true = false) by (apply Hab0; lia). done.
      * rewrite Hat in Ht0; [done|]. intros rm0. apply Habove. lia.
    + specialize (Hall (N.to_nat i)). rewrite N2Nat.id in Hall.
      rewrite (roundAt_Some _ _ _ Hrm), Ht in Hall.
      assert (true = false) by (apply Hall; lia). done.
Qed.

End Down.

(** LastPrecommitVoteLock answers with the [precommitVoteLock], set or
    not, of the highest round below [len(rounds)] that holds a
    [voteLock]. *)
Lemma LastPrecommitVoteLock_follows_voteLock hm i rm :
  i < N.of_nat (size (rounds hm)) →
  rounds hm !! i = Some rm → is_Some (voteLock rm) →
  (∀ j rm', i < j < N.of_nat (size (rounds hm)) →
            rounds hm !! j = Some rm' → voteLock rm' = None) →
  (LastPrecommitVoteLock cc hm).1 = precommitVoteLock rm.
Proof.
  intros Hi Hrm [v Hv] Habove.
  destruct (scanDown_result hasVoteLock precommitVoteLock hm) as [_ Hhigh]; [done|].
  apply (Hhigh i rm Hi Hrm).
  - unfold hasVoteLock. by rewrite Hv.
  - intros j rm' Hj Hrm'. unfold hasVoteLock. by rewrite (Habove j rm' Hj Hrm').
Qed.


(** *** The upward scan of [lastQuorumPrecommitLockSet] *)

Lemma plsFrom_touch j d : ∀ hm i, plsFrom cc (touch cc j hm) i d = plsFrom cc hm i d.
Proof.
  induction d as [|d IH]; intros hm i; simpl; [done|].
  by rewrite roundAt_touch, IH.
Qed.

Lemma elem_of_plsFrom d : ∀ hm i ls,
  ls ∈ plsFrom cc hm i d ↔
  ∃ j, i ≤ j < i + N.of_nat d ∧ ls = precommitLockset (roundAt cc hm j).
Proof.
  induction d as [|d IH]; intros hm i ls; simpl.
  - split; [by intros ?%elem_of_nil | intros (j & ? & _); lia].
  - rewrite elem_of_cons, IH. split.
    + intros [->|(j & Hj & ->)]; [exists i | exists j]; split; try done; lia.
    + intros (j & Hj & ->). destruct (decide (j = i)) as [->|Hne]; [by left|].
      right. exists j. split; [lia|done].
Qed.

Lemma loopReady_touch hm i d :
  loopReady hm i (S d) → loopReady (touch cc i hm) (i + 1) d.
Proof.
  intros (Hlow & Hup & Htop). split; [|split].
  - intros j Hj. rewrite rounds_touch. case_decide; [done|]. apply Hlow. lia.
  - intros k Hk. rewrite rounds_touch in Hk. case_decide; [lia|].
    apply Hup in Hk. lia.
  - intros Hd. rewrite rounds_touch. case_decide; [done|].
    replace (i + 1 + N.of_nat d - 1) with (i + N.of_nat (S d) - 1) by lia.
    by apply Htop.
Qed.

(** The loop, run from [i] with [d] rounds to go and more fuel than that,
    ends, and is [scanQuorum] over those rounds. *)
Lemma lastQuorumPrecommitLockSet_from_scan d : ∀ fuel i found hm,
  loopReady hm i d → (d < fuel)%nat →
  ∃ hm', lastQuorumPrecommitLockSet_from cc fuel i found hm
         = Some (match scanQuorum found (plsFrom cc hm i d) with
                 | Ok r => Ok (r, hm')
                 | Panic msg => Panic msg
                 end).
Proof.
  induction d as [|d IH]; intros fuel i found hm Hready Hfuel;
    (destruct fuel as [|fuel]; [lia|]); simpl.
  - destruct Hready as (_ & Hup & _).
    assert (size (rounds hm) ≤ N.to_nat i)%nat as Hsz.
    { apply size_le_bound. intros k Hk. apply Hup in Hk. lia. }
    destruct (N.leb_spec (N.of_nat (size (rounds hm))) i); [by exists hm | lia].
  - assert (N.to_nat i < size (rounds hm))%nat as Hsz.
    { destruct Hready as (Hlow & _ & Htop).
      apply (size_gt_prefix _ _ (i + N.of_nat (S d) - 1)).
      - intros j Hj. apply Hlow. lia.
      - by apply Htop.
      - lia. }
    destruct (N.leb_spec (N.of_nat (size (rounds hm))) i); [lia|].
    rewrite getRoundManager_touch.
    apply loopReady_touch in Hready.
    destruct (IH fuel (i + 1) found (touch cc i hm)) as [hm1 H1]; [done|lia|].
    destruct (IH fuel (i + 1) (Some (precommitLockset (roundAt cc hm i)))
                (touch cc i hm)) as [hm2 H2]; [done|lia|].
    rewrite plsFrom_touch in H1, H2.
    destruct (IsValid (precommitLockset (roundAt cc hm i))); [|by exists hm1].
    destruct (HasQuorum (precommitLockset (roundAt cc hm i))) as [res hash].
    destruct res; [|by exists hm1].
    destruct found as [f|]; [|by exists hm2].
    destruct (negb ((HasQuorum f).2 =? hash)); [by exists hm | by exists hm2].
Qed.

Lemma reportsQuorum_inj ls h1 h2 : reportsQuorum ls h1 → reportsQuorum ls h2 → h1 = h2.
Proof. intros [_ H1] [_ H2]. congruence. Qed.

(** Two locksets reporting quorums on different hashes, or one that
    differs from the lockset found so far, end the scan in a panic. *)
Lemma scanQuorum_panic l : ∀ found,
  (∃ f ls h, found = Some f ∧ ls ∈ l ∧ reportsQuorum ls h ∧ (HasQuorum f).2 ≠ h)
  ∨ (∃ ls1 ls2 h1 h2, ls1 ∈ l ∧ ls2 ∈ l
                      ∧ reportsQuorum ls1 h1 ∧ reportsQuorum ls2 h2 ∧ h1 ≠ h2) →
  ∃ msg, scanQuorum found l = Panic msg.
Proof.
  induction l as [|x l IH]; intros found Hbad.
  - destruct Hbad as [(f & ls & h & _ & Hin & _)|(ls1 & ls2 & h1 & h2 & Hin & _)];
      by apply elem_of_nil in Hin.
  - simpl. destruct (IsValid x) eqn:Hv; [destruct (HasQuorum x) as [res hx] eqn:Hq;
                                         destruct res|].
    + (* [x] reports a quorum on [hx] *)
      assert (reportsQuorum x hx) as Hx by done.
      assert (∀ ls h, ls ∈ x :: l → reportsQuorum ls h → h ≠ hx → ls ∈ l) as Hin.
      { intros ls h [->|Hl]%elem_of_cons Hr Hne; [|done].
        destruct Hne. by eapply reportsQuorum_inj. }
      assert ((∃ ls h, ls ∈ l ∧ reportsQuorum ls h ∧ h ≠ hx) →
              ∃ msg, scanQuorum (Some x) l = Panic msg) as Hnext.
      { intros (ls & h & Hl & Hr & Hne). apply IH. left.
        exists x, ls, h. rewrite Hq. simpl. eauto. }
      assert ((∃ f, found = Some f ∧ (HasQuorum f).2 ≠ hx) ∨
              (∀ f, found = Some f → (HasQuorum f).2 = hx)) as [(f & -> & Hf)|Hsame].
      { destruct found as [f|]; [|by right].
        destruct (decide ((HasQuorum f).2 = hx)) as [Heq|Hne].
        - right. by intros ? [= <-].
        - left. by exists f. }
      { apply N.eqb_neq in Hf. rewrite Hf. simpl. by eexists. }
      assert (∃ msg, scanQuorum (Some x) l = Panic msg) as Hgoal.
      { destruct Hbad as [(f & ls & h & -> & Hl & Hr & Hne)
                         |(ls1 & ls2 & h1 & h2 & Hl1 & Hl2 & Hr1 & Hr2 & Hne)].
        - rewrite (Hsame f eq_refl) in Hne.
          apply Hnext. exists ls, h. split; [|done]. eapply Hin; eauto.
        - destruct (decide (h1 = hx)) as [->|Hne1].
          + apply Hnext. exists ls2, h2. split; [|by eauto]. eapply Hin; eauto.
          + apply Hnext. exists ls1, h1. split; [|by eauto]. eapply Hin; eauto. }
      destruct found as [f|]; [|done].
      rewrite (Hsame f eq_refl), N.eqb_refl. done.
    + (* [x] is valid without a quorum *)
      apply IH.
      destruct Hbad as [(f & ls & h & -> & Hl & Hr & Hne)
                       |(ls1 & ls2 & h1 & h2 & Hl1 & Hl2 & Hr1 & Hr2 & Hne)].
      * left. exists f, ls, h. split; [done|]. split; [|done].
        apply elem_of_cons in Hl as [->|]; [|done]. destruct Hr as [_ Hr]. congruence.
      * right. exists ls1, ls2, h1, h2.
        apply elem_of_cons in Hl1 as [->|]; [destruct Hr1 as [_ Hr1]; congruence|].
        apply elem_of_cons in Hl2 as [->|]; [destruct Hr2 as [_ Hr2]; congruence|].
        done.
    + (* [x] is not valid *)
      apply IH.
      destruct Hbad as [(f & ls & h & -> & Hl & Hr & Hne)
                       |(ls1 & ls2 & h1 & h2 & Hl1 & Hl2 & Hr1 & Hr2 & Hne)].
      * left. exists f, ls, h. split; [done|]. split; [|done].
        apply elem_of_cons in Hl as [->|]; [|done]. destruct Hr as [Hr _]. congruence.
      * right. exists ls1, ls2, h1, h2.
        apply elem_of_cons in Hl1 as [->|]; [destruct Hr1 as [Hr1 _]; congruence|].
        apply elem_of_cons in Hl2 as [->|]; [destruct Hr2 as [Hr2 _]; congruence|].
        done.
Qed.

(** When every quorum met is on [h], the scan returns a lockset with a
    quorum on [h]. *)
Lemma scanQuorum_agree h l : ∀ found,
  (∀ ls h', ls ∈ l → reportsQuorum ls h' → h' = h) →
  (∀ f, found = Some f → reportsQuorum f h) →
  (found = None → ∃ ls, ls ∈ l ∧ reportsQuorum ls h) →
  ∃ ls, scanQuorum found l = Ok (Some ls) ∧ reportsQuorum ls h
        ∧ (ls ∈ l ∨ found = Some ls).
Proof.
  induction l as [|x l IH]; intros found Hall Hf Hex.
  - destruct found as [f|].
    + exists f. split; [done|]. split; [by apply Hf | by right].
    + destruct (Hex eq_refl) as (ls & Hin & _). by apply elem_of_nil in Hin.
  - assert (∀ found', (∀ f, found' = Some f → reportsQuorum f h) →
              (found' = None → ∃ ls, ls ∈ l ∧ reportsQuorum ls h) →
              (∀ ls, found' = Some ls → ls ∈ x :: l ∨ found = Some ls) →
              ∃ ls, scanQuorum found' l = Ok (Some ls) ∧ reportsQuorum ls h
                    ∧ (ls ∈ x :: l ∨ found = Some ls)) as Hnext.
    { intros found' Hf' Hex' Hfrom.
      destruct (IH found') as (ls & Hs & Hr & Hin); [|done|done|].
      { intros ls h' Hl. apply Hall. by right. }
      exists ls. split; [done|]. split; [done|].
      destruct Hin as [Hin|Hin]; [left; by right | by apply Hfrom]. }
    assert (¬ (∃ h', reportsQuorum x h') →
            found = None → ∃ ls, ls ∈ l ∧ reportsQuorum ls h) as Hskip.
    { intros Hx Hn. destruct (Hex Hn) as (ls & [->|Hin]%elem_of_cons & Hr); [|by eauto].
      destruct Hx. by exists h. }
    simpl. destruct (IsValid x) eqn:Hv; [destruct (HasQuorum x) as [res hx] eqn:Hq;
                                         destruct res|].
    + assert (reportsQuorum x hx) as Hx by done.
      assert (hx = h) as -> by (eapply Hall; [by left | done]).
      assert (∃ ls, scanQuorum (Some x) l = Ok (Some ls) ∧ reportsQuorum ls h
                    ∧ (ls ∈ x :: l ∨ found = Some ls)) as Hgoal.
      { apply Hnext; [by intros f [= <-] | done | intros ls [= <-]; left; by left]. }
      destruct found as [f|]; [|done].
      destruct (Hf f eq_refl) as [_ Hfq]. rewrite Hfq. simpl. by rewrite N.eqb_refl.
    + apply Hnext; [done| |by right].
      apply Hskip. intros (h' & _ & Hr). congruence.
    + apply Hnext; [done| |by right].
      apply Hskip. intros (h' & Hr & _). congruence.
Qed.

Lemma scanQuorum_none l : ∀ found,
  (∀ ls h, ls ∈ l → ¬ reportsQuorum ls h) →
  scanQuorum found l = Ok found.
Proof.
  induction l as [|x l IH]; intros found Hno; simpl; [done|].
  assert (scanQuorum found l = Ok found) as Hrest.
  { apply IH. intros ls h Hin. apply Hno. by right. }
  destruct (IsValid x) eqn:Hv; [|done].
  destruct (HasQuorum x) as [res hx] eqn:Hq. destruct res; [|done].
  destruct (Hno x hx); [by left | done].
Qed.

(** C1. For every HeightManager, with enough fuel the loop of
    lastQuorumPrecommitLockSet ends, and
    - if two rounds hold valid precommit locksets that report a quorum on
      two distinct blockhashes, it panics;
    - if the rounds that report a quorum all report it on one hash [h],
      and there is such a round, it returns the precommit lockset of one
      of them, valid and with a quorum on [h];
    - if no round holds a valid precommit lockset with a quorum, it
      returns nil.
    The empty precommit lockset of a RoundManager created on the way is
    taken not to be a valid quorum. *)
Theorem lastQuorumPrecommitLockSet_halts_on_conflict hm :
  IsValid (mkPLockSet cc (hmHeight hm)) && (HasQuorum (mkPLockSet cc (hmHeight hm))).1 = false →
  ∃ fuel0 : nat, ∀ fuel : nat, (fuel0 ≤ fuel)%nat →
    ∃ res, lastQuorumPrecommitLockSet cc fuel hm = Some res
      ∧ ((∃ k1 k2 h1 h2, quorumAt hm k1 h1 ∧ quorumAt hm k2 h2 ∧ h1 ≠ h2) →
         ∃ msg, res = Panic msg)
      ∧ (∀ h, (∃ k, quorumAt hm k h) → (∀ k' h', quorumAt hm k' h' → h' = h) →
         ∃ ls hm' k rm, res = Ok (Some ls, hm')
                        ∧ rounds hm !! k = Some rm ∧ ls = precommitLockset rm
                        ∧ IsValid ls = true ∧ HasQuorum ls = (true, h))
      ∧ ((∀ k h, ¬ quorumAt hm k h) → ∃ hm', res = Ok (None, hm')).
Proof.
  intros Hfresh.
  destruct (keys_bound (rounds hm)) as (B & Hlt & Htop).
  exists (S B). intros fuel Hfuel.
  destruct (lastQuorumPrecommitLockSet_from_scan B fuel 0 None hm) as [hm' Hrun]; [|lia|].
  { split; [intros j Hj; lia|]. split.
    - intros k Hk. apply Hlt in Hk. lia.
    - intros HB. rewrite N.add_0_l. by apply Htop. }
  unfold lastQuorumPrecommitLockSet. rewrite Hrun. eexists. split; [done|].
  set (l := plsFrom cc hm 0 B).
  (* the locksets met by the loop that report a quorum are those of the
     rounds of [hm] that do *)
  assert (∀ k h, quorumAt hm k h →
            precommitLockset (roundAt cc hm k) ∈ l
            ∧ reportsQuorum (precommitLockset (roundAt cc hm k)) h) as Hto.
  { intros k h (rm & Hk & Hv & Hq). rewrite (roundAt_Some _ _ _ Hk).
    split; [|done]. apply elem_of_plsFrom. exists k.
    rewrite (roundAt_Some _ _ _ Hk). split; [|done].
    assert (k < N.of_nat B) by (apply Hlt; by rewrite Hk). lia. }
  assert (∀ ls h, ls ∈ l → reportsQuorum ls h →
            ∃ k rm, rounds hm !! k = Some rm ∧ ls = precommitLockset rm) as Hfrom.
  { intros ls h (k & _ & ->)%elem_of_plsFrom [Hv Hq].
    destruct (rounds hm !! k) as [rm|] eqn:Hk.
    - exists k, rm. by rewrite (roundAt_Some _ _ _ Hk).
    - rewrite (roundAt_None _ _ Hk) in Hv, Hq. simpl in Hv, Hq.
      rewrite Hv, Hq in Hfresh. done. }
  split; [|split].
  - intros (k1 & k2 & h1 & h2 & [Hi1 Hr1]%Hto & [Hi2 Hr2]%Hto & Hne).
    destruct (scanQuorum_panic l None) as [msg ->]; [|by eexists].
    right. eauto 10.
  - intros h [k0 [Hi0 Hr0]%Hto] Hall.
    destruct (scanQuorum_agree h l None) as (ls & -> & Hr & Hin); [|done|by eauto|].
    { intros ls h' Hin Hr'. destruct (Hfrom ls h' Hin Hr') as (k & rm & Hk & ->).
      apply (Hall k). exists rm. by destruct Hr'. }
    destruct Hin as [Hin|?]; [|done].
    destruct (Hfrom ls h Hin Hr) as (k & rm & Hk & ->).
    exists (precommitLockset rm), hm', k, rm. by destruct Hr.
  - intros Hno. rewrite (scanQuorum_none l None); [by eexists|].
    intros ls h Hin Hr. destruct (Hfrom ls h Hin Hr) as (k & rm & Hk & ->).
    apply (Hno k h). exists rm. by destruct Hr.
Qed.

(** *** The prevote *)

(** C3. In a RoundManager without a vote lock whose recorded proposal is a
    VotingInstruction with a quorum in its lockset, [vote()] does not
    return a prevote when no precommit vote lock exists at the height: it
    halts on the nil [lastPrecommitVoteLock] it reads the round from. *)
Theorem vote_VotingInstruction_nil_lock now key r hm rm vi :
  rounds hm !! r = Some rm →
  voteLock rm = None →
  proposal rm = Some (IsVotingInstruction vi) →
  (HasQuorum (viLockSet vi)).1 = true →
  (LastPrecommitVoteLock cc hm).1 = None →
  vote cc now key r hm = Panic "nil pointer dereference".
Proof.
  intros Hr Hv Hp Hq Hl. unfold vote. rewrite Hr, Hv.
  destruct (LastPrecommitVoteLock cc hm) as [l hm1]. simpl in Hl. subst l.
  rewrite Hp, Hq. done.
Qed.

(** The sibling case: without a quorum in the instruction's lockset the
    nil lock is not read, and the prevote is Nil. *)
Lemma vote_VotingInstruction_no_quorum now key r hm rm vi :
  rounds hm !! r = Some rm →
  voteLock rm = None →
  proposal rm = Some (IsVotingInstruction vi) →
  (HasQuorum (viLockSet vi)).1 = false →
  (LastPrecommitVoteLock cc hm).1 = None →
  ∃ hm', vote cc now key r hm
         = Ok (Some (SignVote key (NewVote (rmHeight rm) (rmRound rm) nilHash 2)), hm').
Proof.
  intros Hr Hv Hp Hq Hl. unfold vote. rewrite Hr, Hv.
  destruct (LastPrecommitVoteLock cc hm) as [l hm1]. simpl in Hl. subst l.
  rewrite Hp, Hq. simpl. by eexists.
Qed.
End Scan.

(** ** ConsensusManager *)

Section Consensus.
Context {L PL : Type} `{!LocksetOps Vote L} `{!LocksetOps PrecommitVote PL}.
Context {Synchronizer Peer : Type}.
Variable bareLockSet : @BlockProposal L PL → L.
Variable onProposal : @Proposal L PL → Peer → Synchronizer → Synchronizer.
Variable int_overflow : Z.
Implicit Types (cm : @ConsensusManager L PL Synchronizer) (p : @Proposal L PL).
Implicit Types (hm : @HeightManager L PL) (rm : @RoundManager L PL).

(** C7. When a block candidate for [hash] exists and its parent hash is
    not the hash of the current head, commitPrecommitLockset(hash, pls)
    returns the state it was given: nothing is sent on [found], the store
    is as before, and so is [Enable]. *)
Theorem commitPrecommitLockset_wrong_parent hash pls cm bp :
  blockCandidates cm !! hash = Some bp →
  ParentHash (bpBlock bp) ≠ BlockHash (Head cm) →
  commitPrecommitLockset hash pls cm = cm.
Proof.
  intros Hc Hp. unfold commitPrecommitLockset. rewrite Hc.
  destruct (N.eqb_spec (ParentHash (bpBlock bp)) (BlockHash (Head cm))); done.
Qed.

(** C8, as amended.  After cleanup() the head is the same; the block
    candidates left are those of a height above the head's number; the
    HeightManagers left are those of a height at or above the head's
    number, so the one at exactly the head's number is kept. *)
Theorem cleanup_drops_below_head cm :
  Head (cleanup cm) = Head cm
  ∧ (∀ hash bp, blockCandidates (cleanup cm) !! hash = Some bp ↔
       blockCandidates cm !! hash = Some bp ∧ NumberU64 (Head cm) < bpHeight bp)
  ∧ (∀ i hm, heights (cleanup cm) !! i = Some hm ↔
       heights cm !! i = Some hm ∧ NumberU64 (Head cm) ≤ hmHeight hm).
Proof.
  split; [done|]. split.
  - intros hash bp. unfold cleanup. simpl.
    rewrite map_fold_delete_self. rewrite N.leb_gt. done.
  - intros i hm. unfold cleanup. simpl.
    rewrite map_fold_delete_self. rewrite N.ltb_ge. done.
Qed.

(** *** The precommit *)

Lemma heights_commitPrecommitLockset hash pls cm :
  heights (commitPrecommitLockset hash pls cm) = heights cm.
Proof.
  unfold commitPrecommitLockset.
  repeat (case_match; simpl; try done).
Qed.

Lemma putRoundManager_lookup h r rm hm cm :
  ∃ hm', heights (putRoundManager h r rm hm cm) !! h = Some hm'
         ∧ rounds hm' !! r = Some rm.
Proof.
  eexists. unfold putRoundManager. simpl. rewrite lookup_insert_eq.
  split; [done|]. simpl. by rewrite lookup_insert_eq.
Qed.

(** Adding a precommit vote to a round returns, and touches the precommit
    lockset of the round and nothing else of it. *)
Lemma rm_addPrecommitVote_round h r v force cm hm rm :
  heights cm !! h = Some hm → rounds hm !! r = Some rm →
  ∃ ok cm' hm' pls,
    rm_addPrecommitVote h r v force cm = Ok (ok, cm')
    ∧ heights cm' !! h = Some hm'
    ∧ rounds hm' !! r = Some (set_precommitLockset pls rm).
Proof.
  intros Hh Hr. unfold rm_addPrecommitVote. rewrite Hh, Hr.
  destruct (negb (Contain (precommitLockset rm) v)).
  - destruct (Add (precommitLockset rm) v force) as [pls err].
    destruct (putRoundManager_lookup h r (set_precommitLockset pls rm) hm cm)
      as (hm' & Hh' & Hr').
    destruct err.
    + by exists false, (putRoundManager h r (set_precommitLockset pls rm) hm cm), hm', pls.
    + destruct (HasQuorum pls) as [res hash]. destruct res.
      * eexists true, _, hm', pls. split; [done|].
        by rewrite heights_commitPrecommitLockset.
      * by eexists true, _, hm', pls.
  - exists false, cm, hm, (precommitLockset rm). split; [done|]. split; [done|].
    by destruct rm.
Qed.

(** C4. For the RoundManager [rm] of round [r] at height [h], without a
    precommit vote lock and with a valid prevote lockset, votePrecommit
    returns, and in the RoundManager [rm'] it leaves behind
    - [precommitVoteLock] is set exactly when a precommit of type Block
      (1) is emitted,
    - which happens exactly when the prevote lockset has a quorum; the
      lock is then the emitted vote, on the hash of the quorum;
    - an emitted vote of another type is a Nil vote (2) on the nil hash,
      emitted after the prevote timeout, and leaves [precommitVoteLock]
      unset;
    - without a quorum and with the timeout reached, a Nil vote is
      emitted. *)
Theorem votePrecommit_locks_iff_block now h r cm hm rm :
  heights cm !! h = Some hm → rounds hm !! r = Some rm →
  precommitVoteLock rm = None → IsValid (lockset rm) = true →
  ∃ v cm' hm' rm',
    votePrecommit now h r cm = Ok (v, cm')
    ∧ heights cm' !! h = Some hm' ∧ rounds hm' !! r = Some rm'
    ∧ (is_Some (precommitVoteLock rm') ↔ ∃ pv, v = Some pv ∧ pvVoteType pv = 1)
    ∧ ((∃ pv, v = Some pv ∧ pvVoteType pv = 1) ↔ (HasQuorum (lockset rm)).1 = true)
    ∧ (∀ pv, v = Some pv → pvVoteType pv = 1 →
         precommitVoteLock rm' = Some pv
         ∧ pvBlockhash pv = (HasQuorum (lockset rm)).2)
    ∧ (∀ pv, v = Some pv → pvVoteType pv ≠ 1 →
         pvVoteType pv = 2 ∧ pvBlockhash pv = nilHash
         ∧ timeoutReached now rm = true
         ∧ precommitVoteLock rm' = None)
    ∧ ((HasQuorum (lockset rm)).1 = false → timeoutReached now rm = true →
         ∃ pv, v = Some pv ∧ pvVoteType pv = 2).
Proof.
  intros Hh Hr Hl Hv. unfold votePrecommit. rewrite Hh, Hr, Hl, Hv.
  destruct (HasQuorum (lockset rm)) as [quorum blockhash]. simpl.
  destruct quorum; [|destruct (timeoutReached now rm) eqn:Ht].
  - simpl.
    set (v1 := SignPrecommitVote (privkey cm) (NewPrecommitVote _ _ blockhash 1)).
    set (rm1 := set_precommitVoteLock (Some v1) rm).
    destruct (putRoundManager_lookup h r rm1 hm cm) as (hm1 & Hh1 & Hr1).
    destruct (rm_addPrecommitVote_round h r v1 false _ _ _ Hh1 Hr1)
      as (ok & cm' & hm' & pls & -> & Hh' & Hr').
    simpl. exists (Some v1), cm', hm', (set_precommitLockset pls rm1).
    split; [done|]. split; [done|]. split; [done|]. simpl.
    split; [|split; [|split; [|split]]].
    + split; [by exists v1 | by eexists].
    + split; [done | by exists v1].
    + by intros pv [= <-] _.
    + by intros pv [= <-] Hne.
    + discriminate.
  - simpl.
    set (v1 := SignPrecommitVote (privkey cm) (NewPrecommitVote _ _ nilHash 2)).
    destruct (putRoundManager_lookup h r rm hm cm) as (hm1 & Hh1 & Hr1).
    destruct (rm_addPrecommitVote_round h r v1 false _ _ _ Hh1 Hr1)
      as (ok & cm' & hm' & pls & -> & Hh' & Hr').
    simpl. exists (Some v1), cm', hm', (set_precommitLockset pls rm).
    split; [done|]. split; [done|]. split; [done|]. simpl. rewrite Hl.
    split; [|split; [|split; [|split]]].
    + split; [by intros [? ?] | by intros (pv & [= <-] & ?)].
    + split; [by intros (pv & [= <-] & ?) | done].
    + by intros pv [= <-] ?.
    + by intros pv [= <-] _.
    + intros _ _. by exists v1.
  - exists None, cm, hm, rm.
    split; [done|]. split; [done|]. split; [done|]. rewrite Hl.
    split; [|split; [|split; [|split]]].
    + split; [by intros [? ?] | by intros (pv & ? & ?)].
    + split; [by intros (pv & ? & ?) | done].
    + by intros pv ?.
    + by intros pv ?.
    + by intros _ ?.
Qed.

(** *** Receiving a proposal *)

Lemma AddProposal_accepts p peer cm cm' :
  u64 (GetRound p) → u64 (LsRound (LockSet bareLockSet p)) →
  AddProposal bareLockSet onProposal int_overflow p peer cm = Ok (true, cm') →
  wellShaped bareLockSet p.
Proof.
  intros Hr Hl. unfold AddProposal.
  destruct (GetHeight p <? Height cm); [discriminate|].
  destruct (From p) as [addr|]; [|discriminate].
  destruct (isValidators (contract cm) addr); simpl;
    [|by destruct (isProposer int_overflow (contract cm) p)].
  destruct (isProposer int_overflow (contract cm) p) as [b|]; simpl; [|discriminate].
  destruct b; simpl; [|discriminate].
  destruct (negb (IsValid (LockSet bareLockSet p)) && _); [discriminate|].
  destruct (negb (GetRound p =? 0) && negb (LsHeight _ =? _)); [discriminate|].
  destruct (negb (GetRound p =? 0) && negb (sub64 _ _ =? 1)) eqn:Hsub; [discriminate|].
  destruct p as [bp|vi]; simpl in *.
  - destruct (negb (NumberU64 _ =? _)); [discriminate|].
    destruct (negb (bpRound bp =? 0) && negb (NoQuorum _)) eqn:Hnq; [discriminate|].
    destruct (HasQuorum (SigningLockset bp)).1 eqn:Hs; simpl; [|discriminate].
    intros _. split; [done|]. intros Hne.
    apply N.eqb_neq in Hne. rewrite Hne in Hsub, Hnq. simpl in *.
    apply negb_false_iff in Hsub, Hnq. split; [done|].
    apply N.eqb_eq in Hsub. apply sub64_eq_1 in Hsub; try done.
    by apply N.eqb_neq.
  - destruct (negb ((LsRound _ =? sub64 _ 1) && _)) eqn:Hv; [discriminate|].
    destruct (viRound vi =? 0) eqn:Hz; [discriminate|].
    destruct (HasQuorum (viLockSet vi)).1 eqn:Hs; simpl; [|discriminate].
    intros _. apply N.eqb_neq in Hz. split; [done|]. split; [done|].
    apply negb_false_iff, andb_true_iff in Hv as [Hv _].
    apply N.eqb_eq in Hv. by rewrite sub64_1 in Hv.
Qed.

Lemma malformed_not_wellShaped p :
  malformed bareLockSet p → ¬ wellShaped bareLockSet p.
Proof.
  destruct p as [bp|vi]; simpl.
  - intros [Hne Hbad] [Hs Hw]. destruct (Hw Hne) as [Hn Hr].
    destruct Hbad as [?|[?|?]]; congruence.
  - intros Hbad (Hs & Hne & Hr). destruct Hbad as [?|[?|?]]; congruence.
Qed.

Lemma AddProposal_rejects p peer cm a :
  u64 (GetRound p) → u64 (LsRound (LockSet bareLockSet p)) →
  proposer int_overflow (contract cm) (GetHeight p) (GetRound p) = Ok a →
  malformed bareLockSet p →
  ∃ cm', AddProposal bareLockSet onProposal int_overflow p peer cm = Ok (false, cm').
Proof.
  intros Hr Hl Hel Hbad. unfold AddProposal.
  destruct (GetHeight p <? Height cm); [by eexists|].
  unfold isProposer. rewrite Hel.
  destruct (From p) as [addr|]; [|by eexists].
  destruct (isValidators (contract cm) addr); simpl; [|by eexists].
  destruct (addr =? a); simpl; [|by eexists].
  destruct (negb (IsValid (LockSet bareLockSet p)) && _); [by eexists|].
  destruct (negb (GetRound p =? 0) && negb (LsHeight _ =? _)); [by eexists|].
  destruct (negb (GetRound p =? 0) && negb (sub64 _ _ =? 1)) eqn:Hsub; [by eexists|].
  destruct p as [bp|vi]; simpl in *.
  - destruct Hbad as [Hne Hbad].
    destruct (negb (NumberU64 _ =? _)); [by eexists|].
    destruct (negb (bpRound bp =? 0) && negb (NoQuorum _)) eqn:Hnq; [by eexists|].
    destruct (HasQuorum (SigningLockset bp)).1 eqn:Hs; simpl; [|by eexists].
    exfalso.
    pose proof Hne as Hne'. apply N.eqb_neq in Hne'. rewrite Hne' in Hsub, Hnq. simpl in *.
    apply negb_false_iff in Hsub, Hnq.
    apply N.eqb_eq in Hsub. apply sub64_eq_1 in Hsub; try done.
    destruct Hbad as [?|[?|?]]; congruence.
  - destruct (negb ((LsRound _ =? sub64 _ 1) && _)) eqn:Hv; [by eexists|].
    destruct (viRound vi =? 0) eqn:Hz; [by eexists|].
    destruct (HasQuorum (viLockSet vi)).1 eqn:Hs; simpl; [|by eexists].
    exfalso. apply N.eqb_neq in Hz.
    apply negb_false_iff, andb_true_iff in Hv as [Hv _].
    apply N.eqb_eq in Hv. rewrite sub64_1 in Hv by done.
    destruct Hbad as [?|[?|?]]; congruence.
Qed.

(** What the shape checks achieve where the election returns.  With the
    rounds in the [uint64] range: AddProposal never accepts a
    malformed proposal (a BlockProposal of a round above 0 whose round
    lockset does not show NoQuorum, or is not of the round before, or
    whose signing lockset has no quorum; a VotingInstruction whose lockset
    has no quorum, or is not of the round before, or whose round is 0),
    and returns false for it wherever the election of the proposer for
    its height and round returns; and every proposal it accepts has the
    shape: a quorum in the signing lockset and, above round 0, a round
    lockset with NoQuorum of the round before for a BlockProposal; a
    lockset with a quorum of the round before, at a round above 0, for a
    VotingInstruction. *)
Theorem AddProposal_shape_checks p peer cm :
  u64 (GetRound p) → u64 (LsRound (LockSet bareLockSet p)) →
  (malformed bareLockSet p →
     (∀ cm', AddProposal bareLockSet onProposal int_overflow p peer cm ≠ Ok (true, cm'))
     ∧ (∀ a, proposer int_overflow (contract cm) (GetHeight p) (GetRound p) = Ok a →
             ∃ cm', AddProposal bareLockSet onProposal int_overflow p peer cm
                    = Ok (false, cm')))
  ∧ (∀ cm', AddProposal bareLockSet onProposal int_overflow p peer cm = Ok (true, cm') →
            wellShaped bareLockSet p).
Proof.
  intros Hr Hl. split.
  - intros Hbad. split.
    + intros cm' Hacc. eapply malformed_not_wellShaped; [done|].
      by eapply AddProposal_accepts.
    + intros a Hel. by eapply AddProposal_rejects.
  - intros cm'. by apply AddProposal_accepts.
Qed.

(** C5.  AddProposal does not return false for every malformed proposal.
    The election of the proposer runs before any check of the shape, for
    every proposal that is not of a past height and whose sender can be
    recovered, validator or not; where the election faults (a round above
    the height can make [chosen] yield an index out of range),
    AddProposal faults with it instead of returning, whatever the shape
    of the proposal. *)
Theorem AddProposal_faults_on_election p peer cm addr msg :
  Height cm ≤ GetHeight p → From p = Some addr →
  proposer int_overflow (contract cm) (GetHeight p) (GetRound p) = Panic msg →
  AddProposal bareLockSet onProposal int_overflow p peer cm = Panic msg.
Proof.
  intros Hge Hfrom Hel. unfold AddProposal.
  destruct (N.ltb_spec (GetHeight p) (Height cm)); [lia|].
  rewrite Hfrom. unfold isProposer. rewrite Hfrom, Hel. simpl.
  by destruct (isValidators (contract cm) addr).
Qed.
End Consensus.

(** ** The statements on the example states *)

Import Ex.

Lemma lastQuorumPrecommitLockSet_halts_on_conflict_witness :
  ∃ fuel0 : nat, ∀ fuel : nat, (fuel0 ≤ fuel)%nat →
    ∃ res, lastQuorumPrecommitLockSet cc4 fuel hmTwoQuorums = Some res
           ∧ ∃ msg, res = Panic msg.
Proof.
  destruct (lastQuorumPrecommitLockSet_halts_on_conflict cc4 hmTwoQuorums)
    as [fuel0 Hrun]; [reflexivity|].
  exists fuel0. intros fuel Hfuel.
  destruct (Hrun fuel Hfuel) as (res & Hres & Hpanic & _).
  exists res. split; [exact Hres|]. apply Hpanic.
  exists 0, 1, hashX, hashY.
  split; [by exists (committedRound 1 0 hashX)|].
  split; [by exists (committedRound 1 1 hashY)|].
  discriminate.
Defined.

Lemma vote_VotingInstruction_nil_lock_witness :
  vote cc4 100 10 1 hmInstructed = Panic "nil pointer dereference".
Proof.
  apply (vote_VotingInstruction_nil_lock cc4 100 10 1 hmInstructed instructedRound1 instruction);
    reflexivity.
Defined.

Lemma votePrecommit_locks_iff_block_witness :
  ∃ v cm', votePrecommit 100 1 0 cmPrevoted = Ok (v, cm')
           ∧ ∃ pv, v = Some pv ∧ pvVoteType pv = 1.
Proof.
  destruct (votePrecommit_locks_iff_block 100 1 0 cmPrevoted
              (mkHeightManager 1 {[ 0 := prevotedRound0 ]} 0) prevotedRound0)
    as (v & cm' & hm' & rm' & Hrun & _ & _ & _ & Hblock & _);
    [reflexivity | reflexivity | reflexivity | reflexivity |].
  exists v, cm'. split; [exact Hrun|]. apply Hblock. reflexivity.
Defined.

Lemma AddProposal_shape_checks_witness :
  ∃ cm', AddProposal noBareLockSet noSync amd64_int_overflow
           (IsVotingInstruction badInstruction) None cmAtGenesis = Ok (false, cm').
Proof.
  destruct (AddProposal_shape_checks noBareLockSet noSync amd64_int_overflow
              (IsVotingInstruction badInstruction) None cmAtGenesis)
    as [Hbad _]; [reflexivity | reflexivity |].
  destruct Hbad as [_ Hfalse]; [left; reflexivity|].
  apply (Hfalse 10). reflexivity.
Defined.

Lemma AddProposal_faults_on_election_witness :
  malformed noBareLockSet (IsVotingInstruction lateInstruction)
  ∧ AddProposal noBareLockSet noSync amd64_int_overflow
      (IsVotingInstruction lateInstruction) None cmThreeValidators
    = Panic "index out of range".
Proof.
  split; [left; reflexivity|].
  apply (AddProposal_faults_on_election noBareLockSet noSync amd64_int_overflow
           (IsVotingInstruction lateInstruction) None cmThreeValidators 10).
  - vm_compute. discriminate.
  - reflexivity.
  - vm_compute. reflexivity.
Defined.

Lemma addProposal_set_once_witness :
  addProposals [proposalA; proposalA; proposalB] (emptyRound 1 0)
  = ([true; true; false], set_proposal (Some proposalA) (emptyRound 1 0)).
Proof.
  apply (addProposal_set_once (emptyRound 1 0) proposalA [proposalA; proposalB]).
  reflexivity.
Defined.

Lemma commitPrecommitLockset_wrong_parent_witness :
  commitPrecommitLockset 2004 (Some (precommitsFor 4 0 2004)) cmWrongParent = cmWrongParent.
Proof.
  apply (commitPrecommitLockset_wrong_parent 2004 _ cmWrongParent
           (proposalOn (mkBlock 4 2004 1999) 0)).
  - reflexivity.
  - discriminate.
Defined.

(** C8, as stated, fails: with the head at block 3, cleanup() keeps the
    HeightManager of height 3, a height at or below the head's number. *)
Lemma cleanup_keeps_head_height :
  heights (cleanup cmAtHead3) !! 3 = Some (NewHeightManager 3)
  ∧ hmHeight (NewHeightManager 3 : HM) ≤ NumberU64 (Head (cleanup cmAtHead3)).
Proof. split; [reflexivity | discriminate]. Qed.

(** C9. Round 0 holds a precommit vote lock and is the highest round that
    does; round 1 holds a vote lock only.  LastPrecommitVoteLock tests
    [voteLock], stops at round 1 and returns its nil
    [precommitVoteLock]. *)
Theorem LastPrecommitVoteLock_misses_lock :
  rounds hmLockedThenVoted !! 0 = Some lockedRound0
  ∧ precommitVoteLock lockedRound0 = Some (ownPrecommit 1 0 hashX 1)
  ∧ rounds hmLockedThenVoted !! 1 = Some votedRound1
  ∧ precommitVoteLock votedRound1 = None
  ∧ size (rounds hmLockedThenVoted) = 2%nat
  ∧ (LastPrecommitVoteLock cc4 hmLockedThenVoted).1 = None.
Proof. repeat split. Qed.



(** ** Further runs on the example states *)

(** The upward loop reaches round 5 although it is the only entry: it
    creates rounds 0 to 4 on the way.  Seven units of fuel are needed, six
    are not enough. *)
Example lastQuorumPrecommitLockSet_only_round_5 :
  (∃ hm', lastQuorumPrecommitLockSet cc4 7 hmOnlyRound5
          = Some (Ok (Some (precommitsFor 1 5 hashX), hm'))
          ∧ size (rounds hm') = 6%nat)
  ∧ lastQuorumPrecommitLockSet cc4 6 hmOnlyRound5 = None.
Proof.
  split; [|by vm_compute].
  eexists. split; vm_compute; reflexivity.
Qed.

Example lastQuorumPrecommitLockSet_agreeing_rounds :
  ∃ hm', lastQuorumPrecommitLockSet cc4 5 hmOneQuorum
         = Some (Ok (Some (precommitsFor 1 3 hashX), hm')).
Proof. eexists. vm_compute. reflexivity. Qed.

Example lastQuorumPrecommitLockSet_no_quorum :
  ∃ hm', lastQuorumPrecommitLockSet cc4 4 hmNoQuorum = Some (Ok (None, hm')).
Proof. eexists. vm_compute. reflexivity. Qed.

(** The downward scans on the same state see nothing: one entry, so only
    index 0 is visited, and created. *)
Example lastValidPrecommitLockset_only_round_5 :
  (lastValidPrecommitLockset cc4 hmOnlyRound5).1 = None
  ∧ rounds (lastValidPrecommitLockset cc4 hmOnlyRound5).2 !! 0 = Some (emptyRound 1 0)
  ∧ size (rounds (lastValidPrecommitLockset cc4 hmOnlyRound5).2) = 2%nat.
Proof. repeat split. Qed.

(** A VotingInstruction without a quorum draws a Nil prevote. *)
Example vote_on_instruction_without_quorum :
  ∃ hm', vote cc4 100 10 1 hmBadlyInstructed = Ok (Some (ownVote 1 1 nilHash 2), hm').
Proof. eexists. vm_compute. reflexivity. Qed.

(** With three validators on amd64 the election of the proposer for
    height 1, round 2 faults, and so does AddProposal on a proposal for
    that round, before any check of its shape. *)
Example AddProposal_election_fault :
  proposer amd64_int_overflow cc3 1 2 = Panic "index out of range"
  ∧ AddProposal noBareLockSet noSync amd64_int_overflow
      (IsVotingInstruction lateInstruction) None cmThreeValidators
    = Panic "index out of range".
Proof. split; vm_compute; reflexivity. Qed.

(** A well-shaped BlockProposal of the elected proposer is accepted and
    lands in the RoundManager of its round. *)
Example AddProposal_accepts_block :
  ∃ cm' hm' rm',
    AddProposal noBareLockSet noSync amd64_int_overflow
      (IsBlockProposal (mkBlockProposal 1 0 blockA (precommitsFor 0 0 1000) None (Some 11)))
      None cmAtGenesis = Ok (true, cm')
    ∧ heights cm' !! 1 = Some hm' ∧ rounds hm' !! 0 = Some rm'
    ∧ (Blockhash <$> proposal rm') = Some hashX
    ∧ is_Some (blockCandidates cm' !! hashX).
Proof.
  do 3 eexists. split; [vm_compute; reflexivity|].
  split; [vm_compute; reflexivity|]. split; [vm_compute; reflexivity|].
  split; [vm_compute; reflexivity|]. vm_compute. by eexists.
Qed.

(** * Further properties *)

(** ** The validator contract *)

Lemma containsAddress_elem_of (s : list Address) (e : Address) :
  containsAddress s e = true ↔ e ∈ s.
Proof.
  unfold containsAddress. rewrite existsb_exists. split.
  - intros (x & Hin & Heq). apply N.eqb_eq in Heq. subst x. by apply list_elem_of_In.
  - intros Hin. exists e. split; [by apply list_elem_of_In | apply N.eqb_refl].
Qed.

(** X1. Whoever [proposer] elects is one of the validators: when it
    returns an address, [isValidators] accepts it. *)
Theorem proposer_elects_validator (ovf : Z) (cc : ConsensusContract) (h r : N) (a : Address) :
  proposer ovf cc h r = Ok a → isValidators cc a = true.
Proof.
  unfold proposer. destruct (chosen ovf h r _) as [i|msg]; simpl; [|discriminate].
  destruct (i <? 0)%Z; [discriminate|].
  destruct (validators cc !! Z.to_nat i) as [addr|] eqn:Hi; [|discriminate].
  intros [= <-]. apply containsAddress_elem_of.
  by eapply list_elem_of_lookup_2.
Qed.

Lemma lookup_mod_length {A : Type} (l : list A) (x : N) :
  l ≠ [] →
  ∃ a, l !! N.to_nat (x mod N.of_nat (length l)) = Some a
       ∧ (Z.of_N x mod Z.of_nat (length l) <? 0)%Z = false
       ∧ l !! Z.to_nat (Z.of_N x mod Z.of_nat (length l)) = Some a.
Proof.
  intros Hne.
  assert (0 < length l)%nat as Hlen by (destruct l; [done | simpl; lia]).
  assert (Z.of_N x mod Z.of_nat (length l) = Z.of_N (x mod N.of_nat (length l)))%Z as ->.
  { rewrite N2Z.inj_mod. by rewrite nat_N_Z. }
  assert (x mod N.of_nat (length l) < N.of_nat (length l)) as Hlt by (apply N.mod_lt; lia).
  destruct (lookup_lt_is_Some_2 l (N.to_nat (x mod N.of_nat (length l)))) as [a Ha]; [lia|].
  exists a. split; [done|]. split; [apply Z.ltb_ge, N2Z.is_nonneg|].
  generalize dependent (x mod N.of_nat (length l)). intros y _ Ha.
  by replace (Z.to_nat (Z.of_N y)) with (N.to_nat y) by lia.
Qed.

(** X2. Round robin where the arithmetic is exact and [int] is 64 bits
    wide: for a height within [uint64], a round not above it and a
    difference below 2^53, the election returns, without a fault, the
    validator at index [(height - round) mod n], whatever the platform
    yields for a conversion out of range. *)
Theorem proposer_round_robin (ovf : Z) (cc : ConsensusContract) (h r : N) :
  u64 h → r ≤ h → h - r < 2 ^ 53 → validators cc ≠ [] →
  ∃ a, proposer ovf cc h r = Ok a
       ∧ validators cc !! N.to_nat ((h - r) mod N.of_nat (length (validators cc))) = Some a.
Proof.
  intros Hh Hle Hsmall Hne.
  destruct (lookup_mod_length (validators cc) (h - r) Hne) as (a & Ha & Hpos & Hza).
  exists a. split; [|done].
  unfold proposer.
  rewrite (chosen_small_difference ovf h r); [|done|done|done|].
  - simpl. by rewrite Hpos, Hza.
  - destruct (validators cc); [done | simpl; lia].
Qed.

Lemma sub64_add64_1 (h r : N) : sub64 (add64 h 1) (add64 r 1) = sub64 h r.
Proof.
  unfold sub64, add64, two64. f_equal.
  rewrite !Z2N.id by (apply Z.mod_pos_bound; lia).
  rewrite <- Zminus_mod. f_equal. lia.
Qed.

(** X3. The election depends on the height and the round only through
    their [uint64] difference: raising both by one (in [uint64]) elects
    the same validator, or faults the same way. *)
Theorem proposer_shift (ovf : Z) (cc : ConsensusContract) (h r : N) :
  proposer ovf cc (add64 h 1) (add64 r 1) = proposer ovf cc h r.
Proof. unfold proposer, chosen. by rewrite sub64_add64_1. Qed.

(** ** HeightManager: invariants and the remaining scans *)

Section HeightProofs.
Context {L PL : Type} `{!LocksetOps Vote L} `{!LocksetOps PrecommitVote PL}.
Variable cc : ConsensusContract.
Implicit Types (hm : @HeightManager L PL) (rm : @RoundManager L PL).

Lemma roundsKeyed_put hm r rm :
  roundsKeyed hm → rmRound rm = r → rmHeight rm = hmHeight hm →
  roundsKeyed (set_rounds (<[r := rm]> (rounds hm)) hm).
Proof.
  intros Hk Hr Hh r' rm'. simpl. rewrite lookup_insert.
  case_decide as Heq; [intros [= <-]; by subst | apply Hk].
Qed.

Lemma roundAt_keyed hm j :
  roundsKeyed hm →
  rmRound (roundAt cc hm j) = j ∧ rmHeight (roundAt cc hm j) = hmHeight hm.
Proof.
  intros Hk. unfold roundAt. destruct (rounds hm !! j) as [rm|] eqn:Hj; [by apply Hk|done].
Qed.

Lemma keepsKeyed_refl hm : roundsKeyed hm → keepsKeyed hm hm.
Proof. by split. Qed.

Lemma keepsKeyed_trans hm1 hm2 hm3 :
  keepsKeyed hm1 hm2 → keepsKeyed hm2 hm3 → keepsKeyed hm1 hm3.
Proof. intros [H1 _] [H2 ?]. split; [congruence|done]. Qed.

Lemma keepsKeyed_touch hm j : roundsKeyed hm → keepsKeyed hm (touch cc j hm).
Proof.
  intros Hk. split; [done|]. unfold touch.
  apply roundsKeyed_put; [done | by apply roundAt_keyed..].
Qed.

Lemma keepsKeyed_put hm r rm :
  roundsKeyed hm → rmRound rm = r → rmHeight rm = hmHeight hm →
  keepsKeyed hm (set_rounds (<[r := rm]> (rounds hm)) hm).
Proof. intros. split; [done | by apply roundsKeyed_put]. Qed.

Lemma keepsKeyed_scanDown {A : Type} (test : RoundManager → bool)
    (get : RoundManager → option A) (n : nat) : ∀ hm,
  roundsKeyed hm → keepsKeyed hm (scanDown cc test get n hm).2.
Proof.
  induction n as [|i IH]; intros hm Hk; [by apply keepsKeyed_refl|].
  rewrite scanDown_S. destruct (test _); simpl.
  - by apply keepsKeyed_touch.
  - destruct (keepsKeyed_touch hm (N.of_nat i) Hk) as [Hh Hk'].
    eapply keepsKeyed_trans; [by split | by apply IH].
Qed.

Lemma keepsKeyed_lastQuorumPrecommitLockSet_from fuel : ∀ i found hm res hm',
  roundsKeyed hm →
  lastQuorumPrecommitLockSet_from cc fuel i found hm = Some (Ok (res, hm')) →
  keepsKeyed hm hm'.
Proof.
  induction fuel as [|fuel IH]; intros i found hm res hm' Hk; simpl; [discriminate|].
  destruct (_ <=? i); [intros [= <- <-]; by apply keepsKeyed_refl|].
  rewrite getRoundManager_touch.
  destruct (keepsKeyed_touch hm i Hk) as [Hh Hk'].
  assert (∀ f, lastQuorumPrecommitLockSet_from cc fuel (i + 1) f (touch cc i hm)
               = Some (Ok (res, hm')) → keepsKeyed hm hm') as Hnext.
  { intros f Hrun. eapply keepsKeyed_trans; [by split | by eapply IH]. }
  destruct (IsValid _); [|by apply Hnext].
  destruct (HasQuorum _) as [q hash]. destruct q; [|by apply Hnext].
  destruct found as [f|]; [|by apply Hnext].
  destruct (negb _); [discriminate | by apply Hnext].
Qed.

Lemma keepsKeyed_lastQuorumLockset_from fuel : ∀ i found hm res hm',
  roundsKeyed hm →
  lastQuorumLockset_from cc fuel i found hm = Some (res, hm') →
  keepsKeyed hm hm'.
Proof.
  induction fuel as [|fuel IH]; intros i found hm res hm' Hk; simpl; [discriminate|].
  destruct (_ <=? i); [intros [= <- <-]; by apply keepsKeyed_refl|].
  rewrite getRoundManager_touch.
  destruct (keepsKeyed_touch hm i Hk) as [Hh Hk'].
  assert (∀ f, lastQuorumLockset_from cc fuel (i + 1) f (touch cc i hm)
               = Some (res, hm') → keepsKeyed hm hm') as Hnext.
  { intros f Hrun. eapply keepsKeyed_trans; [by split | by eapply IH]. }
  destruct (IsValid _); [|by apply Hnext].
  destruct (HasQuorum _) as [q hash]. destruct q; by apply Hnext.
Qed.

Lemma keepsKeyed_LastVotedBlockProposal_from n : ∀ hm res hm',
  roundsKeyed hm →
  LastVotedBlockProposal_from cc n hm = Ok (res, hm') →
  keepsKeyed hm hm'.
Proof.
  induction n as [|i IH]; intros hm res hm' Hk; simpl.
  - intros [= <- <-]. by apply keepsKeyed_refl.
  - rewrite getRoundManager_touch.
    pose proof (keepsKeyed_touch hm (N.of_nat i) Hk) as Ht.
    destruct (proposal (roundAt cc hm (N.of_nat i))) as [[p|vi]|];
      [| intros [= <- <-]; done ..].
    rewrite getRoundManager_touch, roundAt_touch, touch_touch.
    destruct (voteLock _) as [v|]; [|discriminate].
    destruct (_ =? _); [intros [= <- <-]; done|].
    intros Hrun. destruct Ht as [Hh Hk'].
    eapply keepsKeyed_trans; [by split | by eapply IH].
Qed.

Lemma rm_addVote_fields v force rm :
  ∃ ls, (rm_addVote v force rm).2 = set_lockset ls rm.
Proof.
  unfold rm_addVote. destruct (negb _).
  - destruct (Add _ _ _) as [ls err]. exists ls. by destruct err.
  - exists (lockset rm). by destruct rm.
Qed.

Lemma rm_addProposal_fields p rm :
  ∃ q, (rm_addProposal p rm).2 = set_proposal q rm.
Proof.
  unfold rm_addProposal. destruct (proposal rm) as [stored|] eqn:Hp.
  - exists (Some stored). destruct (_ =? _); simpl; destruct rm; simpl in *; by subst.
  - by exists (Some p).
Qed.

Lemma keepsKeyed_hm_addProposal p hm :
  roundsKeyed hm → keepsKeyed hm (hm_addProposal cc p hm).2.
Proof.
  intros Hk. unfold hm_addProposal. rewrite getRoundManager_touch.
  destruct (rm_addProposal_fields p (roundAt cc hm (GetRound p))) as [q Hq].
  destruct (rm_addProposal p _) as [ok rm']. simpl in *. subst rm'.
  destruct (keepsKeyed_touch hm (GetRound p) Hk) as [Hh Hk'].
  eapply keepsKeyed_trans; [by split|].
  apply keepsKeyed_put; [done | simpl; by apply roundAt_keyed ..].
Qed.

Lemma keepsKeyed_hm_addVote v process hm :
  roundsKeyed hm → keepsKeyed hm (hm_addVote cc v process hm).2.
Proof.
  intros Hk. unfold hm_addVote. destruct (negb _); [by apply keepsKeyed_refl|].
  rewrite getRoundManager_touch.
  destruct (rm_addVote_fields v (default 0 (vSigner v) =? coinbase cc)
              (roundAt cc hm (vRound v))) as [ls Hls].
  destruct (rm_addVote v _ _) as [ok rm']. simpl in *. subst rm'.
  destruct (keepsKeyed_touch hm (vRound v) Hk) as [Hh Hk'].
  eapply keepsKeyed_trans; [by split|].
  apply keepsKeyed_put; [done | simpl; by apply roundAt_keyed ..].
Qed.

Lemma setTimeoutPrecommit_fields now rm :
  ∃ t, setTimeoutPrecommit now rm = set_timeoutPrecommit t rm.
Proof.
  unfold setTimeoutPrecommit. destruct (negb _); [|by eexists].
  exists (timeoutPrecommit rm). by destruct rm.
Qed.

(** What [vote] leaves behind when it emits [v] from the round [rm]: the
    rounds [LastPrecommitVoteLock] created, and the round of [rm] with its
    vote lock set to [v], the vote added to its lockset and the precommit
    deadline armed. *)
Lemma vote_emits now key r hm rm out hm' :
  rounds hm !! r = Some rm →
  vote cc now key r hm = Ok (out, hm') →
  match out with
  | None => hm' = hm ∨ hm' = (LastPrecommitVoteLock cc hm).2
  | Some v =>
      voteLock rm = None
      ∧ vSigner v = Some key ∧ vHeight v = rmHeight rm ∧ vRound v = rmRound rm
      ∧ ∃ ls t, hm' = set_rounds
                        (<[r := set_timeoutPrecommit t
                                  (set_lockset ls (set_voteLock (Some v) rm))]>
                           (rounds (LastPrecommitVoteLock cc hm).2))
                        (LastPrecommitVoteLock cc hm).2
  end.
Proof.
  intros Hr. unfold vote. rewrite Hr.
  destruct (voteLock rm) as [v0|] eqn:Hv; [intros [= <- <-]; by left|].
  destruct (LastPrecommitVoteLock cc hm) as [l hm1]. simpl.
  assert (∀ v0, vHeight v0 = rmHeight rm → vRound v0 = rmRound rm →
            Ok (Some (SignVote key v0),
                set_rounds (<[r := setTimeoutPrecommit now
                                      (rm_addVote (SignVote key v0) false
                                         (set_voteLock (Some (SignVote key v0)) rm)).2]>
                              (rounds hm1)) hm1) = Ok (out, hm') →
            match out with
            | None => hm' = hm ∨ hm' = hm1
            | Some v =>
                None = None (A := Vote)
                ∧ vSigner v = Some key ∧ vHeight v = rmHeight rm ∧ vRound v = rmRound rm
                ∧ ∃ ls t, hm' = set_rounds
                                  (<[r := set_timeoutPrecommit t
                                            (set_lockset ls (set_voteLock (Some v) rm))]>
                                     (rounds hm1)) hm1
            end) as Hfin.
  { intros v0 Hh0 Hr0 [= <- <-].
    destruct (rm_addVote_fields (SignVote key v0) false
                (set_voteLock (Some (SignVote key v0)) rm)) as [ls ->].
    destruct (setTimeoutPrecommit_fields now
                (set_lockset ls (set_voteLock (Some (SignVote key v0)) rm))) as [t ->].
    split; [done|]. split; [done|]. split; [done|]. split; [done|]. by exists ls, t. }
  assert (Ok (None, hm1) = Ok (out, hm') →
          match out with
          | None => hm' = hm ∨ hm' = hm1
          | Some v =>
              None = None (A := Vote)
              ∧ vSigner v = Some key ∧ vHeight v = rmHeight rm ∧ vRound v = rmRound rm
              ∧ ∃ ls t, hm' = set_rounds
                                (<[r := set_timeoutPrecommit t
                                          (set_lockset ls (set_voteLock (Some v) rm))]>
                                   (rounds hm1)) hm1
          end) as Hnone.
  { intros [= <- <-]. by right. }
  destruct l as [l|].
  - destruct (pvVoteType l =? 1); [by apply Hfin|].
    destruct (proposal rm) as [[bp|vi]|].
    + by apply Hfin.
    + destruct (HasQuorum (viLockSet vi)).1; simpl.
      * destruct (pvRound l <? LsRound (viLockSet vi)); [by apply Hfin | by apply Hnone].
      * by apply Hnone.
    + destruct (timeoutReached now rm); [by apply Hfin | by apply Hnone].
  - destruct (proposal rm) as [[bp|vi]|].
    + by apply Hfin.
    + destruct (HasQuorum (viLockSet vi)).1; simpl; [discriminate | by apply Hfin].
    + destruct (timeoutReached now rm); [by apply Hfin | by apply Hnone].
Qed.

Lemma keepsKeyed_vote now key r hm out hm' :
  roundsKeyed hm →
  vote cc now key r hm = Ok (out, hm') →
  keepsKeyed hm hm'.
Proof.
  intros Hk Hrun.
  destruct (rounds hm !! r) as [rm|] eqn:Hr;
    [|unfold vote in Hrun; by rewrite Hr in Hrun].
  pose proof (keepsKeyed_scanDown hasVoteLock precommitVoteLock
                (size (rounds hm)) hm Hk) as Hscan.
  fold (LastPrecommitVoteLock cc hm) in Hscan.
  pose proof (vote_emits now key r hm rm out hm' Hr Hrun) as Hout.
  destruct out as [v|].
  - destruct Hout as (_ & _ & _ & _ & ls & t & ->).
    destruct Hscan as [Hh Hk'].
    eapply keepsKeyed_trans; [by split|].
    destruct (Hk r rm Hr) as [Hrr Hrh].
    apply keepsKeyed_put; [done | done | simpl; congruence].
  - destruct Hout as [->| ->]; [by apply keepsKeyed_refl | done].
Qed.

(** X4. Every operation of a HeightManager keeps its height and keeps
    the rounds map keyed (the RoundManager stored under [r] is that of
    round [r] at this height): getRoundManager, the four downward
    accessors, addProposal, addVote, and, whenever they return, vote,
    lastQuorumPrecommitLockSet, lastQuorumLockset and
    LastVotedBlockProposal. *)
Theorem HeightManager_keeps_rounds_keyed hm :
  roundsKeyed hm →
  (∀ r, keepsKeyed hm (getRoundManager cc r hm).2)
  ∧ keepsKeyed hm (LastVoteLock cc hm).2
  ∧ keepsKeyed hm (LastPrecommitVoteLock cc hm).2
  ∧ keepsKeyed hm (lastValidLockset cc hm).2
  ∧ keepsKeyed hm (lastValidPrecommitLockset cc hm).2
  ∧ (∀ p, keepsKeyed hm (hm_addProposal cc p hm).2)
  ∧ (∀ v process, keepsKeyed hm (hm_addVote cc v process hm).2)
  ∧ (∀ now key r out hm', vote cc now key r hm = Ok (out, hm') → keepsKeyed hm hm')
  ∧ (∀ fuel res hm',
       lastQuorumPrecommitLockSet cc fuel hm = Some (Ok (res, hm')) → keepsKeyed hm hm')
  ∧ (∀ fuel res hm', lastQuorumLockset cc fuel hm = Some (res, hm') → keepsKeyed hm hm')
  ∧ (∀ res hm', LastVotedBlockProposal cc hm = Ok (res, hm') → keepsKeyed hm hm').
Proof.
  intros Hk. split_and!.
  - intros r. rewrite getRoundManager_touch. by apply keepsKeyed_touch.
  - by apply keepsKeyed_scanDown.
  - by apply keepsKeyed_scanDown.
  - by apply keepsKeyed_scanDown.
  - by apply keepsKeyed_scanDown.
  - intros p. by apply keepsKeyed_hm_addProposal.
  - intros v process. by apply keepsKeyed_hm_addVote.
  - intros now key r out hm'. by apply keepsKeyed_vote.
  - intros fuel res hm'. by apply keepsKeyed_lastQuorumPrecommitLockSet_from.
  - intros fuel res hm'. by apply keepsKeyed_lastQuorumLockset_from.
  - intros res hm'. by apply keepsKeyed_LastVotedBlockProposal_from.
Qed.
End HeightProofs.

Section HeightProofs2.
Context {L PL : Type} `{!LocksetOps Vote L} `{!LocksetOps PrecommitVote PL}.
Variable cc : ConsensusContract.
Implicit Types (hm : @HeightManager L PL) (rm : @RoundManager L PL).

(** *** The prevote *)

(** X5. A prevote is cast once per round: when [vote] emits [v] from the
    round [r], [v] is signed with the node's key, carries the height and
    round of the RoundManager and is its vote lock afterwards; any later
    [vote] on that round returns nil and changes nothing. *)
Theorem vote_sets_lock_once now key r hm rm v hm' :
  rounds hm !! r = Some rm →
  vote cc now key r hm = Ok (Some v, hm') →
  vSigner v = Some key ∧ vHeight v = rmHeight rm ∧ vRound v = rmRound rm
  ∧ (∃ rm', rounds hm' !! r = Some rm' ∧ voteLock rm' = Some v
            ∧ proposal rm' = proposal rm
            ∧ precommitVoteLock rm' = precommitVoteLock rm)
  ∧ ∀ now', vote cc now' key r hm' = Ok (None, hm').
Proof.
  intros Hr Hrun.
  destruct (vote_emits cc now key r hm rm (Some v) hm' Hr Hrun)
    as (_ & Hs & Hh & Hro & ls & t & ->).
  split; [done|]. split; [done|]. split; [done|]. split.
  - eexists. simpl. rewrite lookup_insert_eq. done.
  - intros now'. unfold vote. simpl. rewrite lookup_insert_eq. done.
Qed.

(** X6. A node locked on a block prevotes that block: when the last
    precommit vote lock of the height is a Block precommit, [vote] emits a
    Block prevote on its hash, whatever proposal, if any, the round
    holds. *)
Theorem vote_follows_lock now key r hm rm l :
  rounds hm !! r = Some rm →
  voteLock rm = None →
  (LastPrecommitVoteLock cc hm).1 = Some l →
  pvVoteType l = 1 →
  ∃ hm', vote cc now key r hm
         = Ok (Some (SignVote key (NewVote (rmHeight rm) (rmRound rm) (pvBlockhash l) 1)),
               hm').
Proof.
  intros Hr Hv Hl Ht. unfold vote. rewrite Hr, Hv.
  destruct (LastPrecommitVoteLock cc hm) as [l' hm1]. simpl in Hl. subst l'.
  rewrite Ht. simpl. by eexists.
Qed.

(** *** The downward accessors on contiguous rounds *)

Lemma contiguous_keys hm k :
  contiguous hm → is_Some (rounds hm !! k) → k < N.of_nat (size (rounds hm)).
Proof.
  intros Hc Hk. destruct (decide (k < N.of_nat (size (rounds hm)))) as [|Hge]; [done|].
  assert (size (rounds hm) < size (rounds hm))%nat; [|lia].
  apply (size_gt_prefix _ _ k); [done | done | lia].
Qed.

Lemma scanned_contiguous hm hm' lo n :
  (∀ j, j < N.of_nat n → is_Some (rounds hm !! j)) →
  scanned cc hm hm' lo n → hm' = hm.
Proof.
  intros Hc (Hh & Ha & Hl).
  destruct hm as [h rs a], hm' as [h' rs' a']. simpl in *. subst h' a'. f_equal.
  apply map_eq. intros k. rewrite Hl. case_decide as Hin; [|done].
  destruct (Hc k) as [rm Hrm]; [lia|].
  unfold roundAt. simpl. by rewrite Hrm.
Qed.

Lemma scanDown_contiguous {A : Type} (test : @RoundManager L PL → bool)
    (get : @RoundManager L PL → option A) hm :
  contiguous hm →
  highestPassing (λ hm, scanDown cc test get (size (rounds hm)) hm) test get hm.
Proof.
  intros Hc. unfold highestPassing.
  set (n := size (rounds hm)).
  assert (∀ j : nat, (j < n)%nat →
            ∃ rm, rounds hm !! N.of_nat j = Some rm ∧ roundAt cc hm (N.of_nat j) = rm)
    as Hat.
  { intros j Hj. destruct (Hc (N.of_nat j)) as [rm Hrm]; [lia|].
    exists rm. split; [done | by apply roundAt_Some]. }
  split; [|split].
  - destruct (scanDown_cases cc test get n hm) as [(i & _ & _ & _ & _ & Hs)|(_ & _ & Hs)];
      by eapply scanned_contiguous.
  - intros Hnone.
    destruct (scanDown_cases cc test get n hm) as [(i & Hi & Ht & _)|(_ & Hres & _)];
      [|done].
    destruct (Hat i Hi) as (rm & Hrm & Heq). rewrite Heq, (Hnone _ _ Hrm) in Ht. done.
  - intros i rm Hrm Ht Habove.
    assert (i < N.of_nat n) as Hi by (apply contiguous_keys; [done | by rewrite Hrm]).
    destruct (scanDown_cases cc test get n hm)
      as [(i0 & Hi0 & Ht0 & Hab0 & Hres & _)|(Hall & _)].
    + destruct (Hat i0 Hi0) as (rm0 & Hrm0 & Heq0). rewrite Hres, Heq0.
      destruct (decide (N.of_nat i0 = i)) as [<-|Hne]; [congruence|]. exfalso.
      destruct (decide (N.of_nat i0 < i)) as [Hlt|Hge].
      * specialize (Hab0 (N.to_nat i)). rewrite N2Nat.id in Hab0.
        rewrite (roundAt_Some cc _ _ _ Hrm), Ht in Hab0.
        assert (true = false) by (apply Hab0; lia). done.
      * rewrite Heq0 in Ht0. rewrite (Habove (N.of_nat i0) rm0) in Ht0; [done|lia|done].
    + specialize (Hall (N.to_nat i)). rewrite N2Nat.id in Hall.
      rewrite (roundAt_Some cc _ _ _ Hrm), Ht in Hall.
      assert (true = false) by (apply Hall; lia). done.
Qed.

(** X7. Where the rounds of a HeightManager are 0, 1, ..., [len - 1],
    LastVoteLock, LastPrecommitVoteLock, lastValidLockset and
    lastValidPrecommitLockset are pure reads: they leave the HeightManager
    as it is and return nil when no round passes their test, else the
    data of the highest round that does ([highestPassing]). *)
Theorem accessors_on_contiguous_rounds hm :
  contiguous hm →
  highestPassing (LastVoteLock cc) hasVoteLock voteLock hm
  ∧ highestPassing (LastPrecommitVoteLock cc) hasVoteLock precommitVoteLock hm
  ∧ highestPassing (lastValidLockset cc)
      (λ rm, IsValid (lockset rm)) (λ rm, Some (lockset rm)) hm
  ∧ highestPassing (lastValidPrecommitLockset cc)
      (λ rm, IsValid (precommitLockset rm)) (λ rm, Some (precommitLockset rm)) hm.
Proof. intros Hc. split_and!; by apply scanDown_contiguous. Qed.

(** *** Adding a prevote *)

(** X8. [hm.addVote]: a vote whose signer is not a validator is refused
    and nothing changes, not even a round is created; a validator's vote
    touches the prevote lockset of the round it names and nothing else,
    creating that round, whatever its number, when it is missing. *)
Theorem hm_addVote_effect v process hm :
  (isValidators cc (default 0 (vSigner v)) = false →
     hm_addVote cc v process hm = (false, hm))
  ∧ (isValidators cc (default 0 (vSigner v)) = true →
     ∃ ls, (hm_addVote cc v process hm).2
           = set_rounds (<[vRound v := set_lockset ls (roundAt cc hm (vRound v))]>
                           (rounds hm)) hm).
Proof.
  unfold hm_addVote. split; intros ->; simpl; [done|].
  rewrite getRoundManager_touch.
  destruct (rm_addVote_fields v (default 0 (vSigner v) =? coinbase cc)
              (roundAt cc hm (vRound v))) as [ls Hls].
  destruct (rm_addVote v _ _) as [ok rm']. simpl in *. subst rm'.
  exists ls. unfold touch, set_rounds. simpl. by rewrite insert_insert_eq.
Qed.
End HeightProofs2.

Section HeightProofs3.
Context {L PL : Type} `{!LocksetOps Vote L} `{!LocksetOps PrecommitVote PL}.
Variable cc : ConsensusContract.
Implicit Types (hm : @HeightManager L PL) (rm : @RoundManager L PL).
Implicit Types (ls : L) (found : option L) (l : list L).

(** *** The upward scan of [lastQuorumLockset] *)

Lemma lsFrom_touch j d : ∀ hm i, lsFrom cc (touch cc j hm) i d = lsFrom cc hm i d.
Proof.
  induction d as [|d IH]; intros hm i; simpl; [done|].
  by rewrite roundAt_touch, IH.
Qed.

Lemma elem_of_lsFrom d : ∀ hm i ls,
  ls ∈ lsFrom cc hm i d → ∃ j, i ≤ j < i + N.of_nat d ∧ ls = lockset (roundAt cc hm j).
Proof.
  induction d as [|d IH]; intros hm i ls; simpl.
  - by intros ?%elem_of_nil.
  - intros [->|(j & Hj & ->)%IH]%elem_of_cons; [exists i | exists j]; split; try done; lia.
Qed.

Lemma lsFrom_split d1 : ∀ hm i d2,
  lsFrom cc hm i (d1 + S d2)
  = lsFrom cc hm i d1
    ++ lockset (roundAt cc hm (i + N.of_nat d1)) :: lsFrom cc hm (i + N.of_nat d1 + 1) d2.
Proof.
  induction d1 as [|d1 IH]; intros hm i d2; simpl.
  - by rewrite N.add_0_r.
  - rewrite IH. by replace (i + 1 + N.of_nat d1) with (i + N.pos (Pos.of_succ_nat d1)) by lia.
Qed.

Lemma scanLast_app l1 : ∀ found l2,
  scanLast found (l1 ++ l2) = scanLast (scanLast found l1) l2.
Proof.
  induction l1 as [|x l1 IH]; intros found l2; simpl; [done|].
  destruct (IsValid x && (HasQuorum x).1); apply IH.
Qed.

Lemma scanLast_none l : ∀ found,
  (∀ ls, ls ∈ l → IsValid ls && (HasQuorum ls).1 = false) →
  scanLast found l = found.
Proof.
  induction l as [|x l IH]; intros found Hno; simpl; [done|].
  rewrite (Hno x) by (by left). apply IH. intros ls Hin. apply Hno. by right.
Qed.

(** The loop, run from [i] with [d] rounds to go and more fuel than that,
    ends, and is [scanLast] over those rounds. *)
Lemma lastQuorumLockset_from_scan d : ∀ fuel i found hm,
  loopReady hm i d → (d < fuel)%nat →
  ∃ hm', lastQuorumLockset_from cc fuel i found hm
         = Some (scanLast found (lsFrom cc hm i d), hm').
Proof.
  induction d as [|d IH]; intros fuel i found hm Hready Hfuel;
    (destruct fuel as [|fuel]; [lia|]); simpl.
  - destruct Hready as (_ & Hup & _).
    assert (size (rounds hm) ≤ N.to_nat i)%nat as Hsz.
    { apply size_le_bound. intros k Hk. apply Hup in Hk. lia. }
    destruct (N.leb_spec (N.of_nat (size (rounds hm))) i); [by exists hm | lia].
  - assert (N.to_nat i < size (rounds hm))%nat as Hsz.
    { destruct Hready as (Hlow & _ & Htop).
      apply (size_gt_prefix _ _ (i + N.of_nat (S d) - 1)).
      - intros j Hj. apply Hlow. lia.
      - by apply Htop.
      - lia. }
    destruct (N.leb_spec (N.of_nat (size (rounds hm))) i); [lia|].
    rewrite getRoundManager_touch.
    apply (loopReady_touch cc) in Hready.
    destruct (IH fuel (i + 1) found (touch cc i hm)) as [hm1 H1]; [done|lia|].
    destruct (IH fuel (i + 1) (Some (lockset (roundAt cc hm i)))
                (touch cc i hm)) as [hm2 H2]; [done|lia|].
    rewrite lsFrom_touch in H1, H2.
    destruct (IsValid (lockset (roundAt cc hm i))); simpl; [|by exists hm1].
    destruct (HasQuorum (lockset (roundAt cc hm i))) as [res hash].
    destruct res; simpl; [by exists hm2 | by exists hm1].
Qed.

(** X9. [lastQuorumLockset] never halts the process: with enough fuel its
    loop ends and returns nil when no round holds a valid prevote lockset
    with a quorum, and otherwise the prevote lockset of the highest round
    that does, also when lower rounds report a quorum on another hash.
    The empty lockset of a RoundManager created on the way is taken not
    to be a valid quorum. *)
Theorem lastQuorumLockset_returns_highest hm :
  IsValid (mkLockSet cc (hmHeight hm)) && (HasQuorum (mkLockSet cc (hmHeight hm))).1 = false →
  ∃ fuel0 : nat, ∀ fuel : nat, (fuel0 ≤ fuel)%nat →
    ∃ res hm', lastQuorumLockset cc fuel hm = Some (res, hm')
      ∧ ((∀ k, ¬ prevoteQuorumAt hm k) → res = None)
      ∧ (∀ k rm, rounds hm !! k = Some rm →
           IsValid (lockset rm) = true → (HasQuorum (lockset rm)).1 = true →
           (∀ k', k < k' → ¬ prevoteQuorumAt hm k') →
           res = Some (lockset rm)).
Proof.
  intros Hfresh.
  destruct (keys_bound (rounds hm)) as (B & Hlt & Htop).
  exists (S B). intros fuel Hfuel.
  destruct (lastQuorumLockset_from_scan B fuel 0 None hm) as [hm' Hrun]; [|lia|].
  { split; [intros j Hj; lia|]. split.
    - intros k Hk. apply Hlt in Hk. lia.
    - intros HB. rewrite N.add_0_l. by apply Htop. }
  unfold lastQuorumLockset. rewrite Hrun. eexists _, hm'. split; [done|].
  (* a round without a quorum, stored or created, does not count *)
  assert (∀ j, ¬ prevoteQuorumAt hm j →
            IsValid (lockset (roundAt cc hm j))
            && (HasQuorum (lockset (roundAt cc hm j))).1 = false) as Hskip.
  { intros j Hj. destruct (rounds hm !! j) as [rm|] eqn:Hrm.
    - rewrite (roundAt_Some cc _ _ _ Hrm).
      destruct (IsValid (lockset rm)) eqn:Hv; [|done].
      destruct (HasQuorum (lockset rm)).1 eqn:Hq; [|done].
      destruct Hj. by exists rm.
    - by rewrite (roundAt_None cc _ _ Hrm). }
  split.
  - intros Hno. apply scanLast_none.
    intros ls (j & _ & ->)%elem_of_lsFrom. by apply Hskip.
  - intros k rm Hrm Hv Hq Habove.
    assert (k < N.of_nat B) as Hk by (apply Hlt; by rewrite Hrm).
    replace B with (N.to_nat k + S (B - N.to_nat k - 1))%nat by lia.
    rewrite lsFrom_split, scanLast_app. simpl.
    rewrite N.add_0_l, N2Nat.id, (roundAt_Some cc _ _ _ Hrm), Hv, Hq. simpl.
    apply scanLast_none.
    intros ls (j & Hj & ->)%elem_of_lsFrom. apply Hskip, Habove. lia.
Qed.

(** *** [LastVotedBlockProposal] *)

Lemma LastVotedBlockProposal_from_stored n : ∀ hm p hm',
  LastVotedBlockProposal_from cc n hm = Ok (Some p, hm') →
  ∃ k rm v, rounds hm !! k = Some rm
            ∧ proposal rm = Some (IsBlockProposal p)
            ∧ voteLock rm = Some v ∧ vBlockhash v = bpBlockhash p.
Proof.
  induction n as [|i IH]; intros hm p hm'; simpl; [discriminate|].
  rewrite getRoundManager_touch.
  destruct (proposal (roundAt cc hm (N.of_nat i))) as [[q|vi]|] eqn:Hp;
    [|discriminate..].
  rewrite getRoundManager_touch, roundAt_touch, touch_touch.
  destruct (voteLock (roundAt cc hm (N.of_nat i))) as [v|] eqn:Hv; [|discriminate].
  destruct (N.eqb_spec (bpBlockhash q) (vBlockhash v)) as [Heq|Hne].
  - intros [= <- <-]. exists (N.of_nat i).
    destruct (rounds hm !! N.of_nat i) as [rm|] eqn:Hrm.
    + rewrite (roundAt_Some cc _ _ _ Hrm) in Hp, Hv. by exists rm, v.
    + by rewrite (roundAt_None cc _ _ Hrm) in Hp.
  - intros (k & rm & v' & Hk & Hrest)%IH.
    rewrite rounds_touch in Hk. case_decide as Hik; [|by exists k, rm, v'].
    subst k. injection Hk as <-.
    destruct (rounds hm !! N.of_nat i) as [rm|] eqn:Hrm.
    + rewrite (roundAt_Some cc _ _ _ Hrm) in Hrest. by exists (N.of_nat i), rm, v'.
    + rewrite (roundAt_None cc _ _ Hrm) in Hrest. by destruct Hrest.
Qed.

(** X10. [LastVotedBlockProposal] looks at the round of index
    [len(rounds) - 1] first and gives up at once when that round holds no
    BlockProposal (none at all, or a VotingInstruction), whatever the
    rounds below hold; it faults when that round holds a BlockProposal
    but no vote lock; and a proposal it returns is the BlockProposal of a
    stored round whose vote lock is on its blockhash. *)
Theorem LastVotedBlockProposal_top_round hm :
  (∀ i, size (rounds hm) = S i →
     (∀ p, proposal (roundAt cc hm (N.of_nat i)) ≠ Some (IsBlockProposal p)) →
     LastVotedBlockProposal cc hm = Ok (None, touch cc (N.of_nat i) hm))
  ∧ (∀ i p, size (rounds hm) = S i →
       proposal (roundAt cc hm (N.of_nat i)) = Some (IsBlockProposal p) →
       voteLock (roundAt cc hm (N.of_nat i)) = None →
       LastVotedBlockProposal cc hm = Panic "nil pointer dereference")
  ∧ (∀ p hm', LastVotedBlockProposal cc hm = Ok (Some p, hm') →
       ∃ k rm v, rounds hm !! k = Some rm
                 ∧ proposal rm = Some (IsBlockProposal p)
                 ∧ voteLock rm = Some v ∧ vBlockhash v = bpBlockhash p).
Proof.
  unfold LastVotedBlockProposal. split_and!.
  - intros i -> Hno. simpl. rewrite getRoundManager_touch.
    destruct (proposal (roundAt cc hm (N.of_nat i))) as [[q|vi]|] eqn:Hp; [|done..].
    by destruct (Hno q).
  - intros i p -> Hp Hv. simpl. rewrite getRoundManager_touch, Hp.
    by rewrite getRoundManager_touch, roundAt_touch, Hv.
  - intros p hm'. apply LastVotedBlockProposal_from_stored.
Qed.
End HeightProofs3.

Section Sweep2.
Context {K : Type} `{Countable K} {A : Type}.

(** Sweeping a swept map again deletes nothing. *)
Lemma map_fold_delete_idem (drop : A → bool) (m : gmap K A) :
  let m' := map_fold (λ i x (acc : gmap K A), if drop x then delete i acc else acc) m m in
  map_fold (λ i x (acc : gmap K A), if drop x then delete i acc else acc) m' m' = m'.
Proof.
  intros m'. apply map_eq. intros k. rewrite map_fold_delete_lookup.
  destruct (m' !! k) as [x|] eqn:Hk; [|done].
  apply map_fold_delete_self in Hk as [_ ->]. done.
Qed.
End Sweep2.

Section ConsensusProofs2.
Context {L PL : Type} `{!LocksetOps Vote L} `{!LocksetOps PrecommitVote PL}.
Context {Synchronizer Peer : Type}.
Variable bareLockSet : @BlockProposal L PL → L.
Variable onProposal : @Proposal L PL → Peer → Synchronizer → Synchronizer.
Variable int_overflow : Z.
Implicit Types (cm : @ConsensusManager L PL Synchronizer) (p : @Proposal L PL).
Implicit Types (hm : @HeightManager L PL) (rm : @RoundManager L PL) (peer : option Peer).

(** *** The maps stay keyed *)

Lemma sameNode_refl cm : sameNode cm cm.
Proof. by repeat split. Qed.

Lemma sameNode_trans cm1 cm2 cm3 : sameNode cm1 cm2 → sameNode cm2 cm3 → sameNode cm1 cm3.
Proof.
  intros (?&?&?&?&?&?) (?&?&?&?&?&?). repeat split; congruence.
Qed.

Lemma wellKeyed_put_height h hm cm :
  wellKeyed cm → hmHeight hm = h → roundsKeyed hm →
  wellKeyed (set_heights (<[h := hm]> (heights cm)) cm).
Proof.
  intros [Hh Hc] Hhm Hk. split; [|done]. simpl. intros h' hm'.
  rewrite lookup_insert. case_decide; [intros [= <-]; by subst | apply Hh].
Qed.

Lemma getHeightManager_heightAt h cm :
  getHeightManager h cm
  = (heightAt cm h, set_heights (<[h := heightAt cm h]> (heights cm)) cm).
Proof.
  unfold getHeightManager, heightAt.
  destruct (heights cm !! h) as [hm|] eqn:Hh; simpl; [|done].
  f_equal. destruct cm; unfold set_heights; simpl in *. f_equal.
  by rewrite insert_id.
Qed.

Lemma heightAt_keyed h cm :
  wellKeyed cm → hmHeight (heightAt cm h) = h ∧ roundsKeyed (heightAt cm h).
Proof.
  intros [Hh _]. unfold heightAt.
  destruct (heights cm !! h) as [hm|] eqn:Hhm; simpl; [by apply Hh|].
  split; [done|]. intros r rm. simpl. by rewrite lookup_empty.
Qed.

Lemma wellKeyed_getHeightManager h cm :
  wellKeyed cm → wellKeyed (getHeightManager h cm).2.
Proof.
  intros Hk. rewrite getHeightManager_heightAt. simpl.
  destruct (heightAt_keyed h cm Hk). by apply wellKeyed_put_height.
Qed.

Lemma commitPrecommitLockset_sameNode hash pls cm :
  sameNode cm (commitPrecommitLockset hash pls cm)
  ∧ heights (commitPrecommitLockset hash pls cm) = heights cm.
Proof.
  unfold commitPrecommitLockset, sameNode.
  repeat (case_match; simpl; try done).
Qed.

Lemma wellKeyed_sameNode cm cm' :
  wellKeyed cm → sameNode cm cm' → heights cm' = heights cm → wellKeyed cm'.
Proof.
  intros [Hh Hc] (_&_&_&_&Hbc&_) Hhs. split.
  - by rewrite Hhs.
  - by rewrite Hbc.
Qed.

Lemma wellKeyed_cleanup cm : wellKeyed cm → wellKeyed (cleanup cm).
Proof.
  intros [Hh Hc]. split.
  - intros h hm. unfold cleanup. simpl. rewrite map_fold_delete_self.
    intros [Hin _]. by apply Hh.
  - intros k bp. unfold cleanup. simpl. rewrite map_fold_delete_self.
    intros [Hin _]. by apply Hc.
Qed.

(** *** Adding a precommit vote *)

(** [rm.addPrecommitVote] on a stored round, step by step. *)
Lemma rm_addPrecommitVote_run h r v force cm hm rm :
  heights cm !! h = Some hm → rounds hm !! r = Some rm →
  rm_addPrecommitVote h r v force cm
  = if Contain (precommitLockset rm) v then Ok (false, cm)
    else
      let pls := (Add (precommitLockset rm) v force).1 in
      let cm1 := putRoundManager h r (set_precommitLockset pls rm) hm cm in
      if (Add (precommitLockset rm) v force).2 then Ok (false, cm1)
      else if (HasQuorum pls).1
           then Ok (true, commitPrecommitLockset (HasQuorum pls).2 (Some pls) cm1)
           else Ok (true, cm1).
Proof.
  intros Hh Hr. unfold rm_addPrecommitVote. rewrite Hh, Hr.
  destruct (Contain (precommitLockset rm) v); simpl; [done|].
  destruct (Add (precommitLockset rm) v force) as [pls err]. simpl.
  destruct err; [done|].
  by destruct (HasQuorum pls) as [[] hash].
Qed.

Lemma wellKeyed_putRoundManager h r rm' hm cm :
  wellKeyed cm → heights cm !! h = Some hm →
  rmRound rm' = r → rmHeight rm' = h →
  wellKeyed (putRoundManager h r rm' hm cm).
Proof.
  intros Hk Hh Hr Hht.
  destruct (proj1 Hk h hm Hh) as [Hhm Hrk].
  apply wellKeyed_put_height; [done..|].
  apply roundsKeyed_put; [done..|]. simpl. congruence.
Qed.

(** Adding a precommit vote to a stored round returns, and keeps the
    node the same and the maps keyed. *)
Lemma rm_addPrecommitVote_keyed h r v force cm hm rm :
  heights cm !! h = Some hm → rounds hm !! r = Some rm →
  ∃ ok cm', rm_addPrecommitVote h r v force cm = Ok (ok, cm')
            ∧ sameNode cm cm' ∧ is_Some (heights cm' !! h)
            ∧ (wellKeyed cm → wellKeyed cm').
Proof.
  intros Hh Hr. rewrite (rm_addPrecommitVote_run h r v force cm hm rm Hh Hr).
  destruct (Contain (precommitLockset rm) v).
  { exists false, cm. split; [done|]. split; [apply sameNode_refl|]. by split; [eexists|]. }
  simpl.
  set (pls := (Add (precommitLockset rm) v force).1).
  set (cm1 := putRoundManager h r (set_precommitLockset pls rm) hm cm).
  assert (sameNode cm cm1) as Hs1 by (by repeat split).
  assert (is_Some (heights cm1 !! h)) as Hin
    by (simpl; rewrite lookup_insert_eq; by eexists).
  assert (wellKeyed cm → wellKeyed cm1) as Hk1.
  { intros Hk. destruct (proj1 Hk h hm Hh) as [Hhm Hrk].
    destruct (Hrk r rm Hr) as [Hrr Hrh].
    apply wellKeyed_putRoundManager; [done|done|done|simpl; congruence]. }
  destruct (Add (precommitLockset rm) v force).2; [by eexists false, _|].
  destruct (HasQuorum pls).1; [|by eexists true, _].
  eexists true, _. split; [done|].
  destruct (commitPrecommitLockset_sameNode (HasQuorum pls).2 (Some pls) cm1) as [Hs2 Hh2].
  split; [by eapply sameNode_trans|]. split; [by rewrite Hh2|].
  intros Hk. eapply wellKeyed_sameNode; [by apply Hk1|done..].
Qed.

(** [hm.addPrecommitVote] on a stored height, step by step: the round is
    created when missing, then the vote goes to it. *)
Lemma hm_addPrecommitVote_run h v process cm hm :
  heights cm !! h = Some hm →
  hm_addPrecommitVote h v process cm
  = if negb (isValidators (contract cm) (default 0 (pvSigner v))) then Ok (false, cm)
    else rm_addPrecommitVote h (pvRound v) v
           (default 0 (pvSigner v) =? coinbase (contract cm))
           (set_heights (<[h := touch (contract cm) (pvRound v) hm]> (heights cm)) cm).
Proof.
  intros Hh. unfold hm_addPrecommitVote. rewrite Hh.
  destruct (negb _); [done|]. by rewrite getRoundManager_touch.
Qed.

Lemma hm_addPrecommitVote_keyed h v process cm :
  is_Some (heights cm !! h) →
  ∃ ok cm', hm_addPrecommitVote h v process cm = Ok (ok, cm')
            ∧ sameNode cm cm' ∧ is_Some (heights cm' !! h)
            ∧ (wellKeyed cm → wellKeyed cm').
Proof.
  intros [hm Hh]. rewrite (hm_addPrecommitVote_run h v process cm hm Hh).
  destruct (negb _).
  { exists false, cm. split; [done|]. split; [apply sameNode_refl|]. by split; [eexists|]. }
  set (cmT := set_heights (<[h := touch (contract cm) (pvRound v) hm]> (heights cm)) cm).
  destruct (rm_addPrecommitVote_keyed h (pvRound v) v
              (default 0 (pvSigner v) =? coinbase (contract cm)) cmT
              (touch (contract cm) (pvRound v) hm)
              (roundAt (contract cm) hm (pvRound v)))
    as (ok & cm' & Hrun & Hs' & Hin' & Hk').
  - simpl. by rewrite lookup_insert_eq.
  - simpl. by rewrite lookup_insert_eq.
  - exists ok, cm'. split; [done|]. split; [|split; [done|]].
    + eapply sameNode_trans; [|done]. by repeat split.
    + intros Hk. apply Hk'.
      destruct (proj1 Hk h hm Hh) as [Hhm Hrk].
      destruct (keepsKeyed_touch (contract cm) hm (pvRound v) Hrk) as [Hth Htk].
      apply wellKeyed_put_height; [done|congruence|done].
Qed.

Lemma AddPrecommitVote_keyed v peer cm :
  ∃ ok cm', AddPrecommitVote v peer cm = Ok (ok, cm') ∧ sameNode cm cm'
            ∧ (wellKeyed cm → wellKeyed cm').
Proof.
  destruct v as [v|]; simpl.
  - rewrite getHeightManager_heightAt.
    destruct (hm_addPrecommitVote_keyed (pvHeight v) v true
                (set_heights (<[pvHeight v := heightAt cm (pvHeight v)]> (heights cm)) cm))
      as (ok & cm' & Hrun & Hs' & _ & Hk').
    + simpl. rewrite lookup_insert_eq. by eexists.
    + exists ok, cm'. split; [done|]. split.
      * eapply sameNode_trans; [|done]. by repeat split.
      * intros Hk. apply Hk'. destruct (heightAt_keyed (pvHeight v) cm Hk) as [Hh Hr].
        by apply wellKeyed_put_height.
  - exists false, cm. split; [done|]. split; [apply sameNode_refl|done].
Qed.

(** The loop of [addBlockProposal] over the votes of the signing
    lockset. *)
Lemma forEach_addPrecommitVote h (vs : list PrecommitVote) : ∀ cm,
  is_Some (heights cm !! h) →
  ∃ cm', forEach (λ v cm, '(_, cm') ← hm_addPrecommitVote h v false cm; Ok cm') vs cm
         = Ok cm'
         ∧ sameNode cm cm' ∧ is_Some (heights cm' !! h)
         ∧ (wellKeyed cm → wellKeyed cm').
Proof.
  induction vs as [|v vs IH]; intros cm Hin; simpl.
  - exists cm. split; [done|]. split; [apply sameNode_refl|done].
  - destruct (hm_addPrecommitVote_keyed h v false cm Hin)
      as (ok & cm1 & -> & Hs1 & Hin1 & Hk1). simpl.
    destruct (IH cm1 Hin1) as (cm' & -> & Hs' & Hin' & Hk').
    exists cm'. split; [done|]. split; [by eapply sameNode_trans|].
    split; [done|]. intros Hk. by apply Hk', Hk1.
Qed.

(** [addBlockProposal] returns: it leaves the state alone when the
    signing lockset has no quorum or is not of the height before, and
    otherwise records the proposal as the block candidate of its hash. *)
Lemma addBlockProposal_effect (bp : @BlockProposal L PL) cm :
  if (HasQuorum (SigningLockset bp)).1
     && (LsHeight (SigningLockset bp) =? sub64 (bpHeight bp) 1)
  then ∃ cm2, addBlockProposal bp cm = Ok (true, cm2)
              ∧ contract cm2 = contract cm ∧ privkey cm2 = privkey cm
              ∧ head cm2 = head cm ∧ readyValidators cm2 = readyValidators cm
              ∧ synchronizer cm2 = synchronizer cm
              ∧ blockCandidates cm2 = <[bpBlockhash bp := bp]> (blockCandidates cm)
              ∧ (wellKeyed cm → wellKeyed cm2)
  else addBlockProposal bp cm = Ok (false, cm).
Proof.
  unfold addBlockProposal.
  destruct (HasQuorum (SigningLockset bp)).1; simpl; [|done].
  destruct (LsHeight (SigningLockset bp) =? sub64 (bpHeight bp) 1); simpl; [|done].
  rewrite getHeightManager_heightAt.
  set (slH := LsHeight (SigningLockset bp)).
  set (cm1 := set_heights (<[slH := heightAt cm slH]> (heights cm)) cm).
  destruct (forEach_addPrecommitVote slH (Votes (SigningLockset bp)) cm1)
    as (cm2 & -> & (Hc & Hp & Hh & Hr & Hb & Hs) & _ & Hk2).
  { simpl. rewrite lookup_insert_eq. by eexists. }
  simpl. eexists. split; [done|]. simpl.
  split; [done|]. split; [done|]. split; [done|]. split; [done|]. split; [done|].
  split; [by rewrite Hb|].
  intros Hk.
  assert (wellKeyed cm2) as [Hh2 Hc2].
  { apply Hk2. destruct (heightAt_keyed slH cm Hk). by apply wellKeyed_put_height. }
  split; [done|]. simpl. intros k bp'. rewrite lookup_insert.
  case_decide; [by intros [= <-] | apply Hc2].
Qed.

(** What [commitPrecommitLockset] does to [found] and [Enable]: nothing,
    or it sends the block of the candidate stored for [hash], which then
    builds on the head and has the hash the lockset reports. *)
Lemma commitPrecommitLockset_outcome hash pls cm :
  nothingSent cm (commitPrecommitLockset hash pls cm)
  ∨ ∃ bp ls, pls = Some ls ∧ blockCandidates cm !! hash = Some bp
             ∧ ParentHash (bpBlock bp) = BlockHash (head cm)
             ∧ bpBlockhash bp = (HasQuorum ls).2
             ∧ blockSent bp ls cm (commitPrecommitLockset hash pls cm).
Proof.
  unfold commitPrecommitLockset.
  destruct (blockCandidates cm !! hash) as [bp|] eqn:Hc.
  - destruct (N.eqb_spec (ParentHash (bpBlock bp)) (BlockHash (Head cm))) as [Hp|Hp];
      simpl; [|by left].
    destruct pls as [ls|]; [|by left].
    destruct (N.eqb_spec (bpBlockhash bp) (HasQuorum ls).2) as [Hb|Hb]; [|by left].
    destruct (found cm) as [ch|] eqn:Hf; [|by left].
    destruct (chanRoom ch) as [|room] eqn:Hroom; [by left|].
    right. exists bp, ls. split; [done|]. split; [done|]. split; [done|]. split; [done|].
    exists ch, room. split; [done|]. split; [done|]. split; [done|]. split; [done|].
    unfold loadPrecommitLockset. simpl. rewrite Hb. by rewrite lookup_insert_eq.
  - left. destruct pls as [ls|]; [|done].
    destruct (HasQuorum ls) as [[] h']; done.
Qed.

(** X11. [AddPrecommitVote] returns for every vote, and it sends a block
    on [found] or disables the manager only in one case: the vote is from
    a validator, was added, and the precommit lockset of its round now
    reports a quorum on a hash for which a block candidate is stored that
    builds on the current head.  The block sent is that candidate's, the
    lockset is stored under its hash, and [Enable] is false afterwards. *)
Theorem AddPrecommitVote_sends_on_quorum v peer cm ok cm' :
  AddPrecommitVote (Some v) peer cm = Ok (ok, cm') →
  ¬ nothingSent cm cm' →
  ok = true
  ∧ isValidators (contract cm) (default 0 (pvSigner v)) = true
  ∧ ∃ bp hm' rm',
      heights cm' !! pvHeight v = Some hm' ∧ rounds hm' !! pvRound v = Some rm'
      ∧ (HasQuorum (precommitLockset rm')).1 = true
      ∧ blockCandidates cm !! (HasQuorum (precommitLockset rm')).2 = Some bp
      ∧ bpBlockhash bp = (HasQuorum (precommitLockset rm')).2
      ∧ ParentHash (bpBlock bp) = BlockHash (head cm)
      ∧ blockSent bp (precommitLockset rm') cm cm'.
Proof.
  simpl. rewrite getHeightManager_heightAt.
  set (h := pvHeight v). set (r := pvRound v). set (hm := heightAt cm h).
  set (cm0 := set_heights (<[h := hm]> (heights cm)) cm).
  rewrite (hm_addPrecommitVote_run h v true cm0 hm)
    by (simpl; by rewrite lookup_insert_eq).
  change (contract cm0) with (contract cm).
  destruct (isValidators (contract cm) (default 0 (pvSigner v))) eqn:Hval; simpl;
    [|by intros [= <- <-] []].
  set (own := default 0 (pvSigner v) =? coinbase (contract cm)).
  set (rm := roundAt (contract cm) hm r).
  set (hmT := touch (contract cm) r hm).
  set (cmT := set_heights (<[h := hmT]> (heights cm0)) cm0).
  change (rm_addPrecommitVote _ _ _ _ _) with (rm_addPrecommitVote h r v own cmT).
  rewrite (rm_addPrecommitVote_run h r v own cmT hmT rm)
    by (simpl; by rewrite lookup_insert_eq).
  destruct (Contain (precommitLockset rm) v); [by intros [= <- <-] []|]. simpl.
  set (pls := (Add (precommitLockset rm) v own).1).
  set (cm1 := putRoundManager h r (set_precommitLockset pls rm) hmT cmT).
  destruct (Add (precommitLockset rm) v own).2; [by intros [= <- <-] []|].
  destruct (HasQuorum pls).1 eqn:Hq; [|by intros [= <- <-] []].
  intros [= <- <-] Hsent. split; [done|]. split; [done|].
  destruct (commitPrecommitLockset_outcome (HasQuorum pls).2 (Some pls) cm1)
    as [Hno|(bp & ls & [= <-] & Hc & Hp & Hb & ch & room & Hf & Hroom & Hf' & He & Hl)];
    [by destruct Hsent|].
  exists bp, (set_rounds (<[r := set_precommitLockset pls rm]> (rounds hmT)) hmT),
    (set_precommitLockset pls rm).
  destruct (commitPrecommitLockset_sameNode (HasQuorum pls).2 (Some pls) cm1) as [_ ->].
  simpl. rewrite !lookup_insert_eq.
  split; [done|]. split; [done|]. split; [done|]. split; [done|].
  split; [done|]. split; [done|]. by exists ch, room.
Qed.

(** X12. A precommit vote of a validator that is new to its round, is
    added without an error and completes a quorum on [hash] is accepted,
    and the lockset [pls] with the quorum is the round's afterwards.
    When no block candidate is stored for [hash], nothing is sent and
    [pls] is stored under [hash]; when a candidate with that hash is
    stored that builds on the head and [found] has room, its block is
    sent; when the candidate stored for [hash] builds on another block,
    nothing is sent and nothing is stored. *)
Theorem AddPrecommitVote_completes_quorum v peer cm pls hash :
  let rm := roundAt (contract cm) (heightAt cm (pvHeight v)) (pvRound v) in
  isValidators (contract cm) (default 0 (pvSigner v)) = true →
  Contain (precommitLockset rm) v = false →
  Add (precommitLockset rm) v (default 0 (pvSigner v) =? coinbase (contract cm))
    = (pls, false) →
  HasQuorum pls = (true, hash) →
  ∃ cm', AddPrecommitVote (Some v) peer cm = Ok (true, cm')
    ∧ (∃ hm', heights cm' !! pvHeight v = Some hm'
              ∧ rounds hm' !! pvRound v = Some (set_precommitLockset pls rm))
    ∧ (blockCandidates cm !! hash = None →
         nothingSent cm cm' ∧ loadPrecommitLockset hash cm' = Some pls)
    ∧ (∀ bp ch room, blockCandidates cm !! hash = Some bp →
         ParentHash (bpBlock bp) = BlockHash (head cm) → bpBlockhash bp = hash →
         found cm = Some ch → chanRoom ch = S room →
         blockSent bp pls cm cm')
    ∧ (∀ bp, blockCandidates cm !! hash = Some bp →
         ParentHash (bpBlock bp) ≠ BlockHash (head cm) →
         nothingSent cm cm' ∧ hdcDb cm' = hdcDb cm).
Proof.
  intros rm Hval Hc Hadd Hq. simpl. rewrite getHeightManager_heightAt.
  set (h := pvHeight v). set (r := pvRound v). set (hm := heightAt cm h).
  set (cm0 := set_heights (<[h := hm]> (heights cm)) cm).
  rewrite (hm_addPrecommitVote_run h v true cm0 hm)
    by (simpl; by rewrite lookup_insert_eq).
  change (contract cm0) with (contract cm). rewrite Hval. simpl.
  set (hmT := touch (contract cm) r hm).
  set (cmT := set_heights (<[h := hmT]> (heights cm0)) cm0).
  change (rm_addPrecommitVote _ _ _ ?o _) with (rm_addPrecommitVote h r v o cmT).
  rewrite (rm_addPrecommitVote_run h r v _ cmT hmT rm)
    by (simpl; by rewrite lookup_insert_eq).
  fold rm h r hm in Hc, Hadd. rewrite Hc, Hadd. simpl. rewrite Hq. simpl.
  set (cm1 := putRoundManager h r (set_precommitLockset pls rm) hmT cmT).
  eexists. split; [done|].
  destruct (commitPrecommitLockset_sameNode hash (Some pls) cm1) as [_ Hhs].
  split; [|split; [|split]].
  - rewrite Hhs. eexists. simpl. rewrite lookup_insert_eq. split; [done|].
    simpl. by rewrite lookup_insert_eq.
  - intros Hnone. unfold commitPrecommitLockset. simpl. rewrite Hnone, Hq.
    split; [done|]. unfold loadPrecommitLockset. simpl. by rewrite lookup_insert_eq.
  - intros bp ch room Hbp Hp Hb Hf Hroom.
    unfold commitPrecommitLockset. simpl. rewrite Hbp, Hq. simpl.
    unfold Head. simpl. rewrite Hp, N.eqb_refl. simpl. rewrite Hb, N.eqb_refl.
    rewrite Hf, Hroom. exists ch, room.
    split; [done|]. split; [done|]. split; [done|]. split; [done|].
    unfold loadPrecommitLockset. simpl. by rewrite Hb, lookup_insert_eq.
  - intros bp Hbp Hp. unfold commitPrecommitLockset. simpl. rewrite Hbp.
    unfold Head. simpl.
    by destruct (N.eqb_spec (ParentHash (bpBlock bp)) (BlockHash (head cm))).
Qed.

(** *** Receiving a proposal *)

Lemma hm_addProposal_accepted cc p hm :
  (hm_addProposal cc p hm).1 = true →
  ∃ rm' q, rounds (hm_addProposal cc p hm).2 !! GetRound p = Some rm'
           ∧ proposal rm' = Some q ∧ Blockhash q = Blockhash p.
Proof.
  unfold hm_addProposal. rewrite getRoundManager_touch. unfold rm_addProposal.
  destruct (proposal (roundAt cc hm (GetRound p))) as [stored|] eqn:Hp.
  - destruct (N.eqb_spec (Blockhash stored) (Blockhash p)) as [Heq|]; simpl; [|discriminate].
    intros _. rewrite lookup_insert_eq. by eexists _, stored.
  - simpl. intros _. rewrite lookup_insert_eq. by eexists _, p.
Qed.

(** The hand-over to the HeightManager at the end of [AddProposal]. *)
Lemma dispatch_effect p cm :
  ∃ ok cm',
    (let '(hm, cm1) := getHeightManager (GetHeight p) cm in
     let '(isValid, hm') := hm_addProposal (contract cm1) p hm in
     Ok (isValid, set_heights (<[GetHeight p := hm']> (heights cm1)) cm1))
    = Ok (ok, cm')
    ∧ sameNode cm cm'
    ∧ (wellKeyed cm → wellKeyed cm')
    ∧ (ok = true →
         ∃ hm' rm' q, heights cm' !! GetHeight p = Some hm'
                      ∧ rounds hm' !! GetRound p = Some rm'
                      ∧ proposal rm' = Some q ∧ Blockhash q = Blockhash p).
Proof.
  rewrite getHeightManager_heightAt.
  set (hm := heightAt cm (GetHeight p)).
  set (cm1 := set_heights (<[GetHeight p := hm]> (heights cm)) cm).
  change (contract cm1) with (contract cm).
  pose proof (hm_addProposal_accepted (contract cm) p hm) as Hacc.
  pose proof (keepsKeyed_hm_addProposal (contract cm) p hm) as Hkk.
  destruct (hm_addProposal (contract cm) p hm) as [isValid hm'].
  eexists isValid, _. split; [done|]. split; [by repeat split|]. split.
  - intros Hk. destruct (heightAt_keyed (GetHeight p) cm Hk) as [Hh Hr].
    destruct (Hkk Hr) as [Hh' Hr']. simpl in *.
    apply wellKeyed_put_height; [|by rewrite Hh'|done].
    by apply wellKeyed_put_height.
  - intros ->. destruct (Hacc eq_refl) as (rm' & q & Hr & Hq). simpl in *.
    exists hm', rm', q. by rewrite lookup_insert_eq.
Qed.

(** A proposal turned down after its sender was marked ready. *)
Lemma AddProposal_turned_down p cm a cm' :
  Height cm ≤ GetHeight p → From p = Some a →
  isValidators (contract cm) a = true →
  proposer int_overflow (contract cm) (GetHeight p) (GetRound p) = Ok a →
  (cm' = set_readyValidators ({[a]} ∪ readyValidators cm) cm
   ∨ ∃ s, cm' = set_synchronizer s
                  (set_readyValidators ({[a]} ∪ readyValidators cm) cm)) →
  ∃ a, Height cm ≤ GetHeight p ∧ From p = Some a
       ∧ isValidators (contract cm) a = true
       ∧ proposer int_overflow (contract cm) (GetHeight p) (GetRound p) = Ok a
       ∧ contract cm' = contract cm ∧ privkey cm' = privkey cm ∧ head cm' = head cm
       ∧ readyValidators cm' = {[a]} ∪ readyValidators cm
       ∧ (wellKeyed cm → wellKeyed cm')
       ∧ (false = true →
            (∃ hm' rm' q, heights cm' !! GetHeight p = Some hm'
                          ∧ rounds hm' !! GetRound p = Some rm'
                          ∧ proposal rm' = Some q ∧ Blockhash q = Blockhash p)
            ∧ match p with
              | IsBlockProposal bp =>
                  blockCandidates cm'
                  = if LsHeight (SigningLockset bp) =? sub64 (bpHeight bp) 1
                    then <[bpBlockhash bp := bp]> (blockCandidates cm)
                    else blockCandidates cm
              | IsVotingInstruction _ => blockCandidates cm' = blockCandidates cm
              end).
Proof.
  intros Hge Hfrom Hval Hel Hcm. exists a.
  split; [done|]. split; [done|]. split; [done|]. split; [done|].
  destruct Hcm as [->|[s ->]]; simpl; (repeat (split; [done|])); discriminate.
Qed.

(** What a call of [AddProposal] that returns has done: nothing at all,
    or it has marked the sender ready, who is then a validator and the
    proposer elected for the height and round of the proposal. *)
Lemma AddProposal_effect p peer cm ok cm' :
  AddProposal bareLockSet onProposal int_overflow p peer cm = Ok (ok, cm') →
  (ok = false ∧ cm' = cm)
  ∨ ∃ a, Height cm ≤ GetHeight p ∧ From p = Some a
         ∧ isValidators (contract cm) a = true
         ∧ proposer int_overflow (contract cm) (GetHeight p) (GetRound p) = Ok a
         ∧ contract cm' = contract cm ∧ privkey cm' = privkey cm ∧ head cm' = head cm
         ∧ readyValidators cm' = {[a]} ∪ readyValidators cm
         ∧ (wellKeyed cm → wellKeyed cm')
         ∧ (ok = true →
              (∃ hm' rm' q, heights cm' !! GetHeight p = Some hm'
                            ∧ rounds hm' !! GetRound p = Some rm'
                            ∧ proposal rm' = Some q ∧ Blockhash q = Blockhash p)
              ∧ match p with
                | IsBlockProposal bp =>
                    blockCandidates cm'
                    = if LsHeight (SigningLockset bp) =? sub64 (bpHeight bp) 1
                      then <[bpBlockhash bp := bp]> (blockCandidates cm)
                      else blockCandidates cm
                | IsVotingInstruction _ => blockCandidates cm' = blockCandidates cm
                end).
Proof.
  unfold AddProposal.
  destruct (N.ltb_spec (GetHeight p) (Height cm)) as [|Hge]; [intros [= <- <-]; by left|].
  destruct (From p) as [addr|] eqn:Hfrom; [|intros [= <- <-]; by left].
  unfold isProposer. rewrite Hfrom.
  destruct (proposer int_overflow (contract cm) (GetHeight p) (GetRound p))
    as [a|msg] eqn:Hel; simpl; [|by destruct (isValidators (contract cm) addr)].
  destruct (isValidators (contract cm) addr) eqn:Hval; simpl;
    [|intros [= <- <-]; by left].
  destruct (N.eqb_spec addr a) as [->|]; simpl; [|intros [= <- <-]; by left].
  set (cmR := set_readyValidators ({[a]} ∪ readyValidators cm) cm).
  pose proof (λ cm', AddProposal_turned_down p cm a cm' Hge Hfrom Hval Hel) as Hrej.
  fold cmR in Hrej.
  destruct (negb (IsValid (LockSet bareLockSet p)) && _);
    [intros [= <- <-]; right; rewrite <- Hfrom, <- Hel; apply Hrej; by left|].
  destruct (negb (GetRound p =? 0) && negb (LsHeight _ =? _));
    [intros [= <- <-]; right; rewrite <- Hfrom, <- Hel; apply Hrej; by left|].
  destruct (negb (GetRound p =? 0) && negb (sub64 _ _ =? 1));
    [intros [= <- <-]; right; rewrite <- Hfrom, <- Hel; apply Hrej; by left|].
  destruct p as [bp|vi].
  - set (cmS := match peer with
                | Some pe => set_synchronizer (onProposal (IsBlockProposal bp) pe
                                                 (synchronizer cmR)) cmR
                | None => cmR
                end).
    assert (cmS = cmR ∨ ∃ s, cmS = set_synchronizer s cmR) as HcmS.
    { unfold cmS. destruct peer; [right; by eexists | by left]. }
    destruct (negb (NumberU64 _ =? _));
      [intros [= <- <-]; right; rewrite <- Hfrom, <- Hel; by apply Hrej|].
    destruct (negb (bpRound bp =? 0) && negb (NoQuorum _));
      [intros [= <- <-]; right; rewrite <- Hfrom, <- Hel; by apply Hrej|].
    destruct (HasQuorum (SigningLockset bp)).1 eqn:Hq; simpl;
      [|intros [= <- <-]; right; rewrite <- Hfrom, <- Hel; by apply Hrej].
    pose proof (addBlockProposal_effect bp cmS) as Hadd. rewrite Hq in Hadd. simpl in Hadd.
    assert (contract cmS = contract cm ∧ privkey cmS = privkey cm ∧ head cmS = head cm
            ∧ readyValidators cmS = {[a]} ∪ readyValidators cm
            ∧ blockCandidates cmS = blockCandidates cm
            ∧ heights cmS = heights cm) as (HSc & HSp & HSh & HSr & HSb & HSs).
    { by destruct HcmS as [->|[s ->]]. }
    assert (wellKeyed cm → wellKeyed cmS) as HkS.
    { intros [Hh Hc]. split; [by rewrite HSs | by rewrite HSb]. }
    assert (∃ cm2, addBlockProposal bp cmS = Ok ((LsHeight (SigningLockset bp)
                                                   =? sub64 (bpHeight bp) 1), cm2)
              ∧ contract cm2 = contract cm ∧ privkey cm2 = privkey cm
              ∧ head cm2 = head cm ∧ readyValidators cm2 = {[a]} ∪ readyValidators cm
              ∧ blockCandidates cm2
                = (if LsHeight (SigningLockset bp) =? sub64 (bpHeight bp) 1
                   then <[bpBlockhash bp := bp]> (blockCandidates cm)
                   else blockCandidates cm)
              ∧ (wellKeyed cm → wellKeyed cm2))
      as (cm2 & Hrun2 & H2c & H2p & H2h & H2r & H2b & H2k).
    { destruct (LsHeight (SigningLockset bp) =? sub64 (bpHeight bp) 1).
      - destruct Hadd as (cm2 & E1 & E2 & E3 & E4 & E5 & E6 & E7 & E8). exists cm2.
        split; [done|]. rewrite E2, E3, E4, E5, E7, HSb.
        repeat (split; [done|]). auto.
      - exists cmS. by rewrite Hadd. }
    change (addBlockProposal bp _) with (addBlockProposal bp cmS).
    rewrite Hrun2. simpl.
    destruct (dispatch_effect (IsBlockProposal bp) cm2)
      as (ok0 & cm3 & Hrun & (H3c & H3p & H3h & H3r & H3b & _) & H3k & H3a).
    simpl in Hrun. rewrite Hrun. intros [= <- <-]. right. exists a.
    split; [done|]. split; [done|]. split; [done|]. split; [done|].
    rewrite H3c, H3p, H3h, H3r, H3b.
    repeat (split; [done|]). split; [auto|].
    intros Hok. split; [by apply H3a|done].
  - destruct (negb ((LsRound _ =? sub64 _ 1) && _));
      [intros [= <- <-]; right; rewrite <- Hfrom, <- Hel; apply Hrej; by left|].
    destruct (viRound vi =? 0);
      [intros [= <- <-]; right; rewrite <- Hfrom, <- Hel; apply Hrej; by left|].
    destruct (HasQuorum (viLockSet vi)).1; simpl;
      [|intros [= <- <-]; right; rewrite <- Hfrom, <- Hel; apply Hrej; by left].
    destruct (dispatch_effect (IsVotingInstruction vi) cmR)
      as (ok0 & cm3 & Hrun & (H3c & H3p & H3h & H3r & H3b & _) & H3k & H3a).
    simpl in Hrun. rewrite Hrun. intros [= <- <-]. right. exists a.
    split; [done|]. split; [done|]. split; [done|]. split; [done|].
    rewrite H3c, H3p, H3h, H3r, H3b.
    repeat (split; [done|]).
    intros Hok. split; [by apply H3a|done].
Qed.

(** X15. A proposal that [AddProposal] accepts is not of a height below
    the current one; its sender is a validator, is the proposer elected
    for its height and round, and is in the ready set afterwards; and
    the round of the proposal then holds a proposal with its blockhash. *)
Theorem AddProposal_accepts_elected_proposer p peer cm cm' :
  AddProposal bareLockSet onProposal int_overflow p peer cm = Ok (true, cm') →
  Height cm ≤ GetHeight p
  ∧ ∃ a, From p = Some a
         ∧ isValidators (contract cm) a = true
         ∧ proposer int_overflow (contract cm) (GetHeight p) (GetRound p) = Ok a
         ∧ a ∈ readyValidators cm'
         ∧ ∃ hm' rm' q, heights cm' !! GetHeight p = Some hm'
                        ∧ rounds hm' !! GetRound p = Some rm'
                        ∧ proposal rm' = Some q ∧ Blockhash q = Blockhash p.
Proof.
  intros Hrun.
  destruct (AddProposal_effect _ _ _ _ _ Hrun)
    as [[? _]|(a & Hge & Hfrom & Hval & Hel & _ & _ & _ & Hr & _ & Hacc)];
    [discriminate|].
  split; [done|]. exists a. split; [done|]. split; [done|]. split; [done|].
  split; [rewrite Hr; by apply elem_of_union_l, elem_of_singleton|].
  by destruct (Hacc eq_refl).
Qed.

(** X16. [AddProposal] does not look at what [addBlockProposal] returns.
    An accepted BlockProposal whose signing lockset is of the height
    before it becomes the block candidate of its hash; one whose signing
    lockset is of another height is accepted all the same and handed to
    its round, but the block candidates stay as they were. *)
Theorem AddProposal_candidate_by_signing_height (bp : @BlockProposal L PL) peer cm cm' :
  AddProposal bareLockSet onProposal int_overflow (IsBlockProposal bp) peer cm
    = Ok (true, cm') →
  (LsHeight (SigningLockset bp) = sub64 (bpHeight bp) 1 →
     blockCandidates cm' = <[bpBlockhash bp := bp]> (blockCandidates cm))
  ∧ (LsHeight (SigningLockset bp) ≠ sub64 (bpHeight bp) 1 →
       blockCandidates cm' = blockCandidates cm
       ∧ ∃ hm' rm' q, heights cm' !! bpHeight bp = Some hm'
                      ∧ rounds hm' !! bpRound bp = Some rm'
                      ∧ proposal rm' = Some q
                      ∧ Blockhash q = bpBlockhash bp).
Proof.
  intros Hrun.
  destruct (AddProposal_effect _ _ _ _ _ Hrun)
    as [[? _]|(a & _ & _ & _ & _ & _ & _ & _ & _ & _ & Hacc)];
    [discriminate|].
  destruct (Hacc eq_refl) as [Hst Hbc]. simpl in *.
  destruct (N.eqb_spec (LsHeight (SigningLockset bp)) (sub64 (bpHeight bp) 1)); by split.
Qed.

(** *** The ready set *)

(** X14. [AddVote] marks the signer of any vote ready, before it looks
    at the vote: a vote from an address that is no validator is turned
    down and changes no HeightManager (the one of its height is created
    when missing), yet its signer is in the ready set afterwards.
    [AddReady] from the same address changes nothing. *)
Theorem AddVote_marks_any_signer_ready (v : Vote) peer cm :
  default 0 (vSigner v) ∈ readyValidators (AddVote (Some v) peer cm).2
  ∧ (isValidators (contract cm) (default 0 (vSigner v)) = false →
       AddVote (Some v) peer cm
       = (false, set_readyValidators ({[default 0 (vSigner v)]} ∪ readyValidators cm)
                   (getHeightManager (vHeight v) cm).2)
       ∧ ∀ ready : @Ready L, rdSigner ready = Some (default 0 (vSigner v)) →
                  AddReady ready cm = cm).
Proof.
  split.
  - simpl. rewrite getHeightManager_heightAt. simpl.
    destruct (hm_addVote _ v true _) as [ok hm']. simpl. set_solver.
  - intros Hval. split.
    + simpl. rewrite !getHeightManager_heightAt. simpl.
      unfold hm_addVote. simpl. rewrite Hval. simpl.
      f_equal. unfold set_heights, set_readyValidators. simpl. f_equal.
      apply insert_insert_eq.
    + intros ready Hs. unfold AddReady. by rewrite Hs, Hval.
Qed.

(** X17. Apart from [AddVote], no entry point lets an address that is no
    validator into the ready set: when every ready address is a
    validator, this is still so after [AddReady], [AddPrecommitVote],
    [AddProposal], [commitPrecommitLockset] and [cleanup]. *)
Theorem ready_set_holds_validators cm :
  readyAreValidators cm →
  (∀ ready : @Ready L, readyAreValidators (AddReady ready cm))
  ∧ (∀ v peer b cm', AddPrecommitVote v peer cm = Ok (b, cm') → readyAreValidators cm')
  ∧ (∀ p peer b cm',
       AddProposal bareLockSet onProposal int_overflow p peer cm = Ok (b, cm') →
       readyAreValidators cm')
  ∧ (∀ hash pls, readyAreValidators (commitPrecommitLockset hash pls cm))
  ∧ readyAreValidators (cleanup cm).
Proof.
  intros Hinv. unfold readyAreValidators in *. split_and!.
  - intros ready a. unfold AddReady.
    destruct (rdSigner ready) as [addr|]; [|by apply Hinv].
    destruct (isValidators (contract cm) addr) eqn:Hval; simpl; [|by apply Hinv].
    intros [->%elem_of_singleton|Hin]%elem_of_union; [done | by apply Hinv].
  - intros v peer b cm' Hrun a.
    destruct (AddPrecommitVote_keyed v peer cm) as (b' & cm'' & Hrun' & Hs & _).
    rewrite Hrun in Hrun'. injection Hrun' as <- <-.
    destruct Hs as (-> & _ & _ & -> & _). apply Hinv.
  - intros p peer b cm' Hrun a.
    destruct (AddProposal_effect _ _ _ _ _ Hrun)
      as [[_ ->]|(a0 & _ & _ & Hval & _ & -> & _ & _ & -> & _)]; [apply Hinv|].
    intros [->%elem_of_singleton|Hin]%elem_of_union; [done | by apply Hinv].
  - intros hash pls a.
    destruct (commitPrecommitLockset_sameNode hash pls cm) as [(-> & _ & _ & -> & _) _].
    apply Hinv.
  - apply Hinv.
Qed.

(** *** Sweeping *)

(** X13. [cleanup] is idempotent: a second call right after the first
    deletes nothing. *)
Theorem cleanup_idempotent cm : cleanup (cleanup cm) = cleanup cm.
Proof.
  unfold cleanup, set_heights, set_blockCandidates, Head. simpl. f_equal.
  - apply (map_fold_delete_idem (λ hm, hmHeight hm <? NumberU64 (head cm))).
  - apply (map_fold_delete_idem (λ bp, bpHeight bp <=? NumberU64 (head cm))).
Qed.

(** X18. [cleanup] never takes away what [lastCommittingLockset] reads.
    With the maps keyed and the head's number a [uint64], the lockset
    [lastCommittingLockset] returns (or the fault it runs into) is the
    same before and after [cleanup]: the HeightManager at the head's
    number, which is [Height() - 1], is the lowest one [cleanup] keeps. *)
Theorem lastCommittingLockset_after_cleanup fuel cm :
  wellKeyed cm → u64 (NumberU64 (head cm)) →
  match lastCommittingLockset fuel cm with
  | None => lastCommittingLockset fuel (cleanup cm) = None
  | Some (Panic msg) => lastCommittingLockset fuel (cleanup cm) = Some (Panic msg)
  | Some (Ok (ls, _)) =>
      ∃ cm', lastCommittingLockset fuel (cleanup cm) = Some (Ok (ls, cm'))
  end.
Proof.
  intros Hk Hu. unfold lastCommittingLockset.
  rewrite !getHeightManager_heightAt.
  change (Height (cleanup cm)) with (Height cm).
  set (h := sub64 (Height cm) 1).
  assert (h = NumberU64 (head cm)) as Hh.
  { unfold h, Height.
    transitivity (sub64 (NumberU64 (head cm)) 0); [exact (sub64_add64_1 _ 0)|].
    unfold sub64, two64. unfold u64 in Hu. rewrite Z.sub_0_r, Z.mod_small by lia.
    apply N2Z.id. }
  assert (heightAt (cleanup cm) h = heightAt cm h) as ->.
  { unfold heightAt. f_equal. unfold cleanup. simpl. rewrite map_fold_delete_lookup.
    destruct (heights cm !! h) as [hm|] eqn:Hhm; [|done].
    destruct (proj1 Hk h hm Hhm) as [Hhh _].
    unfold Head. simpl. by rewrite Hhh, Hh, N.ltb_irrefl. }
  simpl.
  destruct (lastQuorumPrecommitLockSet (contract cm) fuel (heightAt cm h))
    as [[[ls hm']|msg]|]; [by eexists|done|done].
Qed.

(** *** Precommitting again *)

Lemma timeoutReached_later now now' rm :
  (now ≤ now')%Z → timeoutReached now rm = true → timeoutReached now' rm = true.
Proof.
  unfold timeoutReached. intros Hle [Hne Hr]%andb_true_iff.
  rewrite Hne. simpl. apply Qle_bool_iff. apply Qle_bool_iff in Hr.
  eapply Qle_trans; [done|]. by rewrite <- Zle_Qle.
Qed.

(** The state [votePrecommit] leaves behind after emitting [v1] from the
    round [rm1] it has stored: the same node, with the round differing
    from [rm1] in the precommit lockset only. *)
Lemma votePrecommit_leaves h r v1 rm1 hm cm out cm' :
  ('(_, cm2) ← rm_addPrecommitVote h r v1 false (putRoundManager h r rm1 hm cm);
   Ok (Some v1, cm2)) = Ok (out, cm') →
  out = Some v1 ∧ privkey cm' = privkey cm
  ∧ ∃ hm' pls, heights cm' !! h = Some hm'
               ∧ rounds hm' !! r = Some (set_precommitLockset pls rm1).
Proof.
  destruct (putRoundManager_lookup h r rm1 hm cm) as (hm1 & Hh1 & Hr1).
  destruct (rm_addPrecommitVote_round h r v1 false _ _ _ Hh1 Hr1)
    as (ok & cm2 & hm' & pls & Hrun & Hh' & Hr').
  destruct (rm_addPrecommitVote_keyed h r v1 false _ _ _ Hh1 Hr1)
    as (ok' & cm2' & Hrun' & (_ & Hp & _) & _).
  rewrite Hrun in Hrun'. injection Hrun' as <- <-.
  rewrite Hrun. simpl. intros [= <- <-].
  split; [done|]. split; [done|]. by exists hm', pls.
Qed.

(** X19. A precommit of type Block is emitted once: after it, every
    further call of [votePrecommit] for the round returns nil and
    changes nothing.  A Nil precommit (after the prevote timeout) sets
    no lock, so every later call emits the same vote again. *)
Theorem votePrecommit_again now h r cm pv cm' :
  votePrecommit now h r cm = Ok (Some pv, cm') →
  (pvVoteType pv = 1 →
     ∀ now', votePrecommit now' h r cm' = Ok (None, cm'))
  ∧ (pvVoteType pv ≠ 1 →
       ∀ now', (now ≤ now')%Z →
         ∃ cm'', votePrecommit now' h r cm' = Ok (Some pv, cm'')).
Proof.
  unfold votePrecommit at 1.
  destruct (heights cm !! h) as [hm|] eqn:Hh; [|discriminate].
  destruct (rounds hm !! r) as [rm|] eqn:Hr; [|discriminate].
  destruct (precommitVoteLock rm) eqn:Hl; [discriminate|].
  destruct (IsValid (lockset rm)) eqn:Hv; [|discriminate].
  destruct (HasQuorum (lockset rm)) as [quorum blockhash] eqn:Hq.
  destruct quorum; [|destruct (timeoutReached now rm) eqn:Ht; [|discriminate]].
  - simpl.
    intros (Hout & Hp & hm' & pls & Hh' & Hr')%votePrecommit_leaves.
    injection Hout as ->. split; [|done].
    intros _ now'. unfold votePrecommit. by rewrite Hh', Hr'.
  - simpl.
    intros (Hout & Hp & hm' & pls & Hh' & Hr')%votePrecommit_leaves.
    injection Hout as ->. split; [done|].
    intros _ now' Hle. unfold votePrecommit. rewrite Hh', Hr'. simpl.
    rewrite Hl, Hv, Hq.
    change (timeoutReached now' (set_precommitLockset pls rm))
      with (timeoutReached now' rm).
    rewrite (timeoutReached_later now now' rm Hle Ht). simpl. rewrite Hp.
    set (v1 := SignPrecommitVote (privkey cm) (NewPrecommitVote _ _ nilHash 2)).
    destruct (putRoundManager_lookup h r (set_precommitLockset pls rm) hm' cm')
      as (hm1 & Hh1 & Hr1).
    destruct (rm_addPrecommitVote_round h r v1 false _ _ _ Hh1 Hr1)
      as (ok & cm2 & _ & _ & Hrun & _).
    rewrite Hrun. simpl. by eexists.
Qed.

(** *** The maps stay keyed, at every entry point *)

Lemma votePrecommit_keyed now h r cm out cm' :
  wellKeyed cm → votePrecommit now h r cm = Ok (out, cm') → wellKeyed cm'.
Proof.
  intros Hk. unfold votePrecommit.
  destruct (heights cm !! h) as [hm|] eqn:Hh; [|discriminate].
  destruct (rounds hm !! r) as [rm|] eqn:Hr; [|discriminate].
  destruct (proj1 Hk h hm Hh) as [Hhm Hrk].
  destruct (Hrk r rm Hr) as [Hrr Hrh].
  destruct (precommitVoteLock rm); [by intros [= <- <-]|].
  assert (∀ v1 rm1, rmRound rm1 = r → rmHeight rm1 = h →
            ('(_, cm2) ← rm_addPrecommitVote h r v1 false (putRoundManager h r rm1 hm cm);
             Ok (Some v1, cm2)) = Ok (out, cm') → wellKeyed cm') as Hgo.
  { intros v1 rm1 H1 H2.
    destruct (putRoundManager_lookup h r rm1 hm cm) as (hm1 & Hh1 & Hr1).
    destruct (rm_addPrecommitVote_keyed h r v1 false _ _ _ Hh1 Hr1)
      as (ok & cm2 & -> & _ & _ & Hk2). simpl. intros [= <- <-].
    apply Hk2. by apply wellKeyed_putRoundManager. }
  destruct (IsValid (lockset rm)); [|by intros [= <- <-]].
  destruct (HasQuorum (lockset rm)) as [quorum blockhash].
  destruct quorum; [|destruct (timeoutReached now rm); [|by intros [= <- <-]]].
  - simpl. apply Hgo; simpl; congruence.
  - simpl. apply Hgo; simpl; congruence.
Qed.

(** X20. The maps of the ConsensusManager stay keyed: when every
    HeightManager is stored under its own height with every RoundManager
    under its own round, and every block candidate under its own hash,
    that is still so after [getHeightManager], [commitPrecommitLockset],
    [cleanup], [AddReady], [AddVote], [AddPrecommitVote] (which never
    faults), [votePrecommit], [AddProposal] and
    [lastCommittingLockset]. *)
Theorem ConsensusManager_keeps_maps_keyed cm :
  wellKeyed cm →
  (∀ h, wellKeyed (getHeightManager h cm).2)
  ∧ (∀ hash pls, wellKeyed (commitPrecommitLockset hash pls cm))
  ∧ wellKeyed (cleanup cm)
  ∧ (∀ ready : @Ready L, wellKeyed (AddReady ready cm))
  ∧ (∀ v peer, wellKeyed (AddVote v peer cm).2)
  ∧ (∀ v peer, ∃ ok cm', AddPrecommitVote v peer cm = Ok (ok, cm') ∧ wellKeyed cm')
  ∧ (∀ now h r out cm', votePrecommit now h r cm = Ok (out, cm') → wellKeyed cm')
  ∧ (∀ p peer ok cm',
       AddProposal bareLockSet onProposal int_overflow p peer cm = Ok (ok, cm') →
       wellKeyed cm')
  ∧ (∀ fuel ls cm', lastCommittingLockset fuel cm = Some (Ok (ls, cm')) → wellKeyed cm').
Proof.
  intros Hk. split_and!.
  - intros h. by apply wellKeyed_getHeightManager.
  - intros hash pls.
    destruct (commitPrecommitLockset_sameNode hash pls cm) as [Hs Hh].
    by eapply wellKeyed_sameNode.
  - by apply wellKeyed_cleanup.
  - intros ready. unfold AddReady.
    destruct (rdSigner ready) as [addr|]; [|done]. by destruct (negb _).
  - intros [v|] peer; simpl; [|done].
    rewrite getHeightManager_heightAt. simpl.
    destruct (heightAt_keyed (vHeight v) cm Hk) as [Hh Hr].
    pose proof (keepsKeyed_hm_addVote (contract cm) v true _ Hr) as [Hh' Hr'].
    destruct (hm_addVote (contract cm) v true _) as [ok hm']. simpl in *.
    destruct Hk as [Hhs Hc]. split; [|done]. simpl. intros h0 hm0.
    rewrite lookup_insert. case_decide as Heq.
    + intros [= <-]. split; [congruence|done].
    + rewrite lookup_insert_ne by done. apply Hhs.
  - intros v peer. destruct (AddPrecommitVote_keyed v peer cm) as (ok & cm' & ? & _ & Hk').
    exists ok, cm'. auto.
  - intros now h r out cm'. by apply votePrecommit_keyed.
  - intros p peer ok cm' Hrun.
    destruct (AddProposal_effect _ _ _ _ _ Hrun)
      as [[_ ->]|(a & _ & _ & _ & _ & _ & _ & _ & _ & Hk' & _)]; auto.
  - intros fuel ls cm'. unfold lastCommittingLockset.
    rewrite getHeightManager_heightAt.
    set (h := sub64 (Height cm) 1).
    destruct (heightAt_keyed h cm Hk) as [Hh Hr].
    change (contract (set_heights _ cm)) with (contract cm).
    destruct (lastQuorumPrecommitLockSet (contract cm) fuel (heightAt cm h))
      as [[[ls' hm']|msg]|] eqn:Hrun; [|discriminate..].
    intros [= <- <-].
    destruct (keepsKeyed_lastQuorumPrecommitLockSet_from _ _ _ _ _ _ _ Hr Hrun)
      as [Hh' Hr'].
    apply wellKeyed_put_height; [|congruence|done].
    by apply wellKeyed_put_height.
Qed.
End ConsensusProofs2.

Section HeightProofs4.
Context {L PL : Type} `{!LocksetOps Vote L} `{!LocksetOps PrecommitVote PL}.
Variable cc : ConsensusContract.
Implicit Types (hm : @HeightManager L PL) (rm : @RoundManager L PL).

(** X21. [hm.HasQuorum()] returns with enough fuel: it reports
    [(false, nil hash)] when no round holds a valid precommit lockset
    with a quorum, and [(true, h)] when the rounds that hold one all hold
    it on [h].  The empty precommit lockset of a RoundManager created on
    the way is taken not to be a valid quorum. *)
Theorem hm_HasQuorum_reports hm :
  IsValid (mkPLockSet cc (hmHeight hm)) && (HasQuorum (mkPLockSet cc (hmHeight hm))).1 = false →
  ∃ fuel0 : nat, ∀ fuel : nat, (fuel0 ≤ fuel)%nat →
    ∃ res, hm_HasQuorum cc fuel hm = Some res
      ∧ ((∀ k h, ¬ quorumAt hm k h) → ∃ hm', res = Ok ((false, nilHash), hm'))
      ∧ (∀ h, (∃ k, quorumAt hm k h) → (∀ k' h', quorumAt hm k' h' → h' = h) →
           ∃ hm', res = Ok ((true, h), hm')).
Proof.
  intros Hfresh.
  destruct (keys_bound (rounds hm)) as (B & Hlt & Htop).
  exists (S B). intros fuel Hfuel.
  destruct (lastQuorumPrecommitLockSet_from_scan cc B fuel 0 None hm) as [hm' Hrun]; [|lia|].
  { split; [intros j Hj; lia|]. split.
    - intros k Hk. apply Hlt in Hk. lia.
    - intros HB. rewrite N.add_0_l. by apply Htop. }
  unfold hm_HasQuorum, lastQuorumPrecommitLockSet. rewrite Hrun.
  set (l := plsFrom cc hm 0 B).
  assert (∀ ls h, ls ∈ l → reportsQuorum ls h →
            ∃ k rm, rounds hm !! k = Some rm ∧ ls = precommitLockset rm) as Hfrom.
  { intros ls h (k & _ & ->)%elem_of_plsFrom [Hv Hq].
    destruct (rounds hm !! k) as [rm|] eqn:Hk.
    - exists k, rm. by rewrite (roundAt_Some cc _ _ _ Hk).
    - rewrite (roundAt_None cc _ _ Hk) in Hv, Hq. simpl in Hv, Hq.
      rewrite Hv, Hq in Hfresh. done. }
  destruct (scanQuorum None l) as [[ls|]|msg] eqn:Hscan; simpl.
  - eexists. split; [done|]. split.
    + intros Hno. rewrite (scanQuorum_none l None) in Hscan; [done|].
      intros ls' h Hin Hr. destruct (Hfrom ls' h Hin Hr) as (k & rm & Hk & ->).
      apply (Hno k h). exists rm. by destruct Hr.
    + intros h [k0 (rm0 & Hk0 & Hv0 & Hq0)] Hall.
      destruct (scanQuorum_agree h l None) as (ls' & Hs' & [_ Hr] & _); [|done| |].
      { intros ls' h' Hin Hr'. destruct (Hfrom ls' h' Hin Hr') as (k & rm & Hk & ->).
        apply (Hall k). exists rm. by destruct Hr'. }
      { intros _. exists (precommitLockset rm0). split; [|done].
        apply elem_of_plsFrom. exists k0. rewrite (roundAt_Some cc _ _ _ Hk0).
        split; [|done]. assert (k0 < N.of_nat B) by (apply Hlt; by rewrite Hk0). lia. }
      rewrite Hscan in Hs'. injection Hs' as <-. rewrite Hr. by eexists.
  - eexists. split; [done|]. split; [by eexists|].
    intros h [k0 (rm0 & Hk0 & Hv0 & Hq0)] Hall.
    destruct (scanQuorum_agree h l None) as (ls' & Hs' & _); [|done| |congruence].
    { intros ls' h' Hin Hr'. destruct (Hfrom ls' h' Hin Hr') as (k & rm & Hk & ->).
      apply (Hall k). exists rm. by destruct Hr'. }
    intros _. exists (precommitLockset rm0). split; [|done].
    apply elem_of_plsFrom. exists k0. rewrite (roundAt_Some cc _ _ _ Hk0).
    split; [|done]. assert (k0 < N.of_nat B) by (apply Hlt; by rewrite Hk0). lia.
  - eexists. split; [done|]. split.
    + intros Hno. rewrite (scanQuorum_none l None) in Hscan; [done|].
      intros ls' h Hin Hr. destruct (Hfrom ls' h Hin Hr) as (k & rm & Hk & ->).
      apply (Hno k h). exists rm. by destruct Hr.
    + intros h [k0 (rm0 & Hk0 & Hv0 & Hq0)] Hall.
      destruct (scanQuorum_agree h l None) as (ls' & Hs' & _); [|done| |congruence].
      { intros ls' h' Hin Hr'. destruct (Hfrom ls' h' Hin Hr') as (k & rm & Hk & ->).
        apply (Hall k). exists rm. by destruct Hr'. }
      intros _. exists (precommitLockset rm0). split; [|done].
      apply elem_of_plsFrom. exists k0. rewrite (roundAt_Some cc _ _ _ Hk0).
      split; [|done]. assert (k0 < N.of_nat B) by (apply Hlt; by rewrite Hk0). lia.
Qed.

(** *** Checking the invariants on a given state *)

Lemma roundsKeyed_check hm :
  bool_decide (map_Forall (λ r rm, rmRound rm = r ∧ rmHeight rm = hmHeight hm)
                 (rounds hm)) = true →
  roundsKeyed hm.
Proof. intros Hall%bool_decide_eq_true r rm Hr. by apply (Hall r rm). Qed.

Lemma contiguous_check hm :
  bool_decide (Forall (λ j, is_Some (rounds hm !! N.of_nat j))
                 (seq 0 (size (rounds hm)))) = true →
  contiguous hm.
Proof.
  intros Hall%bool_decide_eq_true j Hj. rewrite Forall_forall in Hall.
  rewrite <- (N2Nat.id j). apply Hall. apply elem_of_seq. lia.
Qed.
End HeightProofs4.

Section ConsensusChecks.
Context {L PL : Type} `{!LocksetOps Vote L} `{!LocksetOps PrecommitVote PL}.
Context {Synchronizer : Type}.
Implicit Types (cm : @ConsensusManager L PL Synchronizer).

Lemma wellKeyed_check cm :
  bool_decide (map_Forall (λ h hm, hmHeight hm = h
                 ∧ map_Forall (λ r rm, rmRound rm = r ∧ rmHeight rm = hmHeight hm)
                     (rounds hm)) (heights cm)) = true →
  bool_decide (map_Forall (λ k bp, bpBlockhash bp = k) (blockCandidates cm)) = true →
  wellKeyed cm.
Proof.
  intros Hh%bool_decide_eq_true Hc%bool_decide_eq_true. split.
  - intros h hm Hin. destruct (Hh h hm Hin) as [? Hrk]. split; [done|].
    intros r rm Hr. by apply (Hrk r rm).
  - intros k bp Hin. by apply (Hc k bp).
Qed.

Lemma readyAreValidators_check cm :
  forallb (isValidators (contract cm)) (elements (readyValidators cm)) = true →
  readyAreValidators cm.
Proof.
  intros Hall a Ha. rewrite forallb_forall in Hall.
  apply Hall. by apply list_elem_of_In, elem_of_elements.
Qed.
End ConsensusChecks.

(** ** The further statements on the example states *)

Import ExMore.

Lemma proposer_elects_validator_witness : isValidators cc4 11 = true.
Proof.
  apply (proposer_elects_validator amd64_int_overflow cc4 1 0 11).
  vm_compute. reflexivity.
Defined.

Lemma proposer_round_robin_witness :
  ∃ a, proposer amd64_int_overflow cc4 6 3 = Ok a
       ∧ validators cc4 !! N.to_nat ((6 - 3) mod N.of_nat (length (validators cc4))) = Some a.
Proof.
  apply (proposer_round_robin amd64_int_overflow cc4 6 3);
    [reflexivity | discriminate | reflexivity | discriminate].
Defined.

Lemma HeightManager_keeps_rounds_keyed_witness :
  (∀ r, keepsKeyed hmOnlyRound5 (getRoundManager cc4 r hmOnlyRound5).2)
  ∧ keepsKeyed hmOnlyRound5 (LastVoteLock cc4 hmOnlyRound5).2.
Proof.
  destruct (HeightManager_keeps_rounds_keyed cc4 hmOnlyRound5) as (Hget & Hlast & _).
  - apply roundsKeyed_check. vm_compute. reflexivity.
  - split; [exact Hget | exact Hlast].
Defined.

Lemma vote_sets_lock_once_witness :
  ∃ v hm', vote cc4 100 10 0 hmProposed = Ok (Some v, hm')
           ∧ vSigner v = Some 10
           ∧ ∀ now', vote cc4 now' 10 0 hm' = Ok (None, hm').
Proof.
  assert (∃ v hm', vote cc4 100 10 0 hmProposed = Ok (Some v, hm')) as (v & hm' & Hrun).
  { do 2 eexists. vm_compute. reflexivity. }
  exists v, hm'. split; [exact Hrun|].
  destruct (vote_sets_lock_once cc4 100 10 0 hmProposed
              (set_proposal (Some proposalA) (emptyRound 1 0)) v hm')
    as (Hs & _ & _ & _ & Hagain); [reflexivity | exact Hrun |].
  split; [exact Hs | exact Hagain].
Defined.

Lemma vote_follows_lock_witness :
  ∃ hm', vote cc4 100 10 1 hmLockedThenProposed
         = Ok (Some (ownVote 1 1 hashX 1), hm').
Proof.
  apply (vote_follows_lock cc4 100 10 1 hmLockedThenProposed proposedRound1
           (ownPrecommit 1 0 hashX 1)); reflexivity.
Defined.

Lemma accessors_on_contiguous_rounds_witness :
  (LastPrecommitVoteLock cc4 hmLockedThenVoted).2 = hmLockedThenVoted
  ∧ (LastVoteLock cc4 hmLockedThenVoted).1 = Some (ownVote 1 1 hashX 1).
Proof.
  destruct (accessors_on_contiguous_rounds cc4 hmLockedThenVoted)
    as ((_ & _ & Hvote) & (Hsame & _) & _).
  - apply contiguous_check. vm_compute. reflexivity.
  - split; [exact Hsame|].
    apply (Hvote 1 votedRound1); [reflexivity | reflexivity |].
    intros j rm' Hj Hrm. exfalso.
    assert (rounds hmLockedThenVoted !! j = None) as Hnone.
    { apply (not_elem_of_dom (D := gset N)). intros Hin.
      replace (dom (rounds hmLockedThenVoted)) with ({[0; 1]} : gset N) in Hin
        by (vm_compute; reflexivity).
      apply elem_of_union in Hin as [Hin|Hin]; apply elem_of_singleton in Hin; lia. }
    rewrite Hnone in Hrm. discriminate.
Defined.

Lemma lastQuorumLockset_returns_highest_witness :
  ∃ fuel0 : nat, ∀ fuel : nat, (fuel0 ≤ fuel)%nat →
    ∃ hm', lastQuorumLockset cc4 fuel hmTwoPrevoteQuorums
           = Some (Some (prevotesFor 1 1 hashY), hm').
Proof.
  destruct (lastQuorumLockset_returns_highest cc4 hmTwoPrevoteQuorums)
    as [fuel0 Hrun]; [reflexivity|].
  exists fuel0. intros fuel Hfuel.
  destruct (Hrun fuel Hfuel) as (res & hm' & Hres & _ & Hhigh).
  exists hm'. rewrite Hres. f_equal. f_equal.
  apply (Hhigh 1 (prevoteQuorumRound 1 hashY)); [reflexivity..|].
  intros k' Hk' (rm & Hrm & _).
  assert (rounds hmTwoPrevoteQuorums !! k' = None) as Hnone.
  { apply (not_elem_of_dom (D := gset N)). intros Hin.
    replace (dom (rounds hmTwoPrevoteQuorums)) with ({[0; 1]} : gset N) in Hin
      by (vm_compute; reflexivity).
    apply elem_of_union in Hin as [Hin|Hin]; apply elem_of_singleton in Hin; lia. }
  rewrite Hnone in Hrm. discriminate.
Defined.

Lemma AddPrecommitVote_sends_on_quorum_witness :
  ∃ cm', AddPrecommitVote (Some thirdPrecommit) (@None unit) cmAwaitingThird = Ok (true, cm')
         ∧ ∃ bp, blockCandidates cmAwaitingThird !! hashX = Some bp
                 ∧ ParentHash (bpBlock bp) = BlockHash (head cmAwaitingThird).
Proof.
  assert (∃ ok cm', AddPrecommitVote (Some thirdPrecommit) (@None unit) cmAwaitingThird
                    = Ok (ok, cm') ∧ Enable cm' = false) as (ok & cm' & Hrun & Hoff).
  { do 2 eexists. split; vm_compute; reflexivity. }
  destruct (AddPrecommitVote_sends_on_quorum thirdPrecommit None cmAwaitingThird ok cm' Hrun)
    as (-> & _ & bp & hm' & rm' & _ & _ & _ & Hc & Hb & Hp & _).
  - intros [_ He]. rewrite Hoff in He. discriminate.
  - exists cm'. split; [exact Hrun|]. exists bp. split; [|exact Hp].
    rewrite <- Hb in Hc. rewrite <- Hc. f_equal.
    destruct (blockCandidates cmAwaitingThird !! bpBlockhash bp) eqn:Hl;
      [|discriminate].
    injection Hc as ->.
    assert (blockCandidates cmAwaitingThird !! hashX = Some (proposalOn blockA 0))
      as Hx by reflexivity.
    destruct (decide (bpBlockhash bp = hashX)) as [->|Hne]; [reflexivity|].
    exfalso. assert (blockCandidates cmAwaitingThird !! bpBlockhash bp = None) as Hnone.
    { apply (lookup_singleton_ne (M := gmap Hash)). congruence. }
    rewrite Hnone in Hl. discriminate.
Defined.

Lemma AddPrecommitVote_completes_quorum_witness :
  ∃ cm', AddPrecommitVote (Some thirdPrecommit) (@None unit) cmAwaitingThird = Ok (true, cm')
         ∧ blockSent (proposalOn blockA 0) (precommitsFor 1 0 hashX) cmAwaitingThird cm'.
Proof.
  destruct (AddPrecommitVote_completes_quorum thirdPrecommit (@None unit) cmAwaitingThird
              (precommitsFor 1 0 hashX) hashX)
    as (cm' & Hrun & _ & _ & Hsent & _); [reflexivity..|].
  exists cm'. split; [exact Hrun|].
  apply (Hsent (proposalOn blockA 0) (mkFoundChan 1 []) 0%nat); reflexivity.
Defined.

Lemma AddProposal_accepts_elected_proposer_witness :
  ∃ cm', AddProposal noBareLockSet noSync amd64_int_overflow
           (IsBlockProposal electedProposal) None cmAtGenesis = Ok (true, cm')
         ∧ proposer amd64_int_overflow cc4 1 0 = Ok 11
         ∧ 11 ∈ readyValidators cm'.
Proof.
  assert (∃ cm', AddProposal noBareLockSet noSync amd64_int_overflow
                   (IsBlockProposal electedProposal) None cmAtGenesis = Ok (true, cm'))
    as (cm' & Hrun).
  { eexists. vm_compute. reflexivity. }
  destruct (AddProposal_accepts_elected_proposer noBareLockSet noSync amd64_int_overflow
              (IsBlockProposal electedProposal) None cmAtGenesis cm' Hrun)
    as (_ & a & Hfrom & _ & Hel & Hready & _).
  injection Hfrom as <-.
  exists cm'. split; [exact Hrun|]. split; [exact Hel | exact Hready].
Defined.

Lemma AddProposal_candidate_by_signing_height_witness :
  ∃ cm', AddProposal noBareLockSet noSync amd64_int_overflow
           (IsBlockProposal strayProposal) None cmAtGenesis = Ok (true, cm')
         ∧ blockCandidates cm' = blockCandidates cmAtGenesis.
Proof.
  assert (∃ cm', AddProposal noBareLockSet noSync amd64_int_overflow
                   (IsBlockProposal strayProposal) None cmAtGenesis = Ok (true, cm'))
    as (cm' & Hrun).
  { eexists. vm_compute. reflexivity. }
  destruct (AddProposal_candidate_by_signing_height noBareLockSet noSync amd64_int_overflow
              strayProposal None cmAtGenesis cm' Hrun) as [_ Hstray].
  exists cm'. split; [exact Hrun|].
  destruct Hstray as [Hsame _]; [discriminate | exact Hsame].
Defined.

Lemma ready_set_holds_validators_witness :
  readyAreValidators (AddReady (mkReady 0 (mkVoteSet 4 []) (Some 11)) cmAwaitingThird)
  ∧ ∃ cm', AddPrecommitVote (Some thirdPrecommit) (@None unit) cmAwaitingThird
           = Ok (true, cm')
           ∧ readyAreValidators cm'.
Proof.
  destruct (ready_set_holds_validators noBareLockSet (Peer := unit) noSync amd64_int_overflow
              cmAwaitingThird) as (Hready & Hpre & _).
  - apply readyAreValidators_check. vm_compute. reflexivity.
  - split; [apply Hready|].
    assert (∃ cm', AddPrecommitVote (Some thirdPrecommit) (@None unit) cmAwaitingThird
                   = Ok (true, cm')) as (cm' & Hrun).
    { eexists. vm_compute. reflexivity. }
    exists cm'. split; [exact Hrun|]. exact (Hpre _ _ _ _ Hrun).
Defined.

Lemma lastCommittingLockset_after_cleanup_witness :
  heights (cleanup cmCommittedAtHead3) !! 2 = None
  ∧ ∃ cm', lastCommittingLockset 2 (cleanup cmCommittedAtHead3)
           = Some (Ok (Some (precommitsFor 3 0 1003), cm')).
Proof.
  split; [vm_compute; reflexivity|].
  pose proof (lastCommittingLockset_after_cleanup 2 cmCommittedAtHead3) as Hsame.
  assert (∃ cm', lastCommittingLockset 2 cmCommittedAtHead3
                 = Some (Ok (Some (precommitsFor 3 0 1003), cm'))) as [cm' Hrun].
  { eexists. vm_compute. reflexivity. }
  rewrite Hrun in Hsame. apply Hsame.
  - apply wellKeyed_check; vm_compute; reflexivity.
  - reflexivity.
Defined.

Lemma votePrecommit_again_witness :
  ∃ pv cm', votePrecommit 100 1 0 cmTimedOut = Ok (Some pv, cm')
            ∧ pvVoteType pv = 2
            ∧ ∃ cm'', votePrecommit 200 1 0 cm' = Ok (Some pv, cm'').
Proof.
  assert (∃ pv cm', votePrecommit 100 1 0 cmTimedOut = Ok (Some pv, cm')
                    ∧ pvVoteType pv = 2) as (pv & cm' & Hrun & Hnil).
  { do 2 eexists. split; vm_compute; reflexivity. }
  destruct (votePrecommit_again 100 1 0 cmTimedOut pv cm' Hrun) as [_ Hagain].
  exists pv, cm'. split; [exact Hrun|]. split; [exact Hnil|].
  apply Hagain; [rewrite Hnil; discriminate | discriminate].
Defined.

Lemma ConsensusManager_keeps_maps_keyed_witness :
  wellKeyed (cleanup cmAwaitingThird)
  ∧ ∃ ok cm', AddPrecommitVote (Some thirdPrecommit) (@None unit) cmAwaitingThird
              = Ok (ok, cm') ∧ wellKeyed cm'.
Proof.
  destruct (ConsensusManager_keeps_maps_keyed noBareLockSet (Peer := unit) noSync
              amd64_int_overflow cmAwaitingThird) as (_ & _ & Hclean & _ & _ & Hpre & _).
  - apply wellKeyed_check; vm_compute; reflexivity.
  - split; [exact Hclean | apply Hpre].
Defined.

Lemma hm_HasQuorum_reports_witness :
  ∃ fuel0 : nat, ∀ fuel : nat, (fuel0 ≤ fuel)%nat →
    ∃ hm', hm_HasQuorum cc4 fuel hmOneQuorum = Some (Ok ((true, hashX), hm')).
Proof.
  destruct (hm_HasQuorum_reports cc4 hmOneQuorum) as [fuel0 Hrun]; [reflexivity|].
  exists fuel0. intros fuel Hfuel.
  destruct (Hrun fuel Hfuel) as (res & Hres & _ & Hagree).
  destruct (Hagree hashX) as [hm' ->].
  - exists 0, (committedRound 1 0 hashX). split; [reflexivity|]. split; reflexivity.
  - intros k' h' (rm & Hrm & _ & Hq).
    assert (rm = committedRound 1 0 hashX ∨ rm = committedRound 1 3 hashX) as [->| ->].
    { destruct (decide (k' = 0)) as [->|H0]; [left; by injection Hrm|].
      destruct (decide (k' = 3)) as [->|H3]; [right; by injection Hrm|].
      exfalso. assert (rounds hmOneQuorum !! k' = None) as Hnone.
      { apply (not_elem_of_dom (D := gset N)). intros Hin.
        replace (dom (rounds hmOneQuorum)) with ({[0; 3]} : gset N) in Hin
          by (vm_compute; reflexivity).
        apply elem_of_union in Hin as [Hin|Hin]; apply elem_of_singleton in Hin; lia. }
      rewrite Hnone in Hrm. discriminate. }
    + vm_compute in Hq. injection Hq as <-. reflexivity.
    + vm_compute in Hq. injection Hq as <-. reflexivity.
  - exists hm'. exact Hres.
Defined.

(** [LastVotedBlockProposal] gives up at a round that holds a
    VotingInstruction, and faults at a round that holds a BlockProposal
    without a vote lock. *)
Example LastVotedBlockProposal_edges :
  (∃ hm', LastVotedBlockProposal cc4 hmInstructed = Ok (None, hm'))
  ∧ LastVotedBlockProposal cc4 hmProposed = Panic "nil pointer dereference".
Proof. split; [eexists|]; vm_compute; reflexivity. Qed.

(** The election runs for a sender that is no validator too: the late
    VotingInstruction signed by address 99 makes AddProposal fault, and
    with four validators, where the election returns, it is turned down
    and the state is as before. *)
Example AddProposal_election_fault_any_sender :
  AddProposal noBareLockSet noSync amd64_int_overflow
    (IsVotingInstruction strangerInstruction) None cmThreeValidators
  = Panic "index out of range"
  ∧ AddProposal noBareLockSet noSync amd64_int_overflow
      (IsVotingInstruction strangerInstruction) None cmAtGenesis
    = Ok (false, cmAtGenesis).
Proof. split; vm_compute; reflexivity. Qed.

(** A prevote of address 99, no validator, is refused, and 99 is ready
    afterwards. *)
Example AddVote_from_a_stranger :
  (AddVote (Some strangerVote) (@None unit) cmAtGenesis).1 = false
  ∧ 99 ∈ readyValidators (AddVote (Some strangerVote) (@None unit) cmAtGenesis).2.
Proof.
  split; [vm_compute; reflexivity|].
  apply elem_of_elements. vm_compute. left.
Qed.
